(** * Vocab core: type generation for translation files (compile.ts)

    A shallow embedding of [packages/core/src/compile.ts]: the
    placeholder type inferencer ([extractParamTypes], [extractHasTags]),
    the encoders, the type serialiser, the per-key loop of
    [generateRuntime], [writeIfChanged] and the two watcher handlers.

    Conventions of the embedding
    - a JavaScript string is a [string]; the only characters the code
      inspects are the ASCII quote and backslash;
    - a plain object used as a dictionary is an association list of its
      own properties in enumeration order ([JSObject]): names that are
      array indices come first, in ascending order, the other names follow
      in the order in which they were created; assigning a string to
      [__proto__] creates no property; a read goes on to
      [Object.prototype] when the object has no such property of its own.
      A [Map] keyed by strings and a [Set] of strings keep insertion
      order, whatever the key ([JSObject.set], [JSSet]);
    - [trace] is debug output only and is left out;
    - code that lives outside compile.ts (the message parser, the helpers
      of ./utils, prettier, the translation loader, the file system) is a
      parameter of the section that uses it. *)

From Stdlib Require Import List String Ascii Bool Arith NArith Lia.
Import ListNotations.
Open Scope list_scope.
Open Scope string_scope.

(** ** JavaScript containers *)

Module JSObject.

(** The own enumerable properties of an object, or the entries of a
    [Map], listed in enumeration order. *)
Definition t (A : Type) : Type := list (string * A).

Definition empty {A : Type} : t A := [].

(** The own property [k] of [o], or the entry of a [Map]: [m.get(k)]. *)
Fixpoint get {A : Type} (o : t A) (k : string) : option A :=
  match o with
  | [] => None
  | (k', v) :: o' => if String.eqb k' k then Some v else get o' k
  end.

(** [m.set(k, v)] on a [Map]: an existing key keeps its place, a new one
    goes last, whatever the key is. *)
Fixpoint set {A : Type} (o : t A) (k : string) (v : A) : t A :=
  match o with
  | [] => [(k, v)]
  | (k', v') :: o' =>
      if String.eqb k' k then (k', v) :: o' else (k', v') :: set o' k v
  end.

Definition keys {A : Type} (o : t A) : list string := map fst o.
Definition values {A : Type} (o : t A) : list A := map snd o.
Definition entries {A : Type} (o : t A) : list (string * A) := o.

(** *** Property names

    A name is an array index when it is the canonical decimal form of an
    integer below 2^32 - 1: digits only, no leading zero. *)

Definition digitOf (c : ascii) : option N :=
  let n := N_of_ascii c in
  if ((48 <=? n) && (n <=? 57))%N then Some (n - 48)%N else None.

Fixpoint decimal (s : string) (acc : N) : option N :=
  match s with
  | EmptyString => Some acc
  | String c rest =>
      match digitOf c with
      | Some d => decimal rest (acc * 10 + d)%N
      | None => None
      end
  end.

Definition arrayIndex (k : string) : option N :=
  match k with
  | EmptyString => None
  | String c rest =>
      if Ascii.eqb c "0"%char && negb (String.eqb rest "") then None
      else
        match decimal k 0 with
        | Some n => if (n <? 4294967295)%N then Some n else None
        | None => None
        end
  end.

(** [precedes k k']: a new property [k] is enumerated before the
    existing property [k']. *)
Definition precedes (k k' : string) : bool :=
  match arrayIndex k, arrayIndex k' with
  | Some n, Some n' => (n <? n')%N
  | Some _, None => true
  | None, _ => false
  end.

(** The names are listed in enumeration order: none of them stands
    right before a name that precedes it. *)
Fixpoint ordered (ks : list string) : bool :=
  match ks with
  | [] => true
  | k :: rest =>
      match rest with
      | [] => true
      | k' :: _ => negb (precedes k' k) && ordered rest
      end
  end.

(** *** Writing a property of a plain object *)

Fixpoint update {A : Type} (o : t A) (k : string) (v : A) : t A :=
  match o with
  | [] => []
  | (k', v') :: o' =>
      if String.eqb k' k then (k', v) :: o' else (k', v') :: update o' k v
  end.

Fixpoint place {A : Type} (o : t A) (k : string) (v : A) : t A :=
  match o with
  | [] => [(k, v)]
  | (k', v') :: o' =>
      if precedes k k' then (k, v) :: o else (k', v') :: place o' k v
  end.

(** Defining the data property [k]: an existing property keeps its
    place and takes the value; a new one is enumerated among the array
    indices when it is one, and last otherwise. *)
Definition define {A : Type} (o : t A) (k : string) (v : A) : t A :=
  match get o k with
  | Some _ => update o k v
  | None => place o k v
  end.

(** [o[k] = v] for a string [v], on an object whose prototype is
    [Object.prototype]: the name [__proto__] reaches the inherited
    setter, which ignores a string, unless [o] has a property of that
    name itself; every other name is defined on [o]. *)
Definition assign {A : Type} (o : t A) (k : string) (v : A) : t A :=
  match get o k with
  | Some _ => update o k v
  | None => if String.eqb k "__proto__" then o else place o k v
  end.

(** [{ ...a, ...b }]: a new object, on which the own properties of [a]
    and then those of [b] are defined, each in enumeration order. *)
Definition spread {A : Type} (a b : t A) : t A :=
  fold_left (fun acc kv => define acc (fst kv) (snd kv))
    (entries a ++ entries b)%list empty.

(** *** Reading a property of a plain object *)

(** The properties of [Object.prototype]; all of them are functions,
    except [__proto__], which reads as the prototype itself. *)
Definition inheritedNames : list string :=
  ["constructor"; "hasOwnProperty"; "isPrototypeOf"; "propertyIsEnumerable";
   "toLocaleString"; "toString"; "valueOf"; "__proto__";
   "__defineGetter__"; "__defineSetter__"; "__lookupGetter__";
   "__lookupSetter__"].

Definition inherits (k : string) : bool := existsb (String.eqb k) inheritedNames.

(** What [o[k]] evaluates to: the own property, a value inherited from
    [Object.prototype], or [undefined]. *)
Inductive lookup (A : Type) : Type :=
| Own (v : A)
| Inherited
| Undefined.
Arguments Own {A} v.
Arguments Inherited {A}.
Arguments Undefined {A}.

Definition read {A : Type} (o : t A) (k : string) : lookup A :=
  match get o k with
  | Some v => Own v
  | None => if inherits k then Inherited else Undefined
  end.

(** No property is listed twice. *)
Definition wf {A : Type} (o : t A) : Prop := NoDup (keys o).

End JSObject.

Module JSSet.

(** A [Set<string>] in insertion order. *)
Definition t : Type := list string.

Definition empty : t := [].

Definition has (s : t) (x : string) : bool := existsb (String.eqb x) s.

(** [s.add(x)] *)
Definition add (s : t) (x : string) : t := if has s x then s else (s ++ [x])%list.

(** [new Set(xs)] *)
Definition of_list (xs : list string) : t := fold_left add xs empty.

(** [Array.from(s)] *)
Definition to_list (s : t) : list string := s.

End JSSet.

(** [xs.join(sep)] is [String.concat sep xs]. *)
Definition join (sep : string) (xs : list string) : string := String.concat sep xs.

(** The template [`'${s}'`]. *)
Definition quoted (s : string) : string := "'" ++ s ++ "'".

(** ** Message AST

    The element type of @formatjs/icu-messageformat-parser, with the
    fields compile.ts reads: the [value] of every element, the [options]
    of select and plural elements (selector and the option's [value], in
    the order [Object.keys]/[Object.values] list them) and the [children]
    of a tag. *)

#[local] Unset Elimination Schemes.

Inductive MessageFormatElement : Type :=
| LiteralElement (value : string)
| ArgumentElement (value : string)
| NumberElement (value : string)
| DateElement (value : string)
| TimeElement (value : string)
| SelectElement (value : string)
    (options : list (string * list MessageFormatElement))
| PluralElement (value : string)
    (options : list (string * list MessageFormatElement))
| PoundElement
| TagElement (value : string) (children : list MessageFormatElement).

#[local] Set Elimination Schemes.

Definition AST : Type := list MessageFormatElement.

Section ElementInduction.

Variable P : MessageFormatElement -> Prop.

Hypothesis HLit : forall v, P (LiteralElement v).
Hypothesis HArg : forall v, P (ArgumentElement v).
Hypothesis HNum : forall v, P (NumberElement v).
Hypothesis HDate : forall v, P (DateElement v).
Hypothesis HTime : forall v, P (TimeElement v).
Hypothesis HSel : forall v options,
    Forall (fun o => Forall P (snd o)) options -> P (SelectElement v options).
Hypothesis HPlu : forall v options,
    Forall (fun o => Forall P (snd o)) options -> P (PluralElement v options).
Hypothesis HPound : P PoundElement.
Hypothesis HTag : forall v children,
    Forall P children -> P (TagElement v children).

Fixpoint MessageFormatElement_ind' (e : MessageFormatElement) : P e :=
  let fix on_ast (a : list MessageFormatElement) : Forall P a :=
    match a with
    | [] => Forall_nil _
    | x :: a' => Forall_cons _ (MessageFormatElement_ind' x) (on_ast a')
    end in
  let fix on_options (os : list (string * list MessageFormatElement))
    : Forall (fun o => Forall P (snd o)) os :=
    match os with
    | [] => Forall_nil _
    | o :: os' => Forall_cons _ (on_ast (snd o)) (on_options os')
    end in
  match e with
  | LiteralElement v => HLit v
  | ArgumentElement v => HArg v
  | NumberElement v => HNum v
  | DateElement v => HDate v
  | TimeElement v => HTime v
  | SelectElement v options => HSel v options (on_options options)
  | PluralElement v options => HPlu v options (on_options options)
  | PoundElement => HPound
  | TagElement v children => HTag v children (on_ast children)
  end.

Lemma ast_ind' : forall a : AST, Forall P a.
Proof. induction a; constructor; auto using MessageFormatElement_ind'. Qed.

End ElementInduction.

(** ** Encoders *)

(** [v.replace(/'/g, "\\'")] *)
Fixpoint encodeWithinSingleQuotes (v : string) : string :=
  match v with
  | EmptyString => EmptyString
  | String c rest =>
      if Ascii.eqb c "'"%char
      then String "\"%char (String "'"%char (encodeWithinSingleQuotes rest))
      else String c (encodeWithinSingleQuotes rest)
  end.

(** [v.replace(/\\/g, '\\\\')] *)
Fixpoint encodeBackslash (v : string) : string :=
  match v with
  | EmptyString => EmptyString
  | String c rest =>
      if Ascii.eqb c "\"%char
      then String "\"%char (String "\"%char (encodeBackslash rest))
      else String c (encodeBackslash rest)
  end.

(** ** Placeholder type inferencer *)

Definition ICUParams : Type := JSObject.t string.

(** One iteration of [ast.some]'s callback in [extractHasTags]. *)
Fixpoint elementHasTags (element : MessageFormatElement) : bool :=
  match element with
  | SelectElement _ options =>
      existsb (fun o => existsb elementHasTags (snd o)) options
  | TagElement _ _ => true
  | _ => false
  end.

Definition extractHasTags (ast : AST) : bool := existsb elementHasTags ast.

Definition formatXMLElementFnImport : string :=
  "import { FormatXMLElementFn } from '@vocab/types';".

(** The merge that follows a recursive call:
    [imports = new Set([...imports, ...subImports]);
     params = { ...params, ...subParams }]. *)
Definition mergeSub (st sub : ICUParams * JSSet.t) : ICUParams * JSSet.t :=
  (JSObject.spread (fst st) (fst sub),
   JSSet.of_list (JSSet.to_list (snd st) ++ JSSet.to_list (snd sub))%list).

(** The body of the [for (const element of ast)] loop of
    [extractParamTypes], as a transformer of ([params], [imports]). *)
Fixpoint paramTypesStep (st : ICUParams * JSSet.t)
    (element : MessageFormatElement) {struct element} : ICUParams * JSSet.t :=
  match element with
  | ArgumentElement value => (JSObject.assign (fst st) value "string", snd st)
  | NumberElement value => (JSObject.assign (fst st) value "number", snd st)
  | PluralElement value _ => (JSObject.assign (fst st) value "number", snd st)
  | DateElement value | TimeElement value =>
      (JSObject.assign (fst st) value "Date | number", snd st)
  | TagElement value children =>
      let st1 := (JSObject.assign (fst st) value "FormatXMLElementFn<T>",
                  JSSet.add (snd st) formatXMLElementFnImport) in
      mergeSub st1 (fold_left paramTypesStep children (JSObject.empty, JSSet.empty))
  | SelectElement value options =>
      let st1 := (JSObject.assign (fst st) value
                    (join " | " (map quoted (map fst options))),
                  snd st) in
      fold_left
        (fun acc o =>
           mergeSub acc
             (fold_left paramTypesStep (snd o) (JSObject.empty, JSSet.empty)))
        options st1
  | LiteralElement _ | PoundElement => st
  end.

Definition extractParamTypes (ast : AST) : ICUParams * JSSet.t :=
  fold_left paramTypesStep ast (JSObject.empty, JSSet.empty).

(** ** Type serialiser *)

(** The values [serialiseObjectToType] meets: a string (a code fragment)
    or a nested object. *)
#[local] Unset Elimination Schemes.

Inductive JSValue : Type :=
| VString (s : string)
| VObject (props : list (string * JSValue)).

#[local] Set Elimination Schemes.

(** What the template inserts for a property's value: the string itself,
    or the serialisation of the nested object. *)
Fixpoint serialiseValue (value : JSValue) : string :=
  match value with
  | VString s => s
  | VObject v =>
      "{ "
      ++ fold_left
           (fun result kv =>
              result ++ "'" ++ encodeWithinSingleQuotes (fst kv) ++ "': "
              ++ serialiseValue (snd kv) ++ ",")
           v ""
      ++ " }"
  end.

Definition serialiseObjectToType (v : JSObject.t JSValue) : string :=
  serialiseValue (VObject v).

Definition stringProps (o : JSObject.t string) : JSObject.t JSValue :=
  map (fun kv => (fst kv, VString (snd kv))) o.

(** ** Translation units *)

Record TranslationTypeInfo : Type := {
  params : ICUParams;
  message : string;
  returnType : string;
  hasTags : bool
}.

(** An entry of a language: compile.ts reads its [message]. *)
Record TranslationData : Type := { data_message : string }.

Definition TranslationsByKey : Type := JSObject.t TranslationData.

Record LoadedTranslation : Type := {
  filePath : string;
  keys : list string;
  languages : JSObject.t TranslationsByKey
}.

(** A JavaScript exception. *)
Inductive JSError : Type := MkError (description : string).

Inductive result (A : Type) : Type :=
| Ok (a : A)
| Throw (e : JSError).
Arguments Ok {A} a.
Arguments Throw {A} e.

Definition newline : string := String (ascii_of_nat 10) EmptyString.

Definition banner : string :=
  "// This file is automatically generated by Vocab." ++ newline
  ++ "// To make changes update translation.json files directly.".

(** The accessor type of one key, built in the first loop of
    [serialiseTranslationRuntime]. *)
Definition translationFunctionString (info : TranslationTypeInfo) : string :=
  if Nat.ltb 0 (List.length (JSObject.keys (params info))) then
    let formatGeneric := if hasTags info then "<T = string>" else "" in
    let formatReturn :=
      if hasTags info then "string | T | Array<string | T>" else "string" in
    formatGeneric ++ "(values: "
    ++ serialiseObjectToType (stringProps (params info))
    ++ ") => " ++ formatReturn
  else "() => " ++ message info.

(** [translationsType] after the first loop. *)
Definition translationsType (value : JSObject.t TranslationTypeInfo)
  : JSObject.t JSValue :=
  fold_left
    (fun acc kv =>
       JSObject.assign acc (encodeBackslash (fst kv))
         (VString (translationFunctionString (snd kv))))
    (JSObject.entries value) JSObject.empty.

Section Serialiser.

(** [JSON.stringify(getTranslationMessages(translations))] *)
Variable stringifyMessages : TranslationsByKey -> string.

Definition serialiseTranslationRuntime
    (value : JSObject.t TranslationTypeInfo) (imports : JSSet.t)
    (loadedTranslation : LoadedTranslation) : string :=
  let content :=
    join ","
      (map (fun lt =>
              "'" ++ encodeWithinSingleQuotes (fst lt) ++ "': createLanguage("
              ++ stringifyMessages (snd lt) ++ ")")
         (JSObject.entries (languages loadedTranslation))) in
  let languagesUnionAsString :=
    join " | " (map quoted (JSObject.keys (languages loadedTranslation))) in
  banner ++ newline ++ newline
  ++ "  " ++ join newline (JSSet.to_list imports) ++ newline
  ++ "  import { createLanguage, createTranslationFile } from '@vocab/core/runtime';"
  ++ newline ++ newline
  ++ "  const translations = createTranslationFile<" ++ languagesUnionAsString
  ++ ", " ++ serialiseObjectToType (translationsType value)
  ++ ">({" ++ content ++ "});" ++ newline ++ newline
  ++ "  export default translations;".

End Serialiser.

(** ** The loops of [generateRuntime] *)

Section TypeInfo.

(** [parse] of @formatjs/icu-messageformat-parser; it throws on a
    malformed message. *)
Variable parse : string -> result AST.

(** State of the loop over languages: [params], [messages], [hasTags]
    and the shared [imports]. *)
Record KeyState : Type := {
  ks_params : ICUParams;
  ks_messages : JSSet.t;
  ks_hasTags : bool;
  ks_imports : JSSet.t
}.

(** What is thrown when [translatedLanguage[key]] is a value inherited
    from [Object.prototype]: it is truthy and has no [message], so the
    parser is handed [undefined] and fails on its first access to the
    text (and [encodeWithinSingleQuotes(undefined)] could not be
    evaluated either). *)
Definition typeError : JSError := MkError "TypeError".

(** Body of [for (const translatedLanguage of Object.values(loadedLanguages))]. *)
Definition languageStep (key : string) (st : result KeyState)
    (translatedLanguage : TranslationsByKey) : result KeyState :=
  match st with
  | Throw e => Throw e
  | Ok s =>
      match JSObject.read translatedLanguage key with
      | JSObject.Undefined => Ok s
      | JSObject.Inherited => Throw typeError
      | JSObject.Own data =>
          match parse (data_message data) with
          | Throw e => Throw e
          | Ok ast =>
              let hasTags := ks_hasTags s || extractHasTags ast in
              let parsed := extractParamTypes ast in
              Ok {| ks_params := JSObject.spread (ks_params s) (fst parsed);
                    ks_messages :=
                      JSSet.add (ks_messages s)
                        (quoted (encodeWithinSingleQuotes (data_message data)));
                    ks_hasTags := hasTags;
                    ks_imports :=
                      JSSet.of_list (JSSet.to_list (ks_imports s)
                                     ++ JSSet.to_list (snd parsed))%list |}
          end
      end
  end.

Definition keyLoop (loadedLanguages : JSObject.t TranslationsByKey)
    (key : string) (imports : JSSet.t) : result KeyState :=
  fold_left (languageStep key) (JSObject.values loadedLanguages)
    (Ok {| ks_params := JSObject.empty; ks_messages := JSSet.empty;
           ks_hasTags := false; ks_imports := imports |}).

Definition typeInfoOf (s : KeyState) : TranslationTypeInfo :=
  {| params := ks_params s;
     hasTags := ks_hasTags s;
     message := join " | " (JSSet.to_list (ks_messages s));
     returnType :=
       if ks_hasTags s then "NonNullable<ReactNode>" else "string" |}.

(** Body of [for (const key of loadedTranslation.keys)]: the state is
    the [translationTypes] map and [imports]. *)
Definition keyStep (loadedLanguages : JSObject.t TranslationsByKey)
    (st : result (JSObject.t TranslationTypeInfo * JSSet.t)) (key : string)
  : result (JSObject.t TranslationTypeInfo * JSSet.t) :=
  match st with
  | Throw e => Throw e
  | Ok (translationTypes, imports) =>
      match keyLoop loadedLanguages key imports with
      | Throw e => Throw e
      | Ok s => Ok (JSObject.set translationTypes key (typeInfoOf s),
                    ks_imports s)
      end
  end.

(** [translationTypes] and [imports] when the loops of [generateRuntime]
    are done. *)
Definition generateTypes (loadedTranslation : LoadedTranslation)
  : result (JSObject.t TranslationTypeInfo * JSSet.t) :=
  fold_left (keyStep (languages loadedTranslation)) (keys loadedTranslation)
    (Ok (JSObject.empty, JSSet.empty)).

End TypeInfo.

(** ** Effects: files, console, exceptions *)

(** The part of [fs] compile.ts calls.  [readFile] and [writeFile] reject
    with an exception, [existsSync] does not throw. *)
Class FileSystem (F : Type) : Type := {
  readFile : F -> string -> result string;
  writeFile : F -> string -> string -> result F;
  existsSync : F -> string -> bool
}.

(** What a write leaves behind, for the properties that run the code
    twice. *)
Class LawfulFileSystem (F : Type) `{FileSystem F} : Prop := {
  read_after_write : forall f p c f',
    writeFile f p c = Ok f' -> readFile f' p = Ok c;
  exists_after_write : forall f p c f',
    writeFile f p c = Ok f' -> existsSync f' p = true
}.

Inductive Event : Type :=
| EvWriteFile (path contents : string)
| EvConsoleLog (args : list string)
| EvConsoleError (e : JSError).

Record World (F : Type) : Type := {
  files : F;
  journal : list Event
}.
Arguments files {F} w.
Arguments journal {F} w.

Definition isWrite (ev : Event) : bool :=
  match ev with EvWriteFile _ _ => true | _ => false end.

(** Number of [fs.writeFile] calls recorded. *)
Definition writeCount (evs : list Event) : nat := List.length (filter isWrite evs).

Module Eff.

(** A computation that may change the world and either returns or
    throws; what was done before a throw stays done. *)
Definition t (F A : Type) : Type := World F -> result A * World F.

Definition ret {F A : Type} (a : A) : t F A := fun w => (Ok a, w).

Definition throw {F A : Type} (e : JSError) : t F A := fun w => (Throw e, w).

Definition bind {F A B : Type} (m : t F A) (k : A -> t F B) : t F B :=
  fun w =>
    match m w with
    | (Ok a, w') => k a w'
    | (Throw e, w') => (Throw e, w')
    end.

(** [try { m } catch (e) { h e }] *)
Definition try_catch {F A : Type} (m : t F A) (h : JSError -> t F A) : t F A :=
  fun w =>
    match m w with
    | (Ok a, w') => (Ok a, w')
    | (Throw e, w') => h e w'
    end.

Definition lift {F A : Type} (r : result A) : t F A := fun w => (r, w).

Definition emit {F : Type} (ev : Event) : t F unit :=
  fun w => (Ok tt, {| files := files w; journal := (journal w ++ [ev])%list |}).

End Eff.

Notation "x <- m ;; k" := (Eff.bind m (fun x => k))
  (at level 61, m at next level, right associativity).
Notation "m ;;; k" := (Eff.bind m (fun _ => k))
  (at level 61, right associativity).

Section FileEffects.

Context {F : Type} `{FileSystem F}.

(** [await fs.readFile(filepath, { encoding: 'utf-8' })] *)
Definition readFileM (filepath : string) : Eff.t F string :=
  fun w => (readFile (files w) filepath, w).

(** [await fs.writeFile(filepath, contents)]: the call is recorded,
    then it succeeds or rejects. *)
Definition writeFileM (filepath contents : string) : Eff.t F unit :=
  fun w =>
    let j := (journal w ++ [EvWriteFile filepath contents])%list in
    match writeFile (files w) filepath contents with
    | Ok f' => (Ok tt, {| files := f'; journal := j |})
    | Throw e => (Throw e, {| files := files w; journal := j |})
    end.

Definition existsSyncM (filepath : string) : Eff.t F bool :=
  fun w => (Ok (existsSync (files w) filepath), w).

Definition writeIfChanged (filepath contents : string) : Eff.t F unit :=
  hasChanged <-
    Eff.try_catch
      (existingContents <- readFileM filepath ;;
       Eff.ret (negb (String.eqb existingContents contents)))
      (fun _ => Eff.ret true) ;;
  if hasChanged : bool then writeFileM filepath contents else Eff.ret tt.

End FileEffects.

(** ** [generateRuntime] *)

Section Generator.

Context {F : Type} `{FileSystem F}.

Variable parse : string -> result AST.
Variable stringifyMessages : TranslationsByKey -> string.

(** prettier: [resolveConfig(filePath)] and
    [format(text, { ...config, parser: 'typescript' })]. *)
Variable PrettierConfig : Type.
Variable resolveConfig : string -> result PrettierConfig.
Variable format : string -> PrettierConfig -> result string.

(** ./utils *)
Variable getTSFileFromDevLanguageFile : string -> string.

(** The text handed to [writeIfChanged]. *)
Definition declarationOf (loadedTranslation : LoadedTranslation)
  : result string :=
  match generateTypes parse loadedTranslation with
  | Throw e => Throw e
  | Ok (translationTypes, imports) =>
      match resolveConfig (filePath loadedTranslation) with
      | Throw e => Throw e
      | Ok prettierConfig =>
          format
            (serialiseTranslationRuntime stringifyMessages translationTypes
               imports loadedTranslation)
            prettierConfig
      end
  end.

Definition generateRuntime (loadedTranslation : LoadedTranslation)
  : Eff.t F unit :=
  declaration <- Eff.lift (declarationOf loadedTranslation) ;;
  let outputFilePath :=
    getTSFileFromDevLanguageFile (filePath loadedTranslation) in
  writeIfChanged outputFilePath declaration.

End Generator.

(** ** The watcher's handlers *)

Section Watcher.

Context {F : Type} `{FileSystem F}.

(** [config.projectRoot || process.cwd()] *)
Variable cwd : string.

(** ./utils and path *)
Variable isDevLanguageFile : string -> bool.
Variable isAltLanguageFile : string -> bool.
Variable getDevLanguageFileFromAltLanguageFile : string -> string.
Variable isTranslationDirectory : string -> bool.
Variable devTranslationFileName : string.
Variable pathResolve : string -> string -> string.
Variable pathJoin : string -> string -> string.

(** [loadTranslation({ filePath, fallbacks: 'all' }, config)] *)
Variable loadTranslation : F -> string -> result LoadedTranslation.

(** [generateRuntime] with its collaborators fixed. *)
Variable generate : LoadedTranslation -> Eff.t F unit.

(** [targetFile] after the classification; [None] is [undefined]. *)
Definition targetFileOf (relativePath : string) : option string :=
  if isDevLanguageFile relativePath then
    Some (pathResolve cwd relativePath)
  else if isAltLanguageFile relativePath then
    Some (getDevLanguageFileFromAltLanguageFile (pathResolve cwd relativePath))
  else None.

(** [if (targetFile)]: [undefined] and the empty string are falsy. *)
Definition truthy (targetFile : option string) : bool :=
  match targetFile with
  | Some s => negb (String.eqb s "")
  | None => false
  end.

Definition loadTranslationM (target : string) : Eff.t F LoadedTranslation :=
  fun w => (loadTranslation (files w) target, w).

(** The body of the [try]: reload the unit, then regenerate it. *)
Definition regenerate (target : string) : Eff.t F unit :=
  loadedTranslation <- loadTranslationM target ;;
  generate loadedTranslation.

Definition onTranslationChange (relativePath : string) : Eff.t F unit :=
  let targetFile := targetFileOf relativePath in
  match targetFile with
  | Some target =>
      if truthy targetFile then
        Eff.try_catch
          (regenerate target)
          (fun e =>
             Eff.emit (EvConsoleLog ["Failed to generate types for"; relativePath]) ;;;
             Eff.emit (EvConsoleError e))
      else Eff.ret tt
  | None => Eff.ret tt
  end.

(** [JSON.stringify({}, null, 2)] *)
Definition emptyObjectJSON : string := "{}".

Definition onNewDirectory (relativePath : string) : Eff.t F unit :=
  if negb (isTranslationDirectory relativePath) then Eff.ret tt
  else
    let newFilePath := pathJoin relativePath devTranslationFileName in
    present <- existsSyncM newFilePath ;;
    if negb present then writeFileM newFilePath emptyObjectJSON
    else Eff.ret tt.

(** The events the watcher subscribes to. *)
Inductive WatchEvent : Type :=
| AddDir (relativePath : string)
| Add (relativePath : string)
| Change (relativePath : string).

Definition dispatch (ev : WatchEvent) : Eff.t F unit :=
  match ev with
  | AddDir p => onNewDirectory p
  | Add p | Change p => onTranslationChange p
  end.

(** The two listeners are registered independently: every delivered
    event is handled, whatever an earlier handler did.  An exception that
    leaves a handler is an unhandled rejection; the result of the session
    is the first of them, if there is one. *)
Fixpoint watchSession (events : list WatchEvent) : Eff.t F unit :=
  match events with
  | [] => Eff.ret tt
  | ev :: rest =>
      fun w =>
        match dispatch ev w with
        | (Ok _, w') => watchSession rest w'
        | (Throw e, w') => (Throw e, snd (watchSession rest w'))
        end
  end.

Definition isFileEvent (ev : WatchEvent) : bool :=
  match ev with
  | Add _ | Change _ => true
  | AddDir _ => false
  end.

End Watcher.

(** ** Reading a single-quoted literal back

    The generated file is TypeScript: a literal ['...'] ends at the first
    quote that is not escaped, a backslash escapes the character after
    it, and a raw line break is not allowed.  [readSingleQuoted s] is the
    value of [s] when [s] is exactly one such literal.  Hexadecimal,
    unicode and digit escapes are not needed here and are refused. *)

Definition escapeValue (c : ascii) : option ascii :=
  if Ascii.eqb c "b"%char then Some (ascii_of_nat 8)
  else if Ascii.eqb c "t"%char then Some (ascii_of_nat 9)
  else if Ascii.eqb c "n"%char then Some (ascii_of_nat 10)
  else if Ascii.eqb c "v"%char then Some (ascii_of_nat 11)
  else if Ascii.eqb c "f"%char then Some (ascii_of_nat 12)
  else if Ascii.eqb c "r"%char then Some (ascii_of_nat 13)
  else if Ascii.eqb c "x"%char || Ascii.eqb c "u"%char then None
  else if (Nat.leb 48 (nat_of_ascii c) && Nat.leb (nat_of_ascii c) 57)%bool then None
  else if Ascii.eqb c (ascii_of_nat 10) || Ascii.eqb c (ascii_of_nat 13) then None
  else Some c.

Definition isLineBreak (c : ascii) : bool :=
  Ascii.eqb c (ascii_of_nat 10) || Ascii.eqb c (ascii_of_nat 13).

Fixpoint readLiteralBody (s : string) : option string :=
  match s with
  | EmptyString => None
  | String c rest =>
      if Ascii.eqb c "'"%char then
        match rest with EmptyString => Some EmptyString | _ => None end
      else if Ascii.eqb c "\"%char then
        match rest with
        | EmptyString => None
        | String d rest' =>
            match escapeValue d with
            | Some x => option_map (String x) (readLiteralBody rest')
            | None => None
            end
        end
      else if isLineBreak c then None
      else option_map (String c) (readLiteralBody rest)
  end.

Definition readSingleQuoted (s : string) : option string :=
  match s with
  | String "'"%char body => readLiteralBody body
  | _ => None
  end.

(** How [generateRuntime] embeds a message in the accessor type (the
    argument of [messages.add]) ... *)
Definition embedMessage (message : string) : string :=
  quoted (encodeWithinSingleQuotes message).

(** ... and how a key reaches the generated text: [encodeBackslash] when
    it is stored in [translationsType], [encodeWithinSingleQuotes] and the
    quotes in [serialiseObjectToType]. *)
Definition embedKey (key : string) : string :=
  quoted (encodeWithinSingleQuotes (encodeBackslash key)).

(** A text between single quotes, spelled out character by character:
    the quote, the characters of the text with a backslash put before
    every quote among them, the quote. *)
Definition escapedCharacter (c : ascii) : string :=
  if Ascii.eqb c "'"%char then "\'" else String c "".

Definition singleQuotedText (text : string) : string :=
  "'" ++ String.concat "" (map escapedCharacter (list_ascii_of_string text)) ++ "'".

Definition isBackslashOrBreak (c : ascii) : bool :=
  Ascii.eqb c "\"%char || isLineBreak c.

Fixpoint noneOf (p : ascii -> bool) (s : string) : bool :=
  match s with
  | EmptyString => true
  | String c rest => negb (p c) && noneOf p rest
  end.

(** ** Visiting order and reachability, for the statements below *)

(** [Occurs ast name ty]: the traversal of [ast] by [extractParamTypes]
    meets a placeholder called [name] whose kind has the type [ty].  The
    traversal goes through the children of tags and the options of
    selects. *)
Inductive Occurs : AST -> string -> string -> Prop :=
| Occ_argument : forall (pre : AST) name post,
    Occurs (pre ++ ArgumentElement name :: post)%list name "string"
| Occ_number : forall (pre : AST) name post,
    Occurs (pre ++ NumberElement name :: post)%list name "number"
| Occ_plural : forall (pre : AST) name options post,
    Occurs (pre ++ PluralElement name options :: post)%list name "number"
| Occ_date : forall (pre : AST) name post,
    Occurs (pre ++ DateElement name :: post)%list name "Date | number"
| Occ_time : forall (pre : AST) name post,
    Occurs (pre ++ TimeElement name :: post)%list name "Date | number"
| Occ_tag : forall (pre : AST) name children post,
    Occurs (pre ++ TagElement name children :: post)%list name
      "FormatXMLElementFn<T>"
| Occ_select : forall (pre : AST) name options post,
    Occurs (pre ++ SelectElement name options :: post)%list name
      (join " | " (map quoted (map fst options)))
| Occ_in_tag : forall (pre : AST) v children post name ty,
    Occurs children name ty ->
    Occurs (pre ++ TagElement v children :: post)%list name ty
| Occ_in_select : forall (pre : AST) v options post selector branch name ty,
    In (selector, branch) options ->
    Occurs branch name ty ->
    Occurs (pre ++ SelectElement v options :: post)%list name ty.

Arguments Occurs _%_list _%_string _%_string.

(** [Silent ast name]: the traversal of [ast] meets no placeholder
    called [name]. *)
Definition Silent (ast : AST) (name : string) : Prop :=
  forall ty, ~ Occurs ast name ty.

Arguments Silent _%_list _%_string.

(** [Decides ast name ty]: among the placeholders called [name] that the
    traversal of [ast] meets, the last one in processing order is of a
    kind whose type is [ty].  The order is that of the loop: the
    elements in turn; for a tag, the tag and then its children; for a
    select, the select and then its options, one after the other. *)
Inductive Decides : AST -> string -> string -> Prop :=
| Dec_argument : forall (pre : AST) name post,
    Silent post name ->
    Decides (pre ++ ArgumentElement name :: post)%list name "string"
| Dec_number : forall (pre : AST) name post,
    Silent post name ->
    Decides (pre ++ NumberElement name :: post)%list name "number"
| Dec_plural : forall (pre : AST) name options post,
    Silent post name ->
    Decides (pre ++ PluralElement name options :: post)%list name "number"
| Dec_date : forall (pre : AST) name post,
    Silent post name ->
    Decides (pre ++ DateElement name :: post)%list name "Date | number"
| Dec_time : forall (pre : AST) name post,
    Silent post name ->
    Decides (pre ++ TimeElement name :: post)%list name "Date | number"
| Dec_tag : forall (pre : AST) name children post,
    Silent children name -> Silent post name ->
    Decides (pre ++ TagElement name children :: post)%list name
      "FormatXMLElementFn<T>"
| Dec_select : forall (pre : AST) name options post,
    (forall selector branch, In (selector, branch) options -> Silent branch name) ->
    Silent post name ->
    Decides (pre ++ SelectElement name options :: post)%list name
      (String.concat " | "
         (map (fun label => "'" ++ label ++ "'") (map fst options)))
| Dec_in_tag : forall (pre : AST) v children post name ty,
    Decides children name ty -> Silent post name ->
    Decides (pre ++ TagElement v children :: post)%list name ty
| Dec_in_select : forall (pre : AST) v earlier selector branch later post name ty,
    Decides branch name ty ->
    (forall selector' branch', In (selector', branch') later ->
                               Silent branch' name) ->
    Silent post name ->
    Decides
      (pre ++ SelectElement v (earlier ++ (selector, branch) :: later) :: post)%list
      name ty.

Arguments Decides _%_list _%_string _%_string.

(** A tag that [extractHasTags] can reach: at the top level or below
    select options. *)
Inductive TagReachable : AST -> Prop :=
| TR_here : forall (pre : AST) v children post,
    TagReachable (pre ++ TagElement v children :: post)%list
| TR_select : forall (pre : AST) v options post selector branch,
    In (selector, branch) options ->
    TagReachable branch ->
    TagReachable (pre ++ SelectElement v options :: post)%list.

Arguments TagReachable _%_list.

Definition isLiteral (e : MessageFormatElement) : bool :=
  match e with LiteralElement _ => true | _ => false end.

(** The parser opens a tag only at [<] followed by an ASCII letter: the
    name of every tag of an AST it returns starts with a letter. *)
Definition isAlpha (c : ascii) : bool :=
  let n := nat_of_ascii c in
  (Nat.leb 65 n && Nat.leb n 90) || (Nat.leb 97 n && Nat.leb n 122).

Definition isTagName (value : string) : bool :=
  match value with
  | String c _ => isAlpha c
  | EmptyString => false
  end.

Fixpoint elementTagsNamed (element : MessageFormatElement) : bool :=
  match element with
  | TagElement value children =>
      isTagName value && forallb elementTagsNamed children
  | SelectElement _ options | PluralElement _ options =>
      forallb (fun o => forallb elementTagsNamed (snd o)) options
  | _ => true
  end.

Definition tagsNamed (ast : AST) : bool := forallb elementTagsNamed ast.

Definition parserNamesTags (parse : string -> result AST) : Prop :=
  forall message ast, parse message = Ok ast -> tagsNamed ast = true.

(** Every read [translatedLanguage[key]] of the loop over the languages
    finds a property of the language itself, whose message parses, or
    nothing at all. *)
Definition parsesKey (parse : string -> result AST)
    (loadedLanguages : JSObject.t TranslationsByKey) (key : string) : Prop :=
  forall tr, In tr (JSObject.values loadedLanguages) ->
    match JSObject.read tr key with
    | JSObject.Own d => exists ast, parse (data_message d) = Ok ast
    | JSObject.Inherited => False
    | JSObject.Undefined => True
    end.

Definition parsesAll (parse : string -> result AST)
    (loadedTranslation : LoadedTranslation) : Prop :=
  forall key, In key (keys loadedTranslation) ->
    parsesKey parse (languages loadedTranslation) key.

(** ** A file system in memory and sample data *)

Definition MemFS : Type := JSObject.t string.

#[export] Instance MemFS_FileSystem : FileSystem MemFS := {
  readFile f p :=
    match JSObject.get f p with
    | Some c => Ok c
    | None => Throw (MkError "ENOENT")
    end;
  writeFile f p c := Ok (JSObject.set f p c);
  existsSync f p :=
    match JSObject.get f p with Some _ => true | None => false end
}.

(** A file system on which every write is refused. *)
Record ReadOnlyFS : Type := { ro_files : JSObject.t string }.

#[export] Instance ReadOnlyFS_FileSystem : FileSystem ReadOnlyFS := {
  readFile f p :=
    match JSObject.get (ro_files f) p with
    | Some c => Ok c
    | None => Throw (MkError "ENOENT")
    end;
  writeFile f p c := Throw (MkError "EROFS");
  existsSync f p :=
    match JSObject.get (ro_files f) p with Some _ => true | None => false end
}.

Module Sample.

Definition pluralWithArgument : string :=
  "{count, plural, one {{name} has one item} other {{name} has # items}}".

Definition pluralWithTag : string :=
  "{n, plural, one {<b>one</b> item} other {<b>#</b> items}}".

Definition selectWithArgument : string :=
  "{kind, select, a {{name} one} other {{name} many}}".

(** Messages and the AST the parser returns for them. *)
Definition messages : list (string * AST) :=
  [ ("Hello", [LiteralElement "Hello"]);
    ("Bonjour", [LiteralElement "Bonjour"]);
    ("Hello {name}", [LiteralElement "Hello "; ArgumentElement "name"]);
    ("Hello {name, number}", [LiteralElement "Hello "; NumberElement "name"]);
    ("<b>Hi</b>", [TagElement "b" [LiteralElement "Hi"]]);
    ("Salut", [LiteralElement "Salut"]);
    ("It's", [LiteralElement "It's"]);
    (pluralWithArgument,
     [PluralElement "count"
        [("one", [ArgumentElement "name"; LiteralElement " has one item"]);
         ("other", [ArgumentElement "name"; LiteralElement " has ";
                    PoundElement; LiteralElement " items"])]]);
    (selectWithArgument,
     [SelectElement "kind"
        [("a", [ArgumentElement "name"; LiteralElement " one"]);
         ("other", [ArgumentElement "name"; LiteralElement " many"])]]);
    (pluralWithTag,
     [PluralElement "n"
        [("one", [TagElement "b" [LiteralElement "one"]; LiteralElement " item"]);
         ("other", [TagElement "b" [PoundElement]; LiteralElement " items"])]]) ].

Definition parse (s : string) : result AST :=
  match JSObject.get messages s with
  | Some ast => Ok ast
  | None => Throw (MkError "SyntaxError")
  end.

(** Stand-ins for the collaborators, enough to run the generator. *)
Definition stringifyMessages (t : TranslationsByKey) : string :=
  "{"
  ++ join ","
       (map (fun kv => "'" ++ fst kv ++ "':'" ++ data_message (snd kv) ++ "'") t)
  ++ "}".

Definition resolveConfig (p : string) : result unit := Ok tt.
Definition format (text : string) (config : unit) : result string := Ok text.
Definition getTSFileFromDevLanguageFile (p : string) : string := p ++ ".ts".

Definition msg (s : string) : TranslationData := {| data_message := s |}.

Definition hello : LoadedTranslation :=
  {| filePath := "/app/.vocab/translations.json";
     keys := ["hello"];
     languages := [("en", [("hello", msg "Hello")]);
                   ("fr", [("hello", msg "Bonjour")])] |}.

Definition greeting : LoadedTranslation :=
  {| filePath := "/app/.vocab/translations.json";
     keys := ["hello"];
     languages := [("en", [("hello", msg "Hello {name}")]);
                   ("fr", [("hello", msg "Hello {name, number}")])] |}.

Definition markup : LoadedTranslation :=
  {| filePath := "/app/.vocab/translations.json";
     keys := ["hello"];
     languages := [("en", [("hello", msg "<b>Hi</b>")]);
                   ("fr", [("hello", msg "Salut")])] |}.

Definition pluralMarkup : LoadedTranslation :=
  {| filePath := "/app/.vocab/translations.json";
     keys := ["items"];
     languages := [("en", [("items", msg pluralWithTag)])] |}.

Definition untranslated : LoadedTranslation :=
  {| filePath := "/app/.vocab/translations.json";
     keys := ["hello"; "orphan"];
     languages := [("en", [("hello", msg "Hello")]);
                   ("fr", [("hello", msg "Bonjour")])] |}.

(** A unit with an apostrophe in a message. *)
Definition apostrophe : LoadedTranslation :=
  {| filePath := "/app/.vocab/translations.json";
     keys := ["hello"];
     languages := [("en", [("hello", msg "It's")]);
                   ("fr", [("hello", msg "Salut")]);
                   ("de", [("hello", msg "It's")])] |}.

(** A unit whose key [constructor] is translated in one language only. *)
Definition constructorKey : LoadedTranslation :=
  {| filePath := "/app/.vocab/translations.json";
     keys := ["constructor"];
     languages := [("en", [("constructor", msg "Hello")]);
                   ("fr", [])] |}.

(** A unit whose keys look like numbers. *)
Definition numbered : LoadedTranslation :=
  {| filePath := "/app/.vocab/translations.json";
     keys := ["b"; "10"; "9"; "01"];
     languages := [("en", [("b", msg "Hello"); ("10", msg "Salut");
                           ("9", msg "Bonjour"); ("01", msg "It's")])] |}.

(** A unit whose second key has a message the parser refuses. *)
Definition broken : LoadedTranslation :=
  {| filePath := "/app/.vocab/translations.json";
     keys := ["hello"; "bye"];
     languages := [("en", [("hello", msg "Hello"); ("bye", msg "Bye {")]);
                   ("fr", [("hello", msg "Bonjour")])] |}.

(** A second unit, generated next to [hello]. *)
Definition other : LoadedTranslation :=
  {| filePath := "/app/other/.vocab/translations.json";
     keys := ["hello"];
     languages := [("en", [("hello", msg "<b>Hi</b>")]);
                   ("fr", [("hello", msg "Salut")])] |}.

Definition generate {F : Type} `{FileSystem F} : LoadedTranslation -> Eff.t F unit :=
  generateRuntime parse stringifyMessages unit resolveConfig format
    getTSFileFromDevLanguageFile.

(** prettier with the TypeScript parser throws on a text that is not
    TypeScript.  This stand-in knows one such text: a function type whose
    arrow is followed by a comma, that is, by no return type. *)
Definition strictFormat (text : string) (config : unit) : result string :=
  match String.index 0 "=> ," text with
  | Some _ => Throw (MkError "SyntaxError")
  | None => Ok text
  end.

Definition strictGenerate {F : Type} `{FileSystem F}
  : LoadedTranslation -> Eff.t F unit :=
  generateRuntime parse stringifyMessages unit resolveConfig strictFormat
    getTSFileFromDevLanguageFile.

(** Watcher collaborators: [translations.json] is the authoring file,
    [*.translations.json] a derived one, [.vocab] the directory. *)
Definition cwd : string := "/app".
Definition isDevLanguageFile (p : string) : bool :=
  String.eqb p ".vocab/translations.json".
Definition isAltLanguageFile (p : string) : bool :=
  String.eqb p ".vocab/fr.translations.json".
Definition getDevLanguageFileFromAltLanguageFile (p : string) : string :=
  "/app/.vocab/translations.json".
Definition isTranslationDirectory (p : string) : bool := String.eqb p ".vocab".
Definition devTranslationFileName : string := "translations.json".
Definition pathResolve (a b : string) : string := a ++ "/" ++ b.
Definition pathJoin (a b : string) : string := a ++ "/" ++ b.

Definition loadTranslation {F : Type} (f : F) (target : string)
  : result LoadedTranslation :=
  if String.eqb target "/app/.vocab/translations.json" then Ok hello
  else Throw (MkError "load failed").

Definition brokenLoad {F : Type} (f : F) (target : string)
  : result LoadedTranslation := Throw (MkError "load failed").

Definition emptyWorld : World MemFS := {| files := JSObject.empty; journal := [] |}.

(** A world whose generated file is already what [hello] generates. *)
Definition upToDate : World MemFS :=
  {| files := files (snd (generate hello emptyWorld)); journal := [] |}.

Definition readOnlyWorld : World ReadOnlyFS :=
  {| files := {| ro_files := JSObject.empty |}; journal := [] |}.

(** The project: two units; the watcher stand-in returns at once. *)
Definition loadAllTranslations {F : Type} (f : F) : result (list LoadedTranslation) :=
  Ok [hello; other].

Definition brokenProject {F : Type} (f : F) : result (list LoadedTranslation) :=
  Ok [hello; broken; other].

Definition watch {F : Type} : Eff.t F unit := Eff.ret tt.

End Sample.

(** The entry a name ends up with when it may have been written twice:
    the later write if there was one, the earlier one otherwise. *)
Definition laterWins {A : Type} (later earlier : option A) : option A :=
  match later with
  | Some v => Some v
  | None => earlier
  end.

Definition paramsOf (ast : AST) : ICUParams := fst (extractParamTypes ast).
Definition importsOf (ast : AST) : JSSet.t := snd (extractParamTypes ast).

Arguments extractParamTypes ast%_list.
Arguments paramsOf ast%_list.
Arguments importsOf ast%_list.
Arguments extractHasTags ast%_list.

(** The state [extractParamTypes] starts from. *)
Definition initialParamState : ICUParams * JSSet.t := (JSObject.empty, JSSet.empty).

(** The object has no property called [__proto__] of its own. *)
Definition noProto {A : Type} (o : JSObject.t A) : Prop :=
  JSObject.get o "__proto__" = None.

(** What holds of every object the code builds by assignment and
    spreading. *)
Definition tidy {A : Type} (o : JSObject.t A) : Prop :=
  JSObject.wf o /\ noProto o.

(** [st] is [st'] laid over the entries [g]: every lookup in [st] finds
    the entry of [st'] if there is one and the entry of [g] otherwise. *)
Definition above (g : string -> option string) (st st' : ICUParams * JSSet.t)
  : Prop :=
  tidy (fst st) /\ tidy (fst st')
  /\ forall k,
      JSObject.get (fst st) k = laterWins (JSObject.get (fst st') k) (g k).

(** The entry a placeholder writes under its own name: none when the
    name is [__proto__]. *)
Definition ownEntry (value ty name : string) : option string :=
  if String.eqb value name && negb (String.eqb value "__proto__")
  then Some ty else None.

(** The loop over the options of a select element. *)
Definition mergeOptions (options : list (string * AST)) (st : ICUParams * JSSet.t)
  : ICUParams * JSSet.t :=
  fold_left (fun acc o => mergeSub acc (extractParamTypes (snd o))) options st.

(** The messages of [key] that the loop over languages meets, in order,
    each with its AST. *)
Definition observed (parse : string -> result AST) (key : string)
    (translations : list TranslationsByKey) : list (string * AST) :=
  flat_map
    (fun tr =>
       match JSObject.get tr key with
       | Some d =>
           match parse (data_message d) with
           | Ok ast => [(data_message d, ast)]
           | Throw _ => []
           end
       | None => []
       end)
    translations.

(** What one parsed message does to the state of the loop over languages. *)
Definition observe (s : KeyState) (m : string * AST) : KeyState :=
  {| ks_params := JSObject.spread (ks_params s) (paramsOf (snd m));
     ks_messages := JSSet.add (ks_messages s) (embedMessage (fst m));
     ks_hasTags := ks_hasTags s || extractHasTags (snd m);
     ks_imports :=
       JSSet.of_list (JSSet.to_list (ks_imports s)
                      ++ JSSet.to_list (importsOf (snd m)))%list |}.

Definition initialKeyState (imports : JSSet.t) : KeyState :=
  {| ks_params := JSObject.empty; ks_messages := JSSet.empty;
     ks_hasTags := false; ks_imports := imports |}.

(** The type information of [key] once every language has been seen. *)
Definition keyInfo (parse : string -> result AST)
    (loadedLanguages : JSObject.t TranslationsByKey) (key : string)
  : TranslationTypeInfo :=
  typeInfoOf
    (fold_left observe (observed parse key (JSObject.values loadedLanguages))
       (initialKeyState JSSet.empty)).

(** ** The compile entry point *)

Section Compile.

Context {F : Type} `{FileSystem F}.

(** [loadAllTranslations({ fallbacks: 'all', includeNodeModules: false },
    config)] of ./load-translations. *)
Variable loadAllTranslations : F -> result (list LoadedTranslation).

(** [generateRuntime] with its collaborators fixed. *)
Variable generate : LoadedTranslation -> Eff.t F unit.

(** [watch(config)]: it starts the watcher and returns the function that
    closes it. *)
Variable Disposer : Type.
Variable watch : Eff.t F Disposer.

Definition loadAllTranslationsM : Eff.t F (list LoadedTranslation) :=
  fun w => (loadAllTranslations (files w), w).

(** [for (const loadedTranslation of translations)
      await generateRuntime(loadedTranslation)] *)
Fixpoint generateAll (translations : list LoadedTranslation) : Eff.t F unit :=
  match translations with
  | [] => Eff.ret tt
  | loadedTranslation :: rest => generate loadedTranslation ;;; generateAll rest
  end.

(** [compile({ watch: shouldWatch = false } = {}, config)]; [None] is
    [undefined]. *)
Definition compile (shouldWatch : bool) : Eff.t F (option Disposer) :=
  translations <- loadAllTranslationsM ;;
  generateAll translations ;;;
  if shouldWatch then (disposer <- watch ;; Eff.ret (Some disposer))
  else Eff.ret None.

End Compile.

(** A write leaves every other path as it was. *)
Class FramedFileSystem (F : Type) `{FileSystem F} : Prop := {
  read_other_after_write : forall f p c f' p',
    writeFile f p c = Ok f' -> p' <> p -> readFile f' p' = readFile f p'
}.

(** The text of one key in the serialised accessor-type object. *)
Definition accessorEntry (entry : string * TranslationTypeInfo) : string :=
  embedKey (fst entry) ++ ": " ++ translationFunctionString (snd entry) ++ ",".

(** The import set of an AST or of a unit: the one import, or nothing. *)
Definition importsIf (b : bool) : JSSet.t :=
  if b then [formatXMLElementFnImport] else [].

(** * Properties *)

(** ** Objects and sets *)

Module JSObjectFacts.
Import JSObject.

Section Facts.
Context {A : Type}.
Implicit Types (o a b : t A) (k : string) (v : A).

Lemma get_set o k v k' :
  get (set o k v) k' = if String.eqb k k' then Some v else get o k'.
Proof.
  induction o as [|[k0 v0] o IH]; simpl.
  - reflexivity.
  - destruct (String.eqb k0 k) eqn:E0; simpl.
    + apply String.eqb_eq in E0; subst k0.
      destruct (String.eqb k k'); reflexivity.
    + rewrite IH. destruct (String.eqb k0 k') eqn:E1; [|reflexivity].
      apply String.eqb_eq in E1; subst k0.
      rewrite String.eqb_sym, E0. reflexivity.
Qed.

Lemma get_set_same o k v : get (set o k v) k = Some v.
Proof. rewrite get_set, String.eqb_refl. reflexivity. Qed.

Lemma get_set_other o k v k' : k <> k' -> get (set o k v) k' = get o k'.
Proof.
  intros Hne. rewrite get_set.
  destruct (String.eqb_spec k k'); [contradiction|reflexivity].
Qed.

Lemma get_None o k : get o k = None <-> ~ In k (keys o).
Proof.
  induction o as [|[k0 v0] o IH]; simpl.
  - tauto.
  - destruct (String.eqb_spec k0 k).
    + split; [discriminate|]. intros Hn; exfalso; apply Hn; auto.
    + rewrite IH. tauto.
Qed.

Lemma In_keys o k : In k (keys o) <-> get o k <> None.
Proof.
  split.
  - intros Hin Hnone. apply get_None in Hnone. contradiction.
  - intros Hne. destruct (in_dec string_dec k (keys o)) as [Hin|Hnin];
      [exact Hin|]. apply get_None in Hnin. contradiction.
Qed.

Lemma keys_set o k v k' : In k' (keys (set o k v)) <-> k' = k \/ In k' (keys o).
Proof.
  induction o as [|[k0 v0] o IH]; simpl.
  - intuition congruence.
  - destruct (String.eqb_spec k0 k); simpl.
    + subst. intuition congruence.
    + rewrite IH. intuition congruence.
Qed.

Lemma wf_empty : wf (@empty A).
Proof. constructor. Qed.

Lemma wf_set o k v : wf o -> wf (set o k v).
Proof.
  unfold wf. induction o as [|[k0 v0] o IH]; simpl; intros Hwf.
  - constructor; [simpl; tauto|constructor].
  - inversion Hwf as [|? ? Hnin Hnd]; subst.
    destruct (String.eqb_spec k0 k); simpl.
    + constructor; assumption.
    + constructor; [|auto].
      intros Hin. apply (keys_set o k v k0) in Hin.
      destruct Hin; [congruence|contradiction].
Qed.

(** *** Properties of a plain object *)

Lemma keys_update o k v : keys (update o k v) = keys o.
Proof.
  induction o as [|[k0 v0] o IH]; cbn [update keys map fst]; [reflexivity|].
  destruct (String.eqb k0 k); cbn [map fst]; [reflexivity|].
  f_equal. exact IH.
Qed.

Lemma get_update o k v k' :
  get o k <> None ->
  get (update o k v) k' = if String.eqb k k' then Some v else get o k'.
Proof.
  induction o as [|[k0 v0] o IH]; cbn [get update]; intros Hk.
  - contradiction.
  - destruct (String.eqb_spec k0 k) as [->|Hne]; cbn [get].
    + destruct (String.eqb k k'); reflexivity.
    + rewrite (IH Hk). destruct (String.eqb_spec k0 k') as [->|_]; [|reflexivity].
      destruct (String.eqb_spec k k'); [congruence|reflexivity].
Qed.

Lemma get_place o k v k' :
  get o k = None ->
  get (place o k v) k' = if String.eqb k k' then Some v else get o k'.
Proof.
  induction o as [|[k0 v0] o IH]; cbn [get place]; intros Hk.
  - reflexivity.
  - destruct (String.eqb_spec k0 k) as [->|Hne]; [discriminate|].
    destruct (precedes k k0); cbn [get]; [reflexivity|].
    rewrite (IH Hk). destruct (String.eqb_spec k0 k') as [->|_]; [|reflexivity].
    destruct (String.eqb_spec k k'); [congruence|reflexivity].
Qed.

Lemma keys_place o k v k' :
  In k' (keys (place o k v)) <-> k' = k \/ In k' (keys o).
Proof.
  induction o as [|[k0 v0] o IH]; cbn [place keys map fst].
  - simpl. intuition congruence.
  - destruct (precedes k k0); cbn [map fst In].
    + intuition congruence.
    + fold (keys (place o k v)). fold (keys o). rewrite IH. intuition congruence.
Qed.

Lemma wf_place o k v : wf o -> ~ In k (keys o) -> wf (place o k v).
Proof.
  unfold wf. induction o as [|[k0 v0] o IH]; cbn [place keys map fst];
    intros Hwf Hnin.
  - constructor; [simpl; tauto|constructor].
  - destruct (precedes k k0); cbn [map fst].
    + constructor; assumption.
    + inversion Hwf as [|? ? Hk0 Hnd]; subst. constructor.
      * fold (keys (place o k v)). rewrite keys_place. intros [E|Hin].
        -- apply Hnin. left. exact E.
        -- contradiction.
      * apply IH; [exact Hnd|]. intros Hin. apply Hnin. right. exact Hin.
Qed.

(** A property that is defined is there with its value, and the others
    are as before. *)
Lemma get_define o k v k' :
  get (define o k v) k' = if String.eqb k k' then Some v else get o k'.
Proof.
  unfold define. destruct (get o k) as [v0|] eqn:Hk.
  - apply get_update. rewrite Hk. discriminate.
  - apply get_place, Hk.
Qed.

Lemma wf_define o k v : wf o -> wf (define o k v).
Proof.
  intros Hwf. unfold define. destruct (get o k) as [v0|] eqn:Hk.
  - unfold wf. rewrite keys_update. exact Hwf.
  - apply wf_place; [exact Hwf|]. apply get_None, Hk.
Qed.

(** An assignment to [__proto__] leaves the object as it is; an
    assignment to another name defines it. *)
Lemma assign_proto o v : get o "__proto__" = None -> assign o "__proto__" v = o.
Proof. intros Hnone. unfold assign. rewrite Hnone. reflexivity. Qed.

Lemma assign_define o k v : k <> "__proto__" -> assign o k v = define o k v.
Proof.
  intros Hne. unfold assign, define. destruct (get o k); [reflexivity|].
  destruct (String.eqb_spec k "__proto__"); [contradiction|reflexivity].
Qed.

Lemma get_assign o k v k' :
  get o "__proto__" = None ->
  get (assign o k v) k'
  = if String.eqb k k' && negb (String.eqb k "__proto__") then Some v
    else get o k'.
Proof.
  intros Hnone. destruct (String.eqb_spec k "__proto__") as [->|Hne].
  - rewrite assign_proto by exact Hnone. rewrite andb_false_r. reflexivity.
  - rewrite assign_define by exact Hne. rewrite andb_true_r. apply get_define.
Qed.

Lemma wf_assign o k v : wf o -> wf (assign o k v).
Proof.
  intros Hwf. unfold assign. destruct (get o k) as [v0|] eqn:Hk.
  - unfold wf. rewrite keys_update. exact Hwf.
  - destruct (String.eqb k "__proto__"); [exact Hwf|].
    apply wf_place; [exact Hwf|]. apply get_None, Hk.
Qed.

Lemma wf_fold_define (l : list (string * A)) acc :
  wf acc -> wf (fold_left (fun acc kv => define acc (fst kv) (snd kv)) l acc).
Proof.
  revert acc. induction l as [|[k v] l IH]; simpl; intros acc Hacc;
    auto using wf_define.
Qed.

Lemma get_fold_define (l : t A) acc k :
  wf l ->
  get (fold_left (fun acc kv => define acc (fst kv) (snd kv)) l acc) k
  = match get l k with Some v => Some v | None => get acc k end.
Proof.
  unfold wf. revert acc.
  induction l as [|[k0 v0] l IH]; simpl; intros acc Hwf.
  - reflexivity.
  - inversion Hwf as [|? ? Hnin Hnd]; subst.
    rewrite IH by assumption. rewrite get_define.
    destruct (String.eqb_spec k0 k).
    + subst. apply get_None in Hnin. rewrite Hnin. reflexivity.
    + reflexivity.
Qed.

Lemma wf_spread a b : wf (spread a b).
Proof. unfold spread. apply wf_fold_define, wf_empty. Qed.

(** [{ ...a, ...b }[k]] is [b[k]] when [b] has [k], [a[k]] otherwise. *)
Lemma get_spread a b k :
  wf a -> wf b ->
  get (spread a b) k = match get b k with Some v => Some v | None => get a k end.
Proof.
  intros Ha Hb. unfold spread, entries. rewrite fold_left_app.
  rewrite get_fold_define by exact Hb.
  destruct (get b k); [reflexivity|].
  rewrite get_fold_define by exact Ha.
  destruct (get a k); reflexivity.
Qed.

(** *** Enumeration order *)

Lemma precedes_asym k k' : precedes k k' = true -> precedes k' k = false.
Proof.
  unfold precedes.
  destruct (arrayIndex k) as [n|], (arrayIndex k') as [n'|]; try discriminate;
    try reflexivity.
  rewrite !N.ltb_lt, N.ltb_ge. lia.
Qed.

Lemma ordered_place o k v :
  ordered (keys o) = true -> ordered (keys (place o k v)) = true.
Proof.
  induction o as [|[k0 v0] o IH]; [reflexivity|].
  cbn [place keys map fst]. fold (keys o). intros Hord.
  destruct (precedes k k0) eqn:Hk0.
  - cbn [keys map fst ordered]. fold (keys o).
    rewrite (precedes_asym _ _ Hk0). cbn [negb andb]. exact Hord.
  - cbn [map fst]. fold (keys (place o k v)).
    assert (Htail : ordered (keys o) = true).
    { cbn [ordered] in Hord. destruct (keys o); [reflexivity|].
      apply andb_prop in Hord. apply Hord. }
    specialize (IH Htail).
    destruct o as [|[k1 v1] o']; cbn [place keys map fst ordered].
    + rewrite Hk0. reflexivity.
    + cbn [place keys map fst] in IH. cbn [keys map fst ordered] in Hord.
      apply andb_prop in Hord. destruct Hord as [H01 _].
      destruct (precedes k k1); cbn [map fst].
      * rewrite Hk0. cbn [negb andb]. exact IH.
      * rewrite H01. cbn [andb]. exact IH.
Qed.

Lemma ordered_define o k v :
  ordered (keys o) = true -> ordered (keys (define o k v)) = true.
Proof.
  intros Hord. unfold define. destruct (get o k).
  - rewrite keys_update. exact Hord.
  - apply ordered_place, Hord.
Qed.

Lemma ordered_assign o k v :
  ordered (keys o) = true -> ordered (keys (assign o k v)) = true.
Proof.
  intros Hord. unfold assign. destruct (get o k).
  - rewrite keys_update. exact Hord.
  - destruct (String.eqb k "__proto__"); [exact Hord|apply ordered_place, Hord].
Qed.

Lemma ordered_fold_define (l : list (string * A)) acc :
  ordered (keys acc) = true ->
  ordered (keys (fold_left (fun acc kv => define acc (fst kv) (snd kv)) l acc))
  = true.
Proof.
  revert acc. induction l as [|[k v] l IH]; simpl; intros acc Hacc;
    auto using ordered_define.
Qed.

Lemma ordered_spread a b : ordered (keys (spread a b)) = true.
Proof. unfold spread. apply ordered_fold_define. reflexivity. Qed.

(** *** Reading through the prototype *)

Lemma read_own o k v : get o k = Some v -> read o k = Own v.
Proof. intros Hget. unfold read. rewrite Hget. reflexivity. Qed.

Lemma read_Own_inv o k v : read o k = Own v -> get o k = Some v.
Proof.
  unfold read. destruct (get o k) as [v0|]; [intros E; inversion E; reflexivity|].
  destruct (inherits k); discriminate.
Qed.

Lemma read_Undefined_inv o k : read o k = Undefined -> get o k = None.
Proof.
  unfold read. destruct (get o k) as [v0|]; [discriminate|reflexivity].
Qed.

End Facts.

(** What the order says: whatever stands before an array index is an
    array index that is not larger. *)
Lemma ordered_head k rest k' n' :
  ordered (k :: rest) = true -> In k' rest -> arrayIndex k' = Some n' ->
  exists n, arrayIndex k = Some n /\ (n <= n')%N.
Proof.
  revert k k' n'. induction rest as [|k1 rest IH]; intros k k' n' Hord Hin Hk';
    [contradiction|].
  cbn [ordered] in Hord. apply andb_prop in Hord. destruct Hord as [Hadj Hrest].
  assert (Hnext : forall n1, arrayIndex k1 = Some n1 ->
                             exists n, arrayIndex k = Some n /\ (n <= n1)%N).
  { intros n1 Hk1. apply negb_true_iff in Hadj. unfold precedes in Hadj.
    rewrite Hk1 in Hadj. destruct (arrayIndex k) as [n|]; [|discriminate].
    exists n. split; [reflexivity|]. apply N.ltb_ge, Hadj. }
  destruct Hin as [->|Hin]; [apply Hnext, Hk'|].
  destruct (IH k1 k' n' Hrest Hin Hk') as (n1 & Hk1 & Hle).
  destruct (Hnext n1 Hk1) as (n & Hk & Hle').
  exists n. split; [exact Hk|]. lia.
Qed.

Lemma ordered_suffix pre ks : ordered (pre ++ ks)%list = true -> ordered ks = true.
Proof.
  induction pre as [|k pre IH]; [trivial|].
  cbn [app]. intros Hord. apply IH.
  cbn [ordered] in Hord. destruct (pre ++ ks)%list; [reflexivity|].
  apply andb_prop in Hord. apply Hord.
Qed.

Lemma ordered_before ks pre k mid k' post n' :
  ordered ks = true -> ks = (pre ++ k :: mid ++ k' :: post)%list ->
  arrayIndex k' = Some n' ->
  exists n, arrayIndex k = Some n /\ (n <= n')%N.
Proof.
  intros Hord -> Hk'. apply ordered_suffix in Hord.
  apply (ordered_head k (mid ++ k' :: post)%list k' n' Hord); [|exact Hk'].
  apply in_elt.
Qed.

End JSObjectFacts.

Module JSSetFacts.
Import JSSet.

Lemma has_In s x : has s x = true <-> In x s.
Proof.
  unfold has. rewrite existsb_exists. split.
  - intros (y & Hin & E). apply String.eqb_eq in E. subst. assumption.
  - intros Hin. exists x. split; [assumption|apply String.eqb_refl].
Qed.

Lemma In_add s x y : In y (add s x) <-> y = x \/ In y s.
Proof.
  unfold add. destruct (has s x) eqn:E.
  - apply has_In in E. intuition congruence.
  - rewrite in_app_iff. simpl. intuition congruence.
Qed.

Lemma In_fold_add xs s y : In y (fold_left add xs s) <-> In y xs \/ In y s.
Proof.
  revert s. induction xs as [|x xs IH]; simpl; intros s.
  - tauto.
  - rewrite IH, In_add. intuition congruence.
Qed.

Lemma In_of_list xs y : In y (of_list xs) <-> In y xs.
Proof. unfold of_list. rewrite In_fold_add. simpl. tauto. Qed.

Lemma NoDup_add s x : NoDup s -> NoDup (add s x).
Proof.
  unfold add. intros Hnd. destruct (has s x) eqn:E; [assumption|].
  assert (Hnin : ~ In x s).
  { intros Hin. apply has_In in Hin. congruence. }
  clear E. induction Hnd as [|y s Hy Hnd IH]; simpl.
  - constructor; [simpl; tauto|constructor].
  - constructor.
    + rewrite in_app_iff. simpl. intros [H|[H|[]]]; [contradiction|].
      subst. apply Hnin. simpl. auto.
    + apply IH. intros H. apply Hnin. simpl. auto.
Qed.

End JSSetFacts.

(** ** The inferencer *)

Section Inferencer.
Import JSObject JSObjectFacts JSSetFacts.

Lemma laterWins_assoc {A : Type} (x y z : option A) :
  laterWins x (laterWins y z) = laterWins (laterWins x y) z.
Proof. destruct x; reflexivity. Qed.

Lemma laterWins_None_r {A : Type} (x : option A) : laterWins x None = x.
Proof. destruct x; reflexivity. Qed.

Lemma step_select_unfold st value options :
  paramTypesStep st (SelectElement value options) =
  mergeOptions options
    (assign (fst st) value (join " | " (map quoted (map fst options))), snd st).
Proof. reflexivity. Qed.

Lemma step_tag_unfold st value children :
  paramTypesStep st (TagElement value children) =
  mergeSub (assign (fst st) value "FormatXMLElementFn<T>",
            JSSet.add (snd st) formatXMLElementFnImport)
    (extractParamTypes children).
Proof. reflexivity. Qed.

Lemma extractParamTypes_app (a b : AST) :
  extractParamTypes (a ++ b) = fold_left paramTypesStep b (extractParamTypes a).
Proof. unfold extractParamTypes. apply fold_left_app. Qed.

(** *** The parameter object: no name twice, no [__proto__] *)

Lemma tidy_empty {A : Type} : tidy (@empty A).
Proof. split; [apply wf_empty|reflexivity]. Qed.

Lemma noProto_assign {A : Type} (o : t A) k v : noProto o -> noProto (assign o k v).
Proof.
  intros Ho. unfold noProto. rewrite get_assign by exact Ho.
  destruct (String.eqb_spec k "__proto__") as [->|Hne].
  - rewrite andb_false_r. exact Ho.
  - destruct (String.eqb_spec k "__proto__"); [contradiction|exact Ho].
Qed.

Lemma tidy_assign {A : Type} (o : t A) k v : tidy o -> tidy (assign o k v).
Proof. intros [Hwf Ho]. split; [apply wf_assign, Hwf|apply noProto_assign, Ho]. Qed.

Lemma tidy_spread {A : Type} (a b : t A) : tidy a -> tidy b -> tidy (spread a b).
Proof.
  intros [Hwa Ha] [Hwb Hb]. split; [apply wf_spread|].
  unfold noProto. rewrite get_spread by assumption. rewrite Hb. exact Ha.
Qed.

Lemma tidy_mergeOptions options st :
  (forall o, In o options -> tidy (paramsOf (snd o))) ->
  tidy (fst st) -> tidy (fst (mergeOptions options st)).
Proof.
  unfold mergeOptions. revert st.
  induction options as [|o os IH]; cbn [fold_left]; intros st Hsub Hst.
  - exact Hst.
  - apply IH; [intros o' Hin; apply Hsub; right; exact Hin|].
    unfold mergeSub. cbn [fst]. apply tidy_spread; [exact Hst|].
    apply (Hsub o). left. reflexivity.
Qed.

Lemma fold_step_tidy (ast : AST) st :
  tidy (fst st) -> tidy (fst (fold_left paramTypesStep ast st)).
Proof.
  revert st.
  assert (Hlist : forall a : AST,
             Forall (fun e => forall st, tidy (fst st) ->
                                         tidy (fst (paramTypesStep st e))) a ->
             forall st, tidy (fst st) ->
                        tidy (fst (fold_left paramTypesStep a st))).
  { induction a as [|e a IH]; intros Hall st Hst; cbn [fold_left]; [exact Hst|].
    inversion Hall as [|? ? He Ha]; subst. apply (IH Ha), He, Hst. }
  apply Hlist.
  apply ast_ind'; try (intros; cbn [paramTypesStep fst];
                       solve [assumption | apply tidy_assign; assumption]).
  - intros v options IH st Hst. rewrite step_select_unfold.
    apply tidy_mergeOptions.
    + intros o Hin. rewrite Forall_forall in IH.
      apply (Hlist (snd o) (IH o Hin) (empty, JSSet.empty)), tidy_empty.
    + cbn [fst]. apply tidy_assign, Hst.
  - intros v children IH st Hst. rewrite step_tag_unfold.
    unfold mergeSub. cbn [fst]. apply tidy_spread.
    + apply tidy_assign, Hst.
    + apply (Hlist children IH (empty, JSSet.empty)), tidy_empty.
Qed.

Lemma paramsOf_tidy ast : tidy (paramsOf ast).
Proof. apply fold_step_tidy, tidy_empty. Qed.

Lemma paramsOf_wf ast : wf (paramsOf ast).
Proof. apply paramsOf_tidy. Qed.

Lemma paramsOf_noProto ast : noProto (paramsOf ast).
Proof. apply paramsOf_tidy. Qed.

(** *** A step only adds later writes on top of the state *)

Lemma get_mergeSub st sub_ast k :
  wf (fst st) ->
  get (fst (mergeSub st (extractParamTypes sub_ast))) k =
  laterWins (get (paramsOf sub_ast) k) (get (fst st) k).
Proof.
  intros Hst. unfold mergeSub; cbn [fst].
  rewrite get_spread; [reflexivity|exact Hst|apply paramsOf_wf].
Qed.

Lemma get_assign_ownEntry (o : ICUParams) value ty name :
  noProto o ->
  get (assign o value ty) name = laterWins (ownEntry value ty name) (get o name).
Proof.
  intros Ho. rewrite get_assign by exact Ho. unfold ownEntry.
  destruct (String.eqb value name && negb (String.eqb value "__proto__"));
    reflexivity.
Qed.

Section Relative.
(** Two states that agree up to entries [g] lying below the second. *)
Variable g : string -> option string.

Lemma above_assign st st' i v name ty :
  above g st st' ->
  above g (assign (fst st) name ty, i) (assign (fst st') name ty, v).
Proof.
  intros (Hp & Hp' & Hab).
  split; [apply tidy_assign, Hp|]. split; [apply tidy_assign, Hp'|].
  intros k. cbn [fst].
  rewrite !get_assign_ownEntry by (apply Hp || apply Hp').
  rewrite Hab. apply laterWins_assoc.
Qed.

Lemma above_mergeSub st st' sub_ast :
  above g st st' ->
  above g (mergeSub st (extractParamTypes sub_ast))
        (mergeSub st' (extractParamTypes sub_ast)).
Proof.
  intros (Hp & Hp' & Hab).
  split; [|split].
  - unfold mergeSub. cbn [fst]. apply tidy_spread; [exact Hp|apply paramsOf_tidy].
  - unfold mergeSub. cbn [fst]. apply tidy_spread; [exact Hp'|apply paramsOf_tidy].
  - intros k. rewrite !get_mergeSub by (apply Hp || apply Hp').
    rewrite Hab. apply laterWins_assoc.
Qed.

Lemma above_mergeOptions options st st' :
  above g st st' -> above g (mergeOptions options st) (mergeOptions options st').
Proof.
  unfold mergeOptions. revert st st'.
  induction options as [|o os IH]; cbn [fold_left]; intros st st' Hab; auto.
  apply IH, above_mergeSub, Hab.
Qed.

Lemma above_step element st st' :
  above g st st' -> above g (paramTypesStep st element) (paramTypesStep st' element).
Proof.
  intros Hab. destruct element;
    try (cbn [paramTypesStep]; solve [assumption | apply above_assign, Hab]).
  - rewrite !step_select_unfold. apply above_mergeOptions, above_assign, Hab.
  - rewrite !step_tag_unfold. apply above_mergeSub, above_assign, Hab.
Qed.

Lemma above_fold (ast : AST) st st' :
  above g st st' ->
  above g (fold_left paramTypesStep ast st) (fold_left paramTypesStep ast st').
Proof.
  revert st st'. induction ast as [|e ast IH]; cbn [fold_left]; intros; auto.
  apply IH, above_step. assumption.
Qed.

End Relative.

Lemma above_initial st :
  tidy (fst st) -> above (get (fst st)) st initialParamState.
Proof.
  intros Hst. split; [exact Hst|]. split; [apply tidy_empty|].
  intros k. reflexivity.
Qed.

Lemma get_fold_step ast st k :
  tidy (fst st) ->
  get (fst (fold_left paramTypesStep ast st)) k =
  laterWins (get (paramsOf ast) k) (get (fst st) k).
Proof.
  intros Hst.
  apply (above_fold (get (fst st)) ast st initialParamState), above_initial, Hst.
Qed.

Lemma get_paramsOf_app a b k :
  get (paramsOf (a ++ b)) k = laterWins (get (paramsOf b) k) (get (paramsOf a) k).
Proof.
  unfold paramsOf at 1. rewrite extractParamTypes_app.
  apply get_fold_step, paramsOf_tidy.
Qed.

Lemma get_mergeOptions options st k :
  wf (fst st) ->
  get (fst (mergeOptions options st)) k =
  laterWins (get (paramsOf (List.concat (map snd options))) k) (get (fst st) k).
Proof.
  unfold mergeOptions. revert st.
  induction options as [|o os IH]; cbn [fold_left map List.concat]; intros st Hst.
  - reflexivity.
  - rewrite IH by (unfold mergeSub; cbn [fst]; apply wf_spread).
    rewrite get_mergeSub by exact Hst.
    rewrite get_paramsOf_app. apply laterWins_assoc.
Qed.

Lemma get_paramsOf_concat_None (branches : list AST) k :
  (forall b, In b branches -> get (paramsOf b) k = None) ->
  get (paramsOf (List.concat branches)) k = None.
Proof.
  induction branches as [|b bs IH]; cbn [List.concat]; intros Hall.
  - reflexivity.
  - rewrite get_paramsOf_app, IH, (Hall b); simpl; auto.
    intros b' Hb'. apply Hall. simpl. auto.
Qed.

Lemma get_paramsOf_tag v children name :
  get (paramsOf [TagElement v children]) name
  = laterWins (get (paramsOf children) name)
      (ownEntry v "FormatXMLElementFn<T>" name).
Proof.
  unfold paramsOf at 1, extractParamTypes. cbn [fold_left].
  rewrite step_tag_unfold, get_mergeSub by (cbn [fst]; apply wf_assign, wf_empty).
  cbn [fst]. rewrite get_assign_ownEntry by reflexivity.
  change (get empty name) with (@None string).
  rewrite laterWins_None_r. reflexivity.
Qed.

Lemma get_paramsOf_select v options name :
  get (paramsOf [SelectElement v options]) name
  = laterWins (get (paramsOf (List.concat (map snd options))) name)
      (ownEntry v (join " | " (map quoted (map fst options))) name).
Proof.
  unfold paramsOf at 1, extractParamTypes. cbn [fold_left].
  rewrite step_select_unfold, get_mergeOptions
    by (cbn [fst]; apply wf_assign, wf_empty).
  cbn [fst]. rewrite get_assign_ownEntry by reflexivity.
  change (get empty name) with (@None string).
  rewrite laterWins_None_r. reflexivity.
Qed.

(** *** Imports only grow *)

Lemma In_mergeSub_imports st sub x :
  In x (snd (mergeSub st sub)) <-> In x (snd st) \/ In x (snd sub).
Proof.
  unfold mergeSub, JSSet.to_list; cbn [snd].
  rewrite In_of_list, in_app_iff. reflexivity.
Qed.

Lemma mergeOptions_imports_mono options st x :
  In x (snd st) -> In x (snd (mergeOptions options st)).
Proof.
  unfold mergeOptions. revert st.
  induction options as [|o os IH]; cbn [fold_left]; intros st Hin; auto.
  apply IH, In_mergeSub_imports. auto.
Qed.

Lemma step_imports_mono element st x :
  In x (snd st) -> In x (snd (paramTypesStep st element)).
Proof.
  intros Hin. destruct element; try (cbn [paramTypesStep snd]; assumption).
  - rewrite step_select_unfold. apply mergeOptions_imports_mono. assumption.
  - rewrite step_tag_unfold. apply In_mergeSub_imports. left.
    cbn [snd]. apply In_add. auto.
Qed.

Lemma fold_step_imports_mono (ast : AST) st x :
  In x (snd st) -> In x (snd (fold_left paramTypesStep ast st)).
Proof.
  revert st. induction ast as [|e ast IH]; cbn [fold_left]; intros st Hin; auto.
  apply IH, step_imports_mono, Hin.
Qed.

Lemma tag_adds_import st value children :
  In formatXMLElementFnImport (snd (paramTypesStep st (TagElement value children))).
Proof.
  rewrite step_tag_unfold. apply In_mergeSub_imports. left.
  cbn [snd]. apply In_add. auto.
Qed.

End Inferencer.

Section InferencerByKind.
Import JSObject JSObjectFacts JSSetFacts.

Lemma ownEntry_same value ty : value <> "__proto__" -> ownEntry value ty value = Some ty.
Proof.
  intros Hne. unfold ownEntry. rewrite String.eqb_refl.
  destruct (String.eqb_spec value "__proto__"); [contradiction|reflexivity].
Qed.

Lemma ownEntry_inv value ty0 name ty :
  ownEntry value ty0 name = Some ty -> name = value /\ ty = ty0.
Proof.
  unfold ownEntry. destruct (String.eqb_spec value name) as [->|_]; [|discriminate].
  destruct (negb (String.eqb name "__proto__")); [|discriminate].
  intros E. inversion E. auto.
Qed.

(** What one element alone writes under its own name. *)
Lemma get_single_leaf element name ty :
  name <> "__proto__" ->
  paramTypesStep initialParamState element = (assign empty name ty, JSSet.empty) ->
  get (paramsOf [element]) name = Some ty.
Proof.
  intros Hne Hstep. unfold paramsOf, extractParamTypes. cbn [fold_left].
  fold initialParamState. rewrite Hstep. cbn [fst].
  rewrite get_assign_ownEntry by reflexivity.
  rewrite (ownEntry_same name ty Hne). reflexivity.
Qed.

Lemma get_single_tag name children :
  name <> "__proto__" ->
  get (paramsOf children) name = None ->
  get (paramsOf [TagElement name children]) name = Some "FormatXMLElementFn<T>".
Proof.
  intros Hne Hnone. rewrite get_paramsOf_tag, Hnone. cbn [laterWins].
  apply ownEntry_same, Hne.
Qed.

Lemma get_single_select name options :
  name <> "__proto__" ->
  (forall selector branch, In (selector, branch) options ->
                           get (paramsOf branch) name = None) ->
  get (paramsOf [SelectElement name options]) name =
  Some (join " | " (map quoted (map fst options))).
Proof.
  intros Hne Hnone. rewrite get_paramsOf_select, get_paramsOf_concat_None.
  - cbn [laterWins]. apply ownEntry_same, Hne.
  - intros b Hb. apply in_map_iff in Hb. destruct Hb as ([selector branch] & <- & Hin).
    apply (Hnone selector branch Hin).
Qed.

(** The entry of an element that nothing after it overwrites. *)
Lemma get_in_context (pre post : AST) element name ty :
  get (paramsOf post) name = None ->
  get (paramsOf [element]) name = Some ty ->
  get (paramsOf (pre ++ element :: post)) name = Some ty.
Proof.
  intros Hpost Hel.
  change (element :: post) with ([element] ++ post)%list.
  rewrite !get_paramsOf_app, Hpost, Hel. reflexivity.
Qed.

(** *** Entries and the placeholders met *)

Lemma Occurs_cons e (ast : AST) name ty :
  Occurs ast name ty -> Occurs (e :: ast) name ty.
Proof.
  intros Hocc. destruct Hocc; rewrite app_comm_cons;
    first [ apply Occ_in_tag; assumption
          | eapply Occ_in_select; eassumption
          | constructor ].
Qed.

Lemma Occurs_app_l (ast rest : AST) name ty :
  Occurs ast name ty -> Occurs (ast ++ rest) name ty.
Proof.
  intros Hocc. destruct Hocc; rewrite <- app_assoc, <- app_comm_cons;
    first [ apply Occ_in_tag; assumption
          | eapply Occ_in_select; eassumption
          | constructor ].
Qed.

Lemma get_paramsOf_concat_Some (branches : list AST) name ty :
  get (paramsOf (List.concat branches)) name = Some ty ->
  exists b, In b branches /\ get (paramsOf b) name = Some ty.
Proof.
  induction branches as [|b bs IH]; cbn [List.concat].
  - discriminate.
  - rewrite get_paramsOf_app.
    destruct (get (paramsOf (List.concat bs)) name) as [ty'|] eqn:Hbs;
      cbn [laterWins]; intros Hget.
    + destruct (IH Hget) as (b' & Hin & Hb'). exists b'. simpl. auto.
    + exists b. simpl. auto.
Qed.

Lemma get_single_leaf_inv element v ty0 name ty :
  paramTypesStep initialParamState element = (assign empty v ty0, JSSet.empty) ->
  get (paramsOf [element]) name = Some ty -> name = v /\ ty = ty0.
Proof.
  intros Hstep. unfold paramsOf, extractParamTypes. cbn [fold_left].
  fold initialParamState. rewrite Hstep. cbn [fst].
  rewrite get_assign_ownEntry by reflexivity.
  change (get empty name) with (@None string).
  rewrite laterWins_None_r. apply ownEntry_inv.
Qed.

(** Every entry of the returned object is the type of the kind of some
    placeholder of that name met in the AST. *)
Lemma entry_has_placeholder (ast : AST) name ty :
  get (paramsOf ast) name = Some ty -> Occurs ast name ty.
Proof.
  revert name ty.
  assert (Hlist : forall a : AST,
             Forall (fun e => forall name ty,
                         get (paramsOf [e]) name = Some ty ->
                         Occurs [e] name ty) a ->
             forall name ty, get (paramsOf a) name = Some ty -> Occurs a name ty).
  { induction a as [|e a IH]; intros Hall name ty Hget; [discriminate|].
    inversion Hall as [|? ? He Ha]; subst.
    change (e :: a) with ([e] ++ a)%list in Hget |- *.
    rewrite get_paramsOf_app in Hget.
    destruct (get (paramsOf a) name) as [ty'|] eqn:Hrest; cbn [laterWins] in Hget.
    - inversion Hget; subst ty'. apply Occurs_cons, IH; assumption.
    - apply Occurs_app_l, He, Hget. }
  intros name ty. apply Hlist. clear name ty.
  apply ast_ind'.
  - intros v name ty Hget. discriminate.
  - intros v name ty Hget.
    destruct (get_single_leaf_inv (ArgumentElement v) v "string" name ty eq_refl Hget) as [-> ->].
    apply (Occ_argument [] v []).
  - intros v name ty Hget.
    destruct (get_single_leaf_inv (NumberElement v) v "number" name ty eq_refl Hget) as [-> ->].
    apply (Occ_number [] v []).
  - intros v name ty Hget.
    destruct (get_single_leaf_inv (DateElement v) v "Date | number" name ty eq_refl Hget)
      as [-> ->].
    apply (Occ_date [] v []).
  - intros v name ty Hget.
    destruct (get_single_leaf_inv (TimeElement v) v "Date | number" name ty eq_refl Hget)
      as [-> ->].
    apply (Occ_time [] v []).
  - intros v options IH name ty Hget. rewrite get_paramsOf_select in Hget.
    destruct (get (paramsOf (List.concat (map snd options))) name) as [ty'|] eqn:Hb;
      cbn [laterWins] in Hget.
    + inversion Hget; subst ty'.
      apply get_paramsOf_concat_Some in Hb. destruct Hb as (b & Hin & Hb).
      apply in_map_iff in Hin. destruct Hin as ([selector branch] & <- & Hin).
      rewrite Forall_forall in IH. specialize (IH _ Hin). cbn [snd] in IH, Hb.
      apply (Occ_in_select [] v options [] selector branch name ty Hin).
      apply Hlist; assumption.
    + apply ownEntry_inv in Hget. destruct Hget as [-> ->].
      apply (Occ_select [] v options []).
  - intros v options _ name ty Hget.
    destruct (get_single_leaf_inv (PluralElement v options) v "number" name ty eq_refl Hget) as [-> ->].
    apply (Occ_plural [] v options []).
  - intros name ty Hget. discriminate.
  - intros v children IH name ty Hget. rewrite get_paramsOf_tag in Hget.
    destruct (get (paramsOf children) name) as [ty'|] eqn:Hc;
      cbn [laterWins] in Hget.
    + inversion Hget; subst ty'.
      apply (Occ_in_tag [] v children [] name ty). apply Hlist; assumption.
    + apply ownEntry_inv in Hget. destruct Hget as [-> ->].
      apply (Occ_tag [] v children []).
Qed.

Lemma laterWins_present_l {A : Type} (x y : option A) :
  x <> None -> laterWins x y <> None.
Proof. destruct x; [discriminate|contradiction]. Qed.

Lemma laterWins_present_r {A : Type} (x y : option A) :
  y <> None -> laterWins x y <> None.
Proof. destruct x; [discriminate|auto]. Qed.

Lemma present_in_context (pre post : AST) element name :
  get (paramsOf [element]) name <> None ->
  get (paramsOf (pre ++ element :: post)) name <> None.
Proof.
  intros Hel. change (element :: post) with ([element] ++ post)%list.
  rewrite !get_paramsOf_app.
  apply laterWins_present_l, laterWins_present_r, Hel.
Qed.

Lemma present_in_concat (branches : list AST) b name :
  In b branches -> get (paramsOf b) name <> None ->
  get (paramsOf (List.concat branches)) name <> None.
Proof.
  induction branches as [|b0 bs IH]; cbn [List.concat]; intros Hin Hb.
  - contradiction.
  - rewrite get_paramsOf_app. destruct Hin as [->|Hin].
    + apply laterWins_present_r, Hb.
    + apply laterWins_present_l, IH; assumption.
Qed.

(** Every placeholder met has an entry under its name, unless the name
    is [__proto__]. *)
Lemma placeholder_has_entry (ast : AST) name ty :
  name <> "__proto__" ->
  Occurs ast name ty -> get (paramsOf ast) name <> None.
Proof.
  intros Hne.
  induction 1 as [pre name post|pre name post|pre name options post
                 |pre name post|pre name post|pre name children post
                 |pre name options post
                 |pre v children post name ty _ IH
                 |pre v options post selector branch name ty Hin _ IH];
    apply present_in_context.
  - rewrite (get_single_leaf (ArgumentElement name) name "string" Hne eq_refl).
    discriminate.
  - rewrite (get_single_leaf (NumberElement name) name "number" Hne eq_refl).
    discriminate.
  - rewrite (get_single_leaf (PluralElement name options) name "number" Hne eq_refl).
    discriminate.
  - rewrite (get_single_leaf (DateElement name) name "Date | number" Hne eq_refl).
    discriminate.
  - rewrite (get_single_leaf (TimeElement name) name "Date | number" Hne eq_refl).
    discriminate.
  - rewrite get_paramsOf_tag, (ownEntry_same _ _ Hne). apply laterWins_present_r.
    discriminate.
  - rewrite get_paramsOf_select, (ownEntry_same _ _ Hne). apply laterWins_present_r.
    discriminate.
  - rewrite get_paramsOf_tag. apply laterWins_present_l, IH, Hne.
  - rewrite get_paramsOf_select. apply laterWins_present_l.
    apply (present_in_concat _ branch); [|exact (IH Hne)].
    apply in_map_iff. exists (selector, branch). auto.
Qed.

(** No placeholder gets an entry called [__proto__]. *)
Lemma no_entry_for_proto (ast : AST) : get (paramsOf ast) "__proto__" = None.
Proof. apply paramsOf_noProto. Qed.

(** A placeholder whose name is met with one type only is mapped to it. *)
Lemma unambiguous_placeholder (ast : AST) name ty :
  name <> "__proto__" ->
  Occurs ast name ty ->
  (forall ty', Occurs ast name ty' -> ty' = ty) ->
  get (paramsOf ast) name = Some ty.
Proof.
  intros Hne Hocc Huniq.
  destruct (get (paramsOf ast) name) as [ty'|] eqn:Hget.
  - f_equal. apply Huniq, entry_has_placeholder, Hget.
  - exfalso. apply (placeholder_has_entry ast name ty Hne Hocc Hget).
Qed.

Lemma silent_no_entry (ast : AST) name :
  Silent ast name -> get (paramsOf ast) name = None.
Proof.
  intros Hsilent. destruct (get (paramsOf ast) name) as [ty|] eqn:Hget;
    [|reflexivity].
  exfalso. apply (Hsilent ty), entry_has_placeholder, Hget.
Qed.

Lemma Silent_nil name : Silent [] name.
Proof. intros ty Hocc. inversion Hocc as [[] | [] | [] | [] | [] | [] | [] | [] | []];
         discriminate. Qed.

(** The placeholder that is last in processing order decides the entry
    of the name. *)
Lemma last_placeholder_decides (ast : AST) name ty :
  name <> "__proto__" -> Decides ast name ty -> get (paramsOf ast) name = Some ty.
Proof.
  intros Hne.
  induction 1 as [pre name post Hpost|pre name post Hpost
                 |pre name options post Hpost
                 |pre name post Hpost|pre name post Hpost
                 |pre name children post Hchildren Hpost
                 |pre name options post Hoptions Hpost
                 |pre v children post name ty _ IH Hpost
                 |pre v earlier selector branch later post name ty _ IH Hlater Hpost];
    apply get_in_context; try (apply silent_no_entry, Hpost).
  - apply get_single_leaf; [exact Hne|reflexivity].
  - apply get_single_leaf; [exact Hne|reflexivity].
  - apply get_single_leaf; [exact Hne|reflexivity].
  - apply get_single_leaf; [exact Hne|reflexivity].
  - apply get_single_leaf; [exact Hne|reflexivity].
  - apply get_single_tag; [exact Hne|apply silent_no_entry, Hchildren].
  - apply get_single_select; [exact Hne|].
    intros selector branch Hin. apply silent_no_entry, (Hoptions selector branch Hin).
  - rewrite get_paramsOf_tag, (IH Hne). reflexivity.
  - rewrite get_paramsOf_select, map_app, concat_app. cbn [map snd List.concat].
    rewrite !get_paramsOf_app, (IH Hne).
    rewrite get_paramsOf_concat_None; [reflexivity|].
    intros b Hb. apply in_map_iff in Hb.
    destruct Hb as ([selector' branch'] & <- & Hin).
    apply silent_no_entry, (Hlater selector' branch' Hin).
Qed.




(** A plural element writes its own entry and nothing else, whatever its
    options hold. *)
Lemma plural_step st value options :
  paramTypesStep st (PluralElement value options)
  = (assign (fst st) value "number", snd st).
Proof. reflexivity. Qed.

(** C2 (the code at the failing input).  A plural element whose branches
    hold the argument [name]: only [count] is inferred.  The same options
    under a select element do contribute [name]. *)
Theorem plural_branches_not_visited :
  let options :=
    [("one", [ArgumentElement "name"; LiteralElement " has one item"]);
     ("other", [ArgumentElement "name"; LiteralElement " has "; PoundElement;
                LiteralElement " items"])] in
  extractParamTypes [PluralElement "count" options]
    = ([("count", "number")], [])
  /\ get (paramsOf [PluralElement "count" options]) "name" = None
  /\ get (paramsOf [SelectElement "count" options]) "name" = Some "string".
Proof. repeat split. Qed.

End InferencerByKind.

(** ** The loop over languages *)

Section KeyLoop.
Import JSObject JSObjectFacts JSSetFacts.

Variable parse : string -> result AST.
Variable key : string.

Lemma languageStep_Throw ls e :
  fold_left (languageStep parse key) ls (Throw e) = Throw e.
Proof. induction ls as [|tr ls IH]; cbn [fold_left languageStep]; auto. Qed.

Lemma languageStep_Ok s tr :
  languageStep parse key (Ok s) tr =
  match read tr key with
  | Undefined => Ok s
  | Inherited => Throw typeError
  | Own d =>
      match parse (data_message d) with
      | Ok ast => Ok (observe s (data_message d, ast))
      | Throw e => Throw e
      end
  end.
Proof.
  cbn [languageStep]. destruct (read tr key) as [d| |]; [|reflexivity|reflexivity].
  destruct (parse (data_message d)); reflexivity.
Qed.

(** When every read of the key finds a message that parses, or nothing,
    the loop returns, and its state is the fold of [observe] over the
    messages met. *)
Lemma fold_languageStep ls s0 :
  (forall tr, In tr ls ->
     match read tr key with
     | Own d => exists ast, parse (data_message d) = Ok ast
     | Inherited => False
     | Undefined => True
     end) ->
  fold_left (languageStep parse key) ls (Ok s0)
  = Ok (fold_left observe (observed parse key ls) s0).
Proof.
  revert s0. induction ls as [|tr ls IH]; intros s0 Hparse.
  - reflexivity.
  - cbn [fold_left]. rewrite languageStep_Ok.
    unfold observed. cbn [flat_map]. fold (observed parse key ls).
    pose proof (Hparse tr (or_introl eq_refl)) as Htr.
    destruct (read tr key) as [d| |] eqn:Hread.
    + destruct Htr as [ast Hast].
      rewrite (read_Own_inv _ _ _ Hread), Hast. cbn [app fold_left].
      apply IH. intros tr' Hin. apply Hparse. right. assumption.
    + contradiction.
    + rewrite (read_Undefined_inv _ _ Hread). cbn [app].
      apply IH. intros tr' Hin. apply Hparse. right. assumption.
Qed.

Lemma keyLoop_observed loadedLanguages imports :
  parsesKey parse loadedLanguages key ->
  keyLoop parse loadedLanguages key imports
  = Ok (fold_left observe (observed parse key (values loadedLanguages))
          (initialKeyState imports)).
Proof. intros Hp. unfold keyLoop. apply fold_languageStep. exact Hp. Qed.

Lemma In_observed ls m ast :
  In (m, ast) (observed parse key ls) <->
  exists tr d, In tr ls /\ get tr key = Some d /\ data_message d = m
               /\ parse m = Ok ast.
Proof.
  unfold observed. rewrite in_flat_map. split.
  - intros (tr & Hin & Hm). exists tr.
    destruct (get tr key) as [d|]; [|contradiction].
    destruct (parse (data_message d)) as [a|] eqn:Hp; [|contradiction].
    destruct Hm as [E|[]]. inversion E; subst. exists d. auto.
  - intros (tr & d & Hin & Hget & <- & Hp). exists tr. split; [assumption|].
    rewrite Hget, Hp. left. reflexivity.
Qed.

Lemma observed_app l1 l2 :
  observed parse key (l1 ++ l2) = (observed parse key l1 ++ observed parse key l2)%list.
Proof. unfold observed. apply flat_map_app. Qed.

(** *** The state after the messages met *)

Lemma hasTags_fold_observe obs s0 :
  ks_hasTags (fold_left observe obs s0)
  = ks_hasTags s0 || existsb extractHasTags (map snd obs).
Proof.
  revert s0. induction obs as [|m obs IH]; intros s0; cbn [fold_left map existsb].
  - rewrite orb_false_r. reflexivity.
  - rewrite IH. cbn [observe ks_hasTags]. rewrite orb_assoc. reflexivity.
Qed.

Lemma params_fold_observe obs s0 k :
  wf (ks_params s0) ->
  get (ks_params (fold_left observe obs s0)) k
  = laterWins (get (paramsOf (List.concat (map snd obs))) k) (get (ks_params s0) k).
Proof.
  revert s0. induction obs as [|m obs IH]; intros s0 Hs0;
    cbn [fold_left map List.concat].
  - reflexivity.
  - rewrite IH by (cbn [observe ks_params]; apply wf_spread).
    cbn [observe ks_params].
    rewrite get_spread; [|exact Hs0|apply paramsOf_wf].
    rewrite get_paramsOf_app. apply laterWins_assoc.
Qed.

Lemma messages_fold_observe obs s0 :
  ks_messages (fold_left observe obs s0)
  = fold_left JSSet.add (map (fun m => embedMessage (fst m)) obs) (ks_messages s0).
Proof.
  revert s0. induction obs as [|m obs IH]; intros s0; cbn [fold_left map].
  - reflexivity.
  - rewrite IH. reflexivity.
Qed.

(** Literal text writes nothing. *)
Lemma fold_step_literal (ast : AST) st :
  forallb isLiteral ast = true -> fold_left paramTypesStep ast st = st.
Proof.
  induction ast as [|e ast IH]; cbn [forallb fold_left]; intros Hlit.
  - reflexivity.
  - apply andb_prop in Hlit. destruct Hlit as [He Ha].
    destruct e; try discriminate. cbn [paramTypesStep]. apply IH, Ha.
Qed.

Lemma hasTags_literal (ast : AST) :
  forallb isLiteral ast = true -> extractHasTags ast = false.
Proof.
  unfold extractHasTags.
  induction ast as [|e ast IH]; cbn [forallb existsb]; intros Hlit.
  - reflexivity.
  - apply andb_prop in Hlit. destruct Hlit as [He Ha].
    destruct e; try discriminate. cbn [elementHasTags orb]. apply IH, Ha.
Qed.

Lemma params_fold_observe_literal obs s0 :
  Forall (fun m => forallb isLiteral (snd m) = true) obs ->
  ks_params s0 = empty ->
  ks_params (fold_left observe obs s0) = empty.
Proof.
  intros Hall. revert s0. induction Hall as [|m obs Hm Hall IH]; intros s0 Hs0.
  - exact Hs0.
  - cbn [fold_left]. apply IH. cbn [observe ks_params].
    unfold paramsOf, extractParamTypes.
    rewrite fold_step_literal by assumption. rewrite Hs0. reflexivity.
Qed.

End KeyLoop.

(** ** The loop over keys *)

Section KeysLoop.
Import JSObjectFacts JSSetFacts.

Variable parse : string -> result AST.

Lemma typeInfoOf_fold_observe obs s s' :
  ks_params s = ks_params s' -> ks_messages s = ks_messages s' ->
  ks_hasTags s = ks_hasTags s' ->
  typeInfoOf (fold_left observe obs s) = typeInfoOf (fold_left observe obs s').
Proof.
  revert s s'. induction obs as [|m obs IH]; intros s s' Hp Hm Ht.
  - unfold typeInfoOf. cbn [fold_left]. rewrite Hp, Hm, Ht. reflexivity.
  - cbn [fold_left]. apply IH; cbn [observe ks_params ks_messages ks_hasTags];
      congruence.
Qed.

Lemma keyLoop_info loadedLanguages key imports :
  parsesKey parse loadedLanguages key ->
  exists s, keyLoop parse loadedLanguages key imports = Ok s
            /\ typeInfoOf s = keyInfo parse loadedLanguages key.
Proof.
  intros Hp. eexists. split; [apply keyLoop_observed, Hp|].
  apply typeInfoOf_fold_observe; reflexivity.
Qed.

Lemma fold_keyStep loadedLanguages ks :
  (forall key, In key ks -> parsesKey parse loadedLanguages key) ->
  forall translationTypes imports, JSObject.wf translationTypes ->
  exists translationTypes' imports',
    fold_left (keyStep parse loadedLanguages) ks (Ok (translationTypes, imports))
    = Ok (translationTypes', imports')
    /\ JSObject.wf translationTypes'
    /\ forall key,
        (In key ks ->
         JSObject.get translationTypes' key = Some (keyInfo parse loadedLanguages key))
        /\ (~ In key ks -> JSObject.get translationTypes' key = JSObject.get translationTypes key).
Proof.
  induction ks as [|k ks IH]; intros Hparse tys imps Hwf.
  - exists tys, imps. cbn [fold_left]. repeat split; [assumption|contradiction].
  - cbn [fold_left keyStep].
    destruct (keyLoop_info loadedLanguages k imps (Hparse k (or_introl eq_refl)))
      as (s & Hloop & Hinfo).
    rewrite Hloop.
    destruct (IH (fun key Hin => Hparse key (or_intror Hin))
                (JSObject.set tys k (typeInfoOf s)) (ks_imports s) (wf_set _ _ _ Hwf))
      as (tys' & imps' & Hfold & Hwf' & Hget).
    exists tys', imps'. split; [exact Hfold|]. split; [exact Hwf'|].
    intros key. split.
    + intros [->|Hin].
      * destruct (in_dec string_dec key ks) as [Hin|Hnin].
        -- apply Hget, Hin.
        -- destruct (Hget key) as [_ Hout]. rewrite (Hout Hnin).
           rewrite get_set_same, Hinfo. reflexivity.
      * apply Hget, Hin.
    + intros Hnin. destruct (Hget key) as [_ Hout].
      rewrite Hout by (intros Hin; apply Hnin; right; exact Hin).
      apply get_set_other. intros ->. apply Hnin. left. reflexivity.
Qed.

(** When every message parses, [generateRuntime] leaves its loops with
    an entry for every key of the unit. *)
Lemma generateTypes_entries loadedTranslation :
  parsesAll parse loadedTranslation ->
  exists translationTypes imports,
    generateTypes parse loadedTranslation = Ok (translationTypes, imports)
    /\ JSObject.wf translationTypes
    /\ forall key, In key (keys loadedTranslation) ->
         JSObject.get translationTypes key
         = Some (keyInfo parse (languages loadedTranslation) key).
Proof.
  intros Hp.
  destruct (fold_keyStep (languages loadedTranslation) (keys loadedTranslation)
              Hp JSObject.empty JSSet.empty wf_empty)
    as (tys & imps & Hfold & Hwf & Hget).
  exists tys, imps. split; [exact Hfold|]. split; [exact Hwf|].
  intros key Hin. apply Hget, Hin.
Qed.

(** *** The accessor-type object *)

Lemma encodeBackslash_inj a b : encodeBackslash a = encodeBackslash b -> a = b.
Proof.
  revert b. induction a as [|c a IH]; intros [|d b]; cbn [encodeBackslash].
  - reflexivity.
  - destruct (Ascii.eqb d "\"%char); discriminate.
  - destruct (Ascii.eqb c "\"%char); discriminate.
  - destruct (Ascii.eqb_spec c "\"%char) as [->|Hc],
             (Ascii.eqb_spec d "\"%char) as [->|Hd]; intros E.
    + injection E as E. f_equal. apply IH, E.
    + injection E as E1 E2. congruence.
    + injection E as E1 E2. congruence.
    + injection E as E1 E2. subst. f_equal. apply IH, E2.
Qed.

Lemma encodeBackslash_proto k : encodeBackslash k = "__proto__" -> k = "__proto__".
Proof. intros E. apply encodeBackslash_inj. rewrite E. reflexivity. Qed.

Lemma get_translationsType_from (value : JSObject.t TranslationTypeInfo) key
    (acc : JSObject.t JSValue) :
  key <> "__proto__" ->
  noProto acc ->
  NoDup (JSObject.keys value) ->
  JSObject.get
    (fold_left
       (fun acc kv => JSObject.assign acc (encodeBackslash (fst kv))
                        (VString (translationFunctionString (snd kv))))
       value acc) (encodeBackslash key)
  = match JSObject.get value key with
    | Some info => Some (VString (translationFunctionString info))
    | None => JSObject.get acc (encodeBackslash key)
    end.
Proof.
  intros Hkey. revert acc.
  induction value as [|[k0 v0] value' IH]; intros acc Hacc Hnd.
  - reflexivity.
  - cbn [fold_left fst snd JSObject.get]. cbn [JSObject.keys map fst] in Hnd.
    inversion Hnd as [|? ? Hnin Hnd']; subst.
    rewrite IH by (try apply noProto_assign; assumption).
    rewrite get_assign by exact Hacc.
    destruct (String.eqb_spec k0 key) as [->|Hne].
    + apply get_None in Hnin. rewrite Hnin, String.eqb_refl.
      destruct (String.eqb_spec (encodeBackslash key) "__proto__") as [E|_];
        [apply encodeBackslash_proto in E; contradiction|reflexivity].
    + destruct (String.eqb_spec (encodeBackslash k0) (encodeBackslash key))
        as [E|_]; [apply encodeBackslash_inj in E; contradiction|].
      reflexivity.
Qed.

(** The accessor type of every key but [__proto__] is stored under the
    key with its backslashes doubled. *)
Lemma get_translationsType value key :
  JSObject.wf value ->
  key <> "__proto__" ->
  JSObject.get (translationsType value) (encodeBackslash key)
  = option_map (fun info => VString (translationFunctionString info))
      (JSObject.get value key).
Proof.
  intros Hwf Hkey. unfold translationsType, JSObject.entries.
  rewrite (get_translationsType_from value key JSObject.empty Hkey eq_refl Hwf).
  destruct (JSObject.get value key); reflexivity.
Qed.

End KeysLoop.

(** ** Markup detection *)

Section Markup.
Import JSObjectFacts JSSetFacts.

Lemma extractHasTags_app (a b : AST) :
  extractHasTags (a ++ b) = extractHasTags a || extractHasTags b.
Proof. unfold extractHasTags. apply existsb_app. Qed.

(** [extractHasTags] finds exactly the tags at the top level or below
    select options. *)
Lemma extractHasTags_reachable (ast : AST) :
  TagReachable ast -> extractHasTags ast = true.
Proof.
  induction 1 as [pre v children post
                 |pre v options post selector branch Hin _ IH].
  - rewrite extractHasTags_app. cbn. apply orb_true_r.
  - rewrite extractHasTags_app.
    change (SelectElement v options :: post)
      with ([SelectElement v options] ++ post)%list.
    rewrite extractHasTags_app.
    assert (Hsel : extractHasTags [SelectElement v options] = true).
    { unfold extractHasTags. cbn [existsb elementHasTags]. rewrite orb_false_r.
      apply existsb_exists. exists (selector, branch). split; [exact Hin|exact IH]. }
    rewrite Hsel. cbn. apply orb_true_r.
Qed.

Lemma extractHasTags_inv (ast : AST) :
  extractHasTags ast = true -> TagReachable ast.
Proof.
  assert (Hall : Forall (fun e => elementHasTags e = true ->
                                  forall pre post, TagReachable (pre ++ e :: post)) ast).
  { apply ast_ind'; try (intros; discriminate).
    - intros v options IH Hsel pre post. cbn [elementHasTags] in Hsel.
      apply existsb_exists in Hsel. destruct Hsel as ([selector branch] & Hin & Hb).
      rewrite Forall_forall in IH. specialize (IH _ Hin). cbn [snd] in IH, Hb.
      apply existsb_exists in Hb. destruct Hb as (e & He & Htag).
      rewrite Forall_forall in IH. specialize (IH e He Htag).
      apply in_split in He. destruct He as (l1 & l2 & ->).
      apply (TR_select pre v options post selector (l1 ++ e :: l2)%list Hin), IH.
    - intros v children _ _ pre post. constructor. }
  intros Htags. unfold extractHasTags in Htags.
  apply existsb_exists in Htags. destruct Htags as (e & He & Htag).
  rewrite Forall_forall in Hall. specialize (Hall e He Htag).
  apply in_split in He. destruct He as (l1 & l2 & ->). apply Hall.
Qed.

(** The flag of a key is the disjunction over the messages met, and the
    return type follows the flag: markup in one language is enough. *)
Lemma markup_in_any_language parse loadedTranslation key tr d ast :
  parsesAll parse loadedTranslation ->
  In key (keys loadedTranslation) ->
  In tr (JSObject.values (languages loadedTranslation)) ->
  JSObject.get tr key = Some d ->
  parse (data_message d) = Ok ast ->
  TagReachable ast ->
  exists translationTypes imports info,
    generateTypes parse loadedTranslation = Ok (translationTypes, imports)
    /\ JSObject.get translationTypes key = Some info
    /\ hasTags info = true
    /\ returnType info = "NonNullable<ReactNode>".
Proof.
  intros Hp Hkey Htr Hget Hparse Hreach.
  destruct (generateTypes_entries parse loadedTranslation Hp)
    as (tys & imps & Hgen & _ & Hentries).
  exists tys, imps, (keyInfo parse (languages loadedTranslation) key).
  split; [exact Hgen|]. split; [apply Hentries, Hkey|].
  assert (Hflag : hasTags (keyInfo parse (languages loadedTranslation) key) = true).
  { unfold keyInfo, typeInfoOf. cbn [hasTags].
    rewrite hasTags_fold_observe. cbn [initialKeyState ks_hasTags orb].
    apply existsb_exists. exists ast. split.
    - apply in_map_iff. exists (data_message d, ast). split; [reflexivity|].
      apply In_observed. exists tr, d. auto.
    - apply extractHasTags_reachable, Hreach. }
  split; [exact Hflag|].
  unfold keyInfo, typeInfoOf in *. cbn [hasTags returnType] in *.
  rewrite Hflag. reflexivity.
Qed.

(** C3 (the code at the failing input).  A key whose only message holds
    its tags inside the branches of a plural: [extractHasTags] answers
    false, the key's flag is false and its return type is [string]. *)
Theorem tag_inside_plural_not_detected :
  extractHasTags
    [PluralElement "n"
       [("one", [TagElement "b" [LiteralElement "one"]; LiteralElement " item"]);
        ("other", [TagElement "b" [PoundElement]; LiteralElement " items"])]]
  = false
  /\ exists translationTypes imports info,
      generateTypes Sample.parse Sample.pluralMarkup = Ok (translationTypes, imports)
      /\ JSObject.get translationTypes "items" = Some info
      /\ hasTags info = false
      /\ returnType info = "string".
Proof.
  split; [reflexivity|].
  do 3 eexists. split; [vm_compute; reflexivity|].
  split; [reflexivity|]. split; reflexivity.
Qed.

End Markup.

(** ** Merging *)

Section Merging.
Import JSObjectFacts JSSetFacts.
Open Scope list_scope.

Lemma params_last_language parse key imports
      (l1 : JSObject.t TranslationsByKey) lang tr l2 d ast name ty :
  parsesKey parse (l1 ++ (lang, tr) :: l2) key ->
  JSObject.get tr key = Some d ->
  parse (data_message d) = Ok ast ->
  JSObject.get (paramsOf ast) name = Some ty ->
  (forall tr' d' ast', In tr' (JSObject.values l2) ->
     JSObject.get tr' key = Some d' -> parse (data_message d') = Ok ast' ->
     JSObject.get (paramsOf ast') name = None) ->
  exists s, keyLoop parse (l1 ++ (lang, tr) :: l2) key imports = Ok s
            /\ JSObject.get (ks_params s) name = Some ty.
Proof.
  intros Hp Hget Hparse Hty Hlater.
  eexists. split; [apply keyLoop_observed, Hp|].
  rewrite params_fold_observe by apply wf_empty. cbn [initialKeyState ks_params].
  change (JSObject.get JSObject.empty name) with (@None string).
  rewrite laterWins_None_r.
  unfold JSObject.values. rewrite map_app. cbn [map snd].
  rewrite observed_app.
  change (tr :: map snd l2) with ([tr] ++ map snd l2)%list.
  rewrite observed_app, !map_app, !concat_app, !get_paramsOf_app.
  assert (Hl2 : JSObject.get
                  (paramsOf (List.concat (map snd (observed parse key (map snd l2)))))
                  name = None).
  { apply get_paramsOf_concat_None. intros b Hb.
    apply in_map_iff in Hb. destruct Hb as ([m a] & <- & Hin).
    apply In_observed in Hin. destruct Hin as (tr' & d' & Hin' & Hget' & <- & Hp').
    apply (Hlater tr' d' a Hin' Hget' Hp'). }
  rewrite Hl2. cbn [laterWins].
  unfold observed. cbn [flat_map]. rewrite Hget, Hparse.
  cbn [app map snd List.concat]. rewrite app_nil_r, Hty. reflexivity.
Qed.

(** C5.  A name written more than once keeps the type written last, and
    nothing is reported: a later sibling overrides an earlier one; the
    children of a tag override the tag's own entry; the branches of a
    select, in order, override the select's own entry and one another;
    and across the languages of a key the last language whose message
    writes the name decides, the loop returning normally.  (An element
    called [__proto__] writes no entry of its own.) *)
Theorem later_write_wins :
  (forall (a b : AST) name,
      JSObject.get (paramsOf (a ++ b)) name
      = laterWins (JSObject.get (paramsOf b) name) (JSObject.get (paramsOf a) name))
  /\ (forall v children name,
         JSObject.get (paramsOf [TagElement v children]) name
         = laterWins (JSObject.get (paramsOf children) name)
             (if String.eqb v name && negb (String.eqb v "__proto__")
              then Some "FormatXMLElementFn<T>" else None))
  /\ (forall v options name,
         JSObject.get (paramsOf [SelectElement v options]) name
         = laterWins
             (JSObject.get (paramsOf (List.concat (map snd options))) name)
             (if String.eqb v name && negb (String.eqb v "__proto__")
              then Some (join " | " (map quoted (map fst options))) else None))
  /\ (forall parse key imports (l1 : JSObject.t TranslationsByKey) lang tr l2
             d ast name ty,
         parsesKey parse (l1 ++ (lang, tr) :: l2) key ->
         JSObject.get tr key = Some d ->
         parse (data_message d) = Ok ast ->
         JSObject.get (paramsOf ast) name = Some ty ->
         (forall tr' d' ast', In tr' (JSObject.values l2) ->
            JSObject.get tr' key = Some d' -> parse (data_message d') = Ok ast' ->
            JSObject.get (paramsOf ast') name = None) ->
         exists s, keyLoop parse (l1 ++ (lang, tr) :: l2) key imports = Ok s
                   /\ JSObject.get (ks_params s) name = Some ty).
Proof.
  split; [exact get_paramsOf_app|].
  split; [exact get_paramsOf_tag|].
  split; [exact get_paramsOf_select|].
  exact params_last_language.
Qed.

Lemma later_write_wins_witness :
  exists s,
    keyLoop Sample.parse
      ([("en", [("hello", Sample.msg "Hello {name}")])]
       ++ ("fr", [("hello", Sample.msg "Hello {name, number}")]) :: [])
      "hello" JSSet.empty = Ok s
    /\ JSObject.get (ks_params s) "name" = Some "number".
Proof.
  destruct later_write_wins as (_ & _ & _ & Hlanguages).
  apply (Hlanguages Sample.parse "hello" JSSet.empty
           [("en", [("hello", Sample.msg "Hello {name}")])]
           "fr" [("hello", Sample.msg "Hello {name, number}")] []
           (Sample.msg "Hello {name, number}")
           [LiteralElement "Hello "; NumberElement "name"] "name" "number").
  - intros tr [<-|[<-|[]]]; simpl; eexists; reflexivity.
  - reflexivity.
  - reflexivity.
  - reflexivity.
  - intros tr' d' ast' [].
Defined.

End Merging.

(** ** Keys without parameters *)

Section NoParameters.
Import JSObjectFacts JSSetFacts.

Lemma string_app_assoc (x y z : string) : (x ++ y) ++ z = x ++ y ++ z.
Proof. induction x as [|c x IH]; cbn [append]; [reflexivity|]. rewrite IH. reflexivity. Qed.

Lemma string_app_nil_r (x : string) : x ++ "" = x.
Proof. induction x as [|c x IH]; cbn [append]; [reflexivity|]. rewrite IH. reflexivity. Qed.

Lemma concat_empty_cons x (l : list string) :
  String.concat "" (x :: l) = x ++ String.concat "" l.
Proof. destruct l; cbn [String.concat append]; [rewrite string_app_nil_r|]; reflexivity. Qed.

Lemma NoDup_fold_add xs s : NoDup s -> NoDup (fold_left JSSet.add xs s).
Proof.
  revert s. induction xs as [|x xs IH]; cbn [fold_left]; intros s Hnd; auto.
  apply IH, NoDup_add, Hnd.
Qed.

Lemma translationFunctionString_no_params info :
  params info = JSObject.empty ->
  translationFunctionString info = "() => " ++ message info.
Proof. unfold translationFunctionString. intros ->. reflexivity. Qed.

(** The member of the message union that [generateRuntime] adds for a
    message is the message between single quotes, a backslash before
    each of its quotes. *)
Lemma encodeWithinSingleQuotes_spelled text :
  encodeWithinSingleQuotes text
  = String.concat "" (map escapedCharacter (list_ascii_of_string text)).
Proof.
  induction text as [|c text IH];
    cbn [encodeWithinSingleQuotes list_ascii_of_string map]; [reflexivity|].
  rewrite concat_empty_cons, <- IH. unfold escapedCharacter.
  destruct (Ascii.eqb c "'"%char); reflexivity.
Qed.

Lemma embedMessage_spelled text : embedMessage text = singleQuotedText text.
Proof.
  unfold embedMessage, quoted, singleQuotedText.
  rewrite encodeWithinSingleQuotes_spelled. reflexivity.
Qed.

(** How [generateRuntime] goes on once its loops have returned. *)
Lemma generateRuntime_after_loops {F : Type} `{FileSystem F}
    parse stringifyMessages PrettierConfig
    (resolveConfig : string -> result PrettierConfig) format
    getTSFileFromDevLanguageFile loadedTranslation translationTypes imports
    (w : World F) :
  generateTypes parse loadedTranslation = Ok (translationTypes, imports) ->
  generateRuntime parse stringifyMessages PrettierConfig resolveConfig format
    getTSFileFromDevLanguageFile loadedTranslation w
  = match resolveConfig (filePath loadedTranslation) with
    | Throw e => (Throw e, w)
    | Ok prettierConfig =>
        match format
                (serialiseTranslationRuntime stringifyMessages translationTypes
                   imports loadedTranslation)
                prettierConfig with
        | Throw e => (Throw e, w)
        | Ok declaration =>
            writeIfChanged
              (getTSFileFromDevLanguageFile (filePath loadedTranslation))
              declaration w
        end
    end.
Proof.
  intros Hgen. unfold generateRuntime, Eff.bind, Eff.lift, declarationOf.
  rewrite Hgen. destruct (resolveConfig (filePath loadedTranslation)) as [config|e];
    [|reflexivity].
  destruct (format _ config); reflexivity.
Qed.



(** The text of the accessor type of [Sample.apostrophe]: the message met
    twice is listed once. *)
Lemma apostrophe_accessor_text :
  exists translationTypes imports info,
    generateTypes Sample.parse Sample.apostrophe = Ok (translationTypes, imports)
    /\ JSObject.get translationTypes "hello" = Some info
    /\ translationFunctionString info = "() => 'It\'s' | 'Salut'".
Proof. do 3 eexists. split; [vm_compute; reflexivity|]. split; reflexivity. Qed.

Lemma observed_none parse key ls :
  (forall tr, In tr ls -> JSObject.get tr key = None) ->
  observed parse key ls = [].
Proof.
  induction ls as [|tr ls IH]; intros Hnone; [reflexivity|].
  unfold observed. cbn [flat_map]. rewrite (Hnone tr (or_introl eq_refl)).
  apply IH. intros tr' Hin. apply Hnone. right. exact Hin.
Qed.

Lemma inherits_proto : JSObject.inherits "__proto__" = true.
Proof. reflexivity. Qed.

(** A key of the unit that no language has, and that is not the name of
    an inherited property, never reaches the parser: the loop over the
    languages returns the state it started from, and the key's entry
    holds empty parameters, no markup and an empty message union. *)
Lemma untranslated_key_info parse (loadedLanguages : JSObject.t TranslationsByKey)
    key :
  JSObject.inherits key = false ->
  (forall tr, In tr (JSObject.values loadedLanguages) ->
              JSObject.get tr key = None) ->
  parsesKey parse loadedLanguages key
  /\ (forall imports,
         keyLoop parse loadedLanguages key imports = Ok (initialKeyState imports))
  /\ keyInfo parse loadedLanguages key
     = {| params := JSObject.empty; message := "";
          returnType := "string"; hasTags := false |}.
Proof.
  intros Hown Hnone.
  assert (Hp : parsesKey parse loadedLanguages key).
  { intros tr Htr. unfold JSObject.read. rewrite (Hnone tr Htr), Hown. exact I. }
  split; [exact Hp|]. split.
  - intros imports. rewrite keyLoop_observed by exact Hp.
    rewrite (observed_none parse key _ Hnone). reflexivity.
  - unfold keyInfo. rewrite (observed_none parse key _ Hnone). reflexivity.
Qed.


(** The [returnType] recorded for a key plays no part in the accessor
    type that is written out. *)
Lemma returnType_not_serialised info rt :
  translationFunctionString
    {| params := params info; message := message info;
       returnType := rt; hasTags := hasTags info |}
  = translationFunctionString info.
Proof. reflexivity. Qed.

(** The accessor type written out for a key with markup. *)
Lemma markup_accessor_text :
  exists translationTypes imports info,
    generateTypes Sample.parse Sample.markup = Ok (translationTypes, imports)
    /\ JSObject.get translationTypes "hello" = Some info
    /\ hasTags info = true
    /\ returnType info = "NonNullable<ReactNode>"
    /\ translationFunctionString info
       = "<T = string>(values: { 'b': FormatXMLElementFn<T>, }) => string | T | Array<string | T>".
Proof.
  do 3 eexists. split; [vm_compute; reflexivity|]. repeat split.
Qed.

End NoParameters.

(** ** Escaping *)

Section Escaping.

Lemma quoted_cons s : quoted s = String "'"%char (s ++ "'").
Proof. reflexivity. Qed.

Lemma escapeValue_plain c :
  Ascii.eqb c "'"%char = false -> Ascii.eqb c "\"%char = false ->
  isLineBreak c = false ->
  forall rest,
    readLiteralBody (String c rest) = option_map (String c) (readLiteralBody rest).
Proof. intros Hq Hb Hl rest. cbn [readLiteralBody]. rewrite Hq, Hb, Hl. reflexivity. Qed.

(** X11.  A message without backslash or line break is read back unchanged. *)
Lemma message_round_trip s :
  noneOf isBackslashOrBreak s = true ->
  readSingleQuoted (embedMessage s) = Some s.
Proof.
  unfold embedMessage. rewrite quoted_cons. cbn [readSingleQuoted].
  induction s as [|c s IH]; intros Hs.
  - reflexivity.
  - cbn [noneOf] in Hs. apply andb_prop in Hs. destruct Hs as [Hc Hs].
    unfold isBackslashOrBreak in Hc. apply negb_true_iff, orb_false_iff in Hc.
    destruct Hc as [Hb Hl]. specialize (IH Hs).
    cbn [encodeWithinSingleQuotes].
    destruct (Ascii.eqb_spec c "'"%char) as [->|Hq].
    + cbn. cbn in IH. rewrite IH. reflexivity.
    + apply Ascii.eqb_neq in Hq. cbn [append].
      rewrite escapeValue_plain by assumption. rewrite IH. reflexivity.
Qed.

(** X12.  A key is read back unchanged even when it holds backslashes: they
    are doubled before the quotes are escaped. *)
Lemma key_round_trip s :
  noneOf isLineBreak s = true ->
  readSingleQuoted (embedKey s) = Some s.
Proof.
  unfold embedKey. rewrite quoted_cons. cbn [readSingleQuoted].
  induction s as [|c s IH]; intros Hs.
  - reflexivity.
  - cbn [noneOf] in Hs. apply andb_prop in Hs. destruct Hs as [Hl Hs].
    apply negb_true_iff in Hl. specialize (IH Hs).
    cbn [encodeBackslash].
    destruct (Ascii.eqb_spec c "\"%char) as [->|Hb].
    + cbn. cbn in IH. rewrite IH. reflexivity.
    + apply Ascii.eqb_neq in Hb. cbn [encodeWithinSingleQuotes].
      destruct (Ascii.eqb_spec c "'"%char) as [->|Hq].
      * cbn. cbn in IH. rewrite IH. reflexivity.
      * apply Ascii.eqb_neq in Hq. cbn [append].
        rewrite escapeValue_plain by assumption. rewrite IH. reflexivity.
Qed.

(** C6 (the code at the failing input).  A message of two backslashes
    is embedded with its backslashes as they are, so the literal reads
    back as one backslash; a message of one backslash gives a literal
    that does not end.  The same strings used as keys come back
    unchanged. *)
Theorem backslash_message_not_round_trip :
  embedMessage "\\" = "'\\'"
  /\ readSingleQuoted (embedMessage "\\") = Some "\"
  /\ readSingleQuoted (embedMessage "\\") <> Some "\\"
  /\ readSingleQuoted (embedMessage "\") = None
  /\ readSingleQuoted (embedKey "\\") = Some "\\"
  /\ readSingleQuoted (embedKey "\") = Some "\".
Proof. repeat split; try reflexivity. discriminate. Qed.

End Escaping.

(** ** Writing only what changed *)

#[export] Instance MemFS_Lawful : LawfulFileSystem MemFS.
Proof.
  split.
  - intros f p c f' Hw. cbn in Hw. injection Hw as <-. cbn.
    rewrite JSObjectFacts.get_set_same. reflexivity.
  - intros f p c f' Hw. cbn in Hw. injection Hw as <-. cbn.
    rewrite JSObjectFacts.get_set_same. reflexivity.
Qed.

Section WriteIfChanged.

Context {F : Type} `{FileSystem F}.

Lemma writeIfChanged_unfold filepath contents (w : World F) :
  writeIfChanged filepath contents w
  = match readFile (files w) filepath with
    | Ok existingContents =>
        if String.eqb existingContents contents then (Ok tt, w)
        else writeFileM filepath contents w
    | Throw _ => writeFileM filepath contents w
    end.
Proof.
  unfold writeIfChanged, Eff.bind, Eff.try_catch, readFileM, Eff.ret.
  destruct (readFile (files w) filepath) as [existing|e]; [|reflexivity].
  destruct (String.eqb existing contents); reflexivity.
Qed.

Lemma writeIfChanged_same filepath contents (w : World F) :
  readFile (files w) filepath = Ok contents ->
  writeIfChanged filepath contents w = (Ok tt, w).
Proof.
  intros Hread. rewrite writeIfChanged_unfold, Hread, String.eqb_refl.
  reflexivity.
Qed.

Lemma writeIfChanged_writes filepath contents (w : World F) :
  readFile (files w) filepath <> Ok contents ->
  writeIfChanged filepath contents w = writeFileM filepath contents w.
Proof.
  intros Hread. rewrite writeIfChanged_unfold.
  destruct (readFile (files w) filepath) as [existing|e]; [|reflexivity].
  destruct (String.eqb_spec existing contents) as [->|Hne];
    [contradiction|reflexivity].
Qed.

Lemma journal_writeFileM filepath contents (w : World F) :
  journal (snd (writeFileM filepath contents w))
  = (journal w ++ [EvWriteFile filepath contents])%list.
Proof.
  unfold writeFileM. destruct (writeFile (files w) filepath contents); reflexivity.
Qed.

Lemma writeFileM_Ok filepath contents (w w1 : World F) :
  writeFileM filepath contents w = (Ok tt, w1) ->
  writeFile (files w) filepath contents = Ok (files w1).
Proof.
  unfold writeFileM.
  destruct (writeFile (files w) filepath contents) as [f'|e]; intros E;
    inversion E; subst; reflexivity.
Qed.

Lemma writeCount_snoc_write evs filepath contents :
  writeCount (evs ++ [EvWriteFile filepath contents]) = S (writeCount evs).
Proof.
  unfold writeCount. rewrite filter_app, length_app. cbn. lia.
Qed.

End WriteIfChanged.

Section Idempotence.

Context {F : Type} `{LawfulFileSystem F}.

Variable parse : string -> result AST.
Variable stringifyMessages : TranslationsByKey -> string.
Variable PrettierConfig : Type.
Variable resolveConfig : string -> result PrettierConfig.
Variable format : string -> PrettierConfig -> result string.
Variable getTSFileFromDevLanguageFile : string -> string.

Let declaration_of :=
  declarationOf parse stringifyMessages PrettierConfig resolveConfig format.
Let generate : LoadedTranslation -> Eff.t F unit :=
  generateRuntime parse stringifyMessages PrettierConfig resolveConfig format
    getTSFileFromDevLanguageFile.

Lemma generate_unfold unit (w : World F) :
  generate unit w
  = match declaration_of unit with
    | Ok declaration =>
        writeIfChanged (getTSFileFromDevLanguageFile (filePath unit)) declaration w
    | Throw e => (Throw e, w)
    end.
Proof.
  unfold generate, generateRuntime, Eff.bind, Eff.lift. fold (declaration_of unit).
  destruct (declaration_of unit); reflexivity.
Qed.

(** C4, as the code has it.  [writeIfChanged] leaves the world alone
    when the file reads back as the new text, and otherwise - the read
    fails or the text differs - calls [writeFile] once.  Hence, on a file
    system where a written file reads back as written: when a generation
    completes without throwing, the generation of the unchanged unit that
    follows it writes nothing, and the first one wrote once if the file
    was unreadable or different, and not at all if it already held the
    text.  Nothing is said of a generation that throws: a write that was
    refused is attempted again by the next one
    ([refused_write_is_retried] below). *)
Theorem write_only_when_changed :
  (forall filepath contents (w : World F),
      (readFile (files w) filepath = Ok contents ->
       writeIfChanged filepath contents w = (Ok tt, w))
      /\ (readFile (files w) filepath <> Ok contents ->
          journal (snd (writeIfChanged filepath contents w))
          = (journal w ++ [EvWriteFile filepath contents])%list)
      /\ (writeCount (journal (snd (writeIfChanged filepath contents w)))
          = S (writeCount (journal w))
          <-> readFile (files w) filepath <> Ok contents))
  /\ (forall unit (w w1 : World F),
         generate unit w = (Ok tt, w1) ->
         generate unit w1 = (Ok tt, w1)
         /\ exists declaration,
             declaration_of unit = Ok declaration
             /\ let out := getTSFileFromDevLanguageFile (filePath unit) in
                (readFile (files w) out = Ok declaration ->
                 w1 = w /\ writeCount (journal w1) = writeCount (journal w))
                /\ (readFile (files w) out <> Ok declaration ->
                    journal w1 = (journal w ++ [EvWriteFile out declaration])%list
                    /\ writeCount (journal w1) = S (writeCount (journal w)))).
Proof.
  split.
  - intros filepath contents w. split; [|split].
    + apply writeIfChanged_same.
    + intros Hne. rewrite writeIfChanged_writes by exact Hne.
      apply journal_writeFileM.
    + split.
      * intros Hcount Hsame.
        rewrite (writeIfChanged_same _ _ _ Hsame) in Hcount. cbn [snd] in Hcount.
        lia.
      * intros Hne. rewrite writeIfChanged_writes by exact Hne.
        rewrite journal_writeFileM. apply writeCount_snoc_write.
  - intros unit w w1 Hfirst. rewrite generate_unfold in Hfirst.
    rewrite generate_unfold.
    destruct (declaration_of unit) as [declaration|e]; [|discriminate].
    set (out := getTSFileFromDevLanguageFile (filePath unit)) in *.
    assert (Hdec : readFile (files w) out = Ok declaration
                   \/ readFile (files w) out <> Ok declaration).
    { destruct (readFile (files w) out) as [s|e].
      - destruct (String.eqb_spec s declaration) as [->|Hne]; [left|right];
          congruence.
      - right. discriminate. }
    destruct Hdec as [Hsame|Hdiff].
    + rewrite writeIfChanged_same in Hfirst by exact Hsame.
      inversion Hfirst; subst w1.
      split; [apply writeIfChanged_same, Hsame|].
      exists declaration. split; [reflexivity|]. split; [auto|contradiction].
    + rewrite writeIfChanged_writes in Hfirst by exact Hdiff.
      pose proof (journal_writeFileM out declaration w) as Hj.
      rewrite Hfirst in Hj. cbn [snd] in Hj.
      apply writeFileM_Ok in Hfirst.
      split; [apply writeIfChanged_same, (read_after_write _ _ _ _ Hfirst)|].
      exists declaration. split; [reflexivity|]. split; [contradiction|].
      intros _. split; [exact Hj|]. rewrite Hj. apply writeCount_snoc_write.
Qed.

End Idempotence.

Lemma write_only_when_changed_witness :
  Sample.generate Sample.hello (snd (Sample.generate Sample.hello Sample.emptyWorld))
  = (Ok tt, snd (Sample.generate Sample.hello Sample.emptyWorld)).
Proof.
  apply (proj2 (write_only_when_changed Sample.parse Sample.stringifyMessages unit
                  Sample.resolveConfig Sample.format
                  Sample.getTSFileFromDevLanguageFile)
           Sample.hello Sample.emptyWorld).
  vm_compute. reflexivity.
Defined.

(** Where every write is refused the generation throws, and running it
    again tries the write again: two invocations, two calls of
    [writeFile]. *)
Lemma refused_write_is_retried :
  let first := Sample.generate Sample.hello Sample.readOnlyWorld in
  let second := Sample.generate Sample.hello (snd first) in
  fst first = Throw (MkError "EROFS")
  /\ fst second = Throw (MkError "EROFS")
  /\ writeCount (journal (snd first)) = 1
  /\ writeCount (journal (snd second)) = 2.
Proof. vm_compute. repeat split. Qed.

(** C4 as stated fails: when the generated file is already up to date,
    two generations in a row both complete and neither writes. *)
Lemma twice_without_any_write :
  let w1 := snd (Sample.generate Sample.hello Sample.upToDate) in
  let w2 := snd (Sample.generate Sample.hello w1) in
  readFile (files Sample.upToDate)
    (Sample.getTSFileFromDevLanguageFile (filePath Sample.hello))
  = declarationOf Sample.parse Sample.stringifyMessages unit Sample.resolveConfig
      Sample.format Sample.hello
  /\ fst (Sample.generate Sample.hello Sample.upToDate) = Ok tt
  /\ fst (Sample.generate Sample.hello w1) = Ok tt
  /\ writeCount (journal w2) - writeCount (journal Sample.upToDate) = 0
  /\ writeCount (journal w2) - writeCount (journal Sample.upToDate) <> 1.
Proof. vm_compute. repeat split. discriminate. Qed.

(** ** The watcher *)

Section WatcherProperties.

Context {F : Type} `{FileSystem F}.

Variable cwd : string.
Variable isDevLanguageFile : string -> bool.
Variable isAltLanguageFile : string -> bool.
Variable getDevLanguageFileFromAltLanguageFile : string -> string.
Variable isTranslationDirectory : string -> bool.
Variable devTranslationFileName : string.
Variable pathResolve : string -> string -> string.
Variable pathJoin : string -> string -> string.
Variable loadTranslation : F -> string -> result LoadedTranslation.
Variable generate : LoadedTranslation -> Eff.t F unit.

Let on_change : string -> Eff.t F unit :=
  onTranslationChange cwd isDevLanguageFile isAltLanguageFile
    getDevLanguageFileFromAltLanguageFile pathResolve loadTranslation generate.
Let handle : WatchEvent -> Eff.t F unit :=
  dispatch cwd isDevLanguageFile isAltLanguageFile
    getDevLanguageFileFromAltLanguageFile isTranslationDirectory
    devTranslationFileName pathResolve pathJoin loadTranslation generate.
Let session : list WatchEvent -> Eff.t F unit :=
  watchSession cwd isDevLanguageFile isAltLanguageFile
    getDevLanguageFileFromAltLanguageFile isTranslationDirectory
    devTranslationFileName pathResolve pathJoin loadTranslation generate.
Let target_of : string -> option string :=
  targetFileOf cwd isDevLanguageFile isAltLanguageFile
    getDevLanguageFileFromAltLanguageFile pathResolve.

Let reload_and_generate : string -> Eff.t F unit :=
  regenerate loadTranslation generate.

Lemma on_change_unclassified relativePath (w : World F) :
  isDevLanguageFile relativePath = false ->
  isAltLanguageFile relativePath = false ->
  on_change relativePath w = (Ok tt, w).
Proof.
  intros Hdev Halt. unfold on_change, onTranslationChange, targetFileOf.
  rewrite Hdev, Halt. reflexivity.
Qed.

Lemma on_change_classified relativePath target (w : World F) :
  target_of relativePath = Some target -> target <> "" ->
  on_change relativePath w
  = match reload_and_generate target w with
    | (Ok a, w') => (Ok a, w')
    | (Throw e, w') =>
        (Ok tt,
         {| files := files w';
            journal :=
              (journal w'
               ++ [EvConsoleLog ["Failed to generate types for"; relativePath];
                   EvConsoleError e])%list |})
    end.
Proof.
  intros Htarget Hne. unfold on_change, onTranslationChange.
  fold target_of. rewrite Htarget. cbn [truthy].
  destruct (String.eqb_spec target "") as [->|_]; [contradiction|]. cbn [negb].
  unfold Eff.try_catch. fold (reload_and_generate target).
  destruct (reload_and_generate target w) as [[a|e] w']; [reflexivity|].
  unfold Eff.bind, Eff.emit. cbn [files journal].
  rewrite <- app_assoc. reflexivity.
Qed.

Lemma on_change_returns relativePath (w : World F) :
  fst (on_change relativePath w) = Ok tt.
Proof.
  unfold on_change, onTranslationChange.
  destruct (targetFileOf _ _ _ _ _ relativePath) as [target|]; [|reflexivity].
  destruct (truthy (Some target)); [|reflexivity].
  unfold Eff.try_catch.
  destruct (regenerate loadTranslation generate target w) as [[[]|e] w'];
    reflexivity.
Qed.

Lemma session_of_file_events_returns events (w : World F) :
  forallb isFileEvent events = true -> fst (session events w) = Ok tt.
Proof.
  unfold session. revert w.
  induction events as [|ev events IH]; intros w Hall; [reflexivity|].
  cbn [forallb] in Hall. apply andb_prop in Hall. destruct Hall as [Hev Hall].
  cbn [watchSession].
  assert (Hret : fst (handle ev w) = Ok tt).
  { destruct ev; try discriminate; apply on_change_returns. }
  fold handle. destruct (handle ev w) as [r w']. cbn [fst] in Hret. subst r.
  apply IH, Hall.
Qed.

(** C8.  A file added or changed: when the path is neither an authoring
    nor a derived language file nothing happens at all; when it is, the
    unit of the authoring file is reloaded and regenerated, and an
    exception of either step ends up on the console, after the words
    [Failed to generate types for] and the relative path; in every case
    the handler returns normally, so a session of such events handles
    all of them. *)
Theorem file_event_handled ev relativePath (w : World F) :
  ev = Add relativePath \/ ev = Change relativePath ->
  (isDevLanguageFile relativePath = false ->
   isAltLanguageFile relativePath = false ->
   handle ev w = (Ok tt, w))
  /\ (forall target,
         (isDevLanguageFile relativePath = true
          /\ target = pathResolve cwd relativePath)
         \/ (isDevLanguageFile relativePath = false
             /\ isAltLanguageFile relativePath = true
             /\ target = getDevLanguageFileFromAltLanguageFile
                           (pathResolve cwd relativePath)) ->
         target <> "" ->
         (forall w', reload_and_generate target w = (Ok tt, w') -> handle ev w = (Ok tt, w'))
         /\ (forall e w',
                reload_and_generate target w = (Throw e, w') ->
                handle ev w
                = (Ok tt,
                   {| files := files w';
                      journal :=
                        (journal w'
                         ++ [EvConsoleLog ["Failed to generate types for";
                                           relativePath];
                             EvConsoleError e])%list |})))
  /\ fst (handle ev w) = Ok tt
  /\ (forall events w0,
         forallb isFileEvent events = true -> fst (session events w0) = Ok tt).
Proof.
  intros Hev.
  assert (Hhandle : handle ev = on_change relativePath).
  { destruct Hev as [->| ->]; reflexivity. }
  rewrite Hhandle. split; [apply on_change_unclassified|].
  split; [|split; [apply on_change_returns|apply session_of_file_events_returns]].
  intros target Hclass Hne.
  assert (Htarget : target_of relativePath = Some target).
  { unfold target_of, targetFileOf.
    destruct Hclass as [[Hdev ->]|(Hdev & Halt & ->)].
    - rewrite Hdev. reflexivity.
    - rewrite Hdev, Halt. reflexivity. }
  split.
  - intros w' Hok. rewrite (on_change_classified _ _ _ Htarget Hne), Hok.
    reflexivity.
  - intros e w' Hthrow. rewrite (on_change_classified _ _ _ Htarget Hne), Hthrow.
    reflexivity.
Qed.

End WatcherProperties.

Lemma file_event_handled_witness :
  dispatch Sample.cwd Sample.isDevLanguageFile Sample.isAltLanguageFile
    Sample.getDevLanguageFileFromAltLanguageFile Sample.isTranslationDirectory
    Sample.devTranslationFileName Sample.pathResolve Sample.pathJoin
    Sample.brokenLoad Sample.generate
    (Add ".vocab/translations.json") Sample.emptyWorld
  = (Ok tt,
     {| files := JSObject.empty;
        journal :=
          [EvConsoleLog ["Failed to generate types for"; ".vocab/translations.json"];
           EvConsoleError (MkError "load failed")] |})
  /\ dispatch Sample.cwd Sample.isDevLanguageFile Sample.isAltLanguageFile
       Sample.getDevLanguageFileFromAltLanguageFile Sample.isTranslationDirectory
       Sample.devTranslationFileName Sample.pathResolve Sample.pathJoin
       Sample.loadTranslation Sample.generate
       (Change ".vocab/fr.translations.json") Sample.emptyWorld
     = (Ok tt, snd (Sample.generate Sample.hello Sample.emptyWorld)).
Proof.
  split.
  - destruct (file_event_handled Sample.cwd Sample.isDevLanguageFile
                Sample.isAltLanguageFile
                Sample.getDevLanguageFileFromAltLanguageFile
                Sample.isTranslationDirectory Sample.devTranslationFileName
                Sample.pathResolve Sample.pathJoin Sample.brokenLoad
                Sample.generate (Add ".vocab/translations.json")
                ".vocab/translations.json" Sample.emptyWorld
                (or_introl eq_refl)) as (_ & Hclassified & _).
    destruct (Hclassified "/app/.vocab/translations.json"
                (or_introl (conj eq_refl eq_refl))) as [_ Hthrow];
      [discriminate|].
    apply (Hthrow (MkError "load failed") Sample.emptyWorld). reflexivity.
  - destruct (file_event_handled Sample.cwd Sample.isDevLanguageFile
                Sample.isAltLanguageFile
                Sample.getDevLanguageFileFromAltLanguageFile
                Sample.isTranslationDirectory Sample.devTranslationFileName
                Sample.pathResolve Sample.pathJoin Sample.loadTranslation
                Sample.generate (Change ".vocab/fr.translations.json")
                ".vocab/fr.translations.json" Sample.emptyWorld
                (or_intror eq_refl)) as (_ & Hclassified & _).
    destruct (Hclassified "/app/.vocab/translations.json"
                (or_intror (conj eq_refl (conj eq_refl eq_refl)))) as [Hok _];
      [discriminate|].
    apply Hok. vm_compute. reflexivity.
Defined.

Section DirectoryProperties.

Context {F : Type} `{FileSystem F}.

Variable cwd : string.
Variable isDevLanguageFile : string -> bool.
Variable isAltLanguageFile : string -> bool.
Variable getDevLanguageFileFromAltLanguageFile : string -> string.
Variable isTranslationDirectory : string -> bool.
Variable devTranslationFileName : string.
Variable pathResolve : string -> string -> string.
Variable pathJoin : string -> string -> string.
Variable loadTranslation : F -> string -> result LoadedTranslation.
Variable generate : LoadedTranslation -> Eff.t F unit.

Let on_new_directory : string -> Eff.t F unit :=
  onNewDirectory isTranslationDirectory devTranslationFileName pathJoin.
Let handle : WatchEvent -> Eff.t F unit :=
  dispatch cwd isDevLanguageFile isAltLanguageFile
    getDevLanguageFileFromAltLanguageFile isTranslationDirectory
    devTranslationFileName pathResolve pathJoin loadTranslation generate.

Lemma on_new_directory_unfold relativePath (w : World F) :
  on_new_directory relativePath w
  = if isTranslationDirectory relativePath then
      if existsSync (files w) (pathJoin relativePath devTranslationFileName)
      then (Ok tt, w)
      else writeFileM (pathJoin relativePath devTranslationFileName)
             emptyObjectJSON w
    else (Ok tt, w).
Proof.
  unfold on_new_directory, onNewDirectory.
  destruct (isTranslationDirectory relativePath); [|reflexivity]. cbn [negb].
  unfold Eff.bind, existsSyncM.
  destruct (existsSync (files w) (pathJoin relativePath devTranslationFileName));
    reflexivity.
Qed.

(** C9.  A directory added: when it is not a translation directory
    nothing happens; when it is and the authoring file does not exist
    at the conventional path, [writeFile] is called once, for that path,
    with the text of the empty object, and the file is there afterwards;
    when the file exists nothing is written.  Repeating the event after
    the file was created writes nothing. *)
Theorem new_directory_seeded ev relativePath (w : World F) :
  ev = AddDir relativePath ->
  let newFilePath := pathJoin relativePath devTranslationFileName in
  (isTranslationDirectory relativePath = false -> handle ev w = (Ok tt, w))
  /\ (isTranslationDirectory relativePath = true ->
      existsSync (files w) newFilePath = false ->
      journal (snd (handle ev w))
      = (journal w ++ [EvWriteFile newFilePath "{}"])%list
      /\ forall f', writeFile (files w) newFilePath "{}" = Ok f' ->
           handle ev w
           = (Ok tt,
              {| files := f';
                 journal := (journal w ++ [EvWriteFile newFilePath "{}"])%list |}))
  /\ (isTranslationDirectory relativePath = true ->
      existsSync (files w) newFilePath = true ->
      handle ev w = (Ok tt, w))
  /\ (LawfulFileSystem F ->
      forall w1, handle ev w = (Ok tt, w1) ->
        handle ev w1 = (Ok tt, w1)
        /\ (isTranslationDirectory relativePath = true ->
            existsSync (files w) newFilePath = false ->
            readFile (files w1) newFilePath = Ok "{}"
            /\ writeCount (journal w1) = S (writeCount (journal w)))).
Proof.
  intros -> newFilePath.
  change (handle (AddDir relativePath)) with (on_new_directory relativePath).
  split; [|split; [|split]].
  - intros Hno. rewrite on_new_directory_unfold, Hno. reflexivity.
  - intros Hyes Habsent. rewrite on_new_directory_unfold, Hyes.
    fold newFilePath. rewrite Habsent. split.
    + apply journal_writeFileM.
    + intros f' Hw. unfold writeFileM, emptyObjectJSON. rewrite Hw. reflexivity.
  - intros Hyes Hpresent. rewrite on_new_directory_unfold, Hyes.
    fold newFilePath. rewrite Hpresent. reflexivity.
  - intros Hlaw w1 Hfirst. rewrite on_new_directory_unfold in Hfirst.
    rewrite on_new_directory_unfold. fold newFilePath in Hfirst |- *.
    destruct (isTranslationDirectory relativePath) eqn:Htd.
    + destruct (existsSync (files w) newFilePath) eqn:Hex.
      * inversion Hfirst; subst w1. rewrite Hex.
        split; [reflexivity|]. intros _ Habs. discriminate.
      * pose proof (journal_writeFileM newFilePath emptyObjectJSON w) as Hj.
        rewrite Hfirst in Hj. cbn [snd] in Hj.
        apply writeFileM_Ok in Hfirst.
        rewrite (exists_after_write _ _ _ _ Hfirst).
        split; [reflexivity|]. intros _ _.
        split; [apply (read_after_write _ _ _ _ Hfirst)|].
        rewrite Hj. apply writeCount_snoc_write.
    + inversion Hfirst; subst w1. split; [reflexivity|]. intros Habs. discriminate.
Qed.

End DirectoryProperties.

Lemma new_directory_seeded_witness :
  dispatch Sample.cwd Sample.isDevLanguageFile Sample.isAltLanguageFile
    Sample.getDevLanguageFileFromAltLanguageFile Sample.isTranslationDirectory
    Sample.devTranslationFileName Sample.pathResolve Sample.pathJoin
    Sample.loadTranslation Sample.generate (AddDir ".vocab") Sample.emptyWorld
  = (Ok tt,
     {| files := [(".vocab/translations.json", "{}")];
        journal := [EvWriteFile ".vocab/translations.json" "{}"] |}).
Proof.
  destruct (new_directory_seeded Sample.cwd Sample.isDevLanguageFile
              Sample.isAltLanguageFile Sample.getDevLanguageFileFromAltLanguageFile
              Sample.isTranslationDirectory Sample.devTranslationFileName
              Sample.pathResolve Sample.pathJoin Sample.loadTranslation
              Sample.generate (AddDir ".vocab") ".vocab" Sample.emptyWorld eq_refl)
    as (_ & Hcreate & _).
  destruct (Hcreate eq_refl eq_refl) as [_ Hfile].
  apply (Hfile [(".vocab/translations.json", "{}")]). reflexivity.
Defined.

(** * Further properties of the code *)

(** ** The inferencer: names, imports and markup *)

Section InferencerInvariants.
Import JSObjectFacts JSSetFacts.

(** X1.  The returned parameter object has one entry for every placeholder
    name met below tags and select options, except the name [__proto__],
    which never gets one; no name is listed twice, and there is no other
    entry. *)
Theorem params_one_entry_per_name (ast : AST) :
  NoDup (JSObject.keys (paramsOf ast))
  /\ forall name,
      In name (JSObject.keys (paramsOf ast))
      <-> name <> "__proto__" /\ exists ty, Occurs ast name ty.
Proof.
  split; [apply paramsOf_wf|].
  intros name. rewrite In_keys. split.
  - intros Hin. split.
    + intros ->. apply Hin, paramsOf_noProto.
    + destruct (JSObject.get (paramsOf ast) name) as [ty|] eqn:Hget;
        [|contradiction].
      exists ty. apply entry_has_placeholder, Hget.
  - intros [Hne [ty Hocc]]. apply (placeholder_has_entry ast name ty Hne Hocc).
Qed.

(** A placeholder called [__proto__] leaves no entry; the others are
    listed once, in the order of their first write. *)
Lemma params_skip_proto :
  paramsOf [ArgumentElement "__proto__"; NumberElement "n";
            TagElement "b" [ArgumentElement "n"]]
  = [("n", "string"); ("b", "FormatXMLElementFn<T>")].
Proof. reflexivity. Qed.

Lemma of_list_importsIf a b :
  JSSet.of_list (JSSet.to_list (importsIf a) ++ JSSet.to_list (importsIf b))%list
  = importsIf (a || b).
Proof. destruct a, b; reflexivity. Qed.

Lemma add_importsIf a :
  JSSet.add (importsIf a) formatXMLElementFnImport = importsIf true.
Proof. destruct a; reflexivity. Qed.

Lemma imports_mergeOptions options st b :
  (forall o, In o options ->
             snd (extractParamTypes (snd o)) = importsIf (extractHasTags (snd o))) ->
  snd st = importsIf b ->
  snd (mergeOptions options st)
  = importsIf (b || existsb (fun o => existsb elementHasTags (snd o)) options).
Proof.
  unfold mergeOptions. revert st b.
  induction options as [|o os IH]; cbn [fold_left existsb]; intros st b Hsub Hst.
  - rewrite orb_false_r. exact Hst.
  - rewrite (IH _ (b || extractHasTags (snd o))).
    + unfold extractHasTags. rewrite orb_assoc. reflexivity.
    + intros o' Hin. apply Hsub. right. exact Hin.
    + unfold mergeSub. cbn [snd]. rewrite Hst, (Hsub o (or_introl eq_refl)).
      apply of_list_importsIf.
Qed.

Lemma imports_fold_step (ast : AST) st b :
  snd st = importsIf b ->
  snd (fold_left paramTypesStep ast st) = importsIf (b || extractHasTags ast).
Proof.
  revert st b.
  assert (Hlist : forall a : AST,
             Forall (fun e => forall st b, snd st = importsIf b ->
                        snd (paramTypesStep st e)
                        = importsIf (b || elementHasTags e)) a ->
             forall st b, snd st = importsIf b ->
               snd (fold_left paramTypesStep a st)
               = importsIf (b || extractHasTags a)).
  { unfold extractHasTags.
    induction a as [|e a IH]; intros Hall st b Hst; cbn [fold_left existsb].
    - rewrite orb_false_r. exact Hst.
    - inversion Hall as [|? ? He Ha]; subst.
      rewrite (IH Ha _ (b || elementHasTags e)).
      + rewrite orb_assoc. reflexivity.
      + apply He, Hst. }
  intros st b. apply Hlist. clear st b.
  apply ast_ind'; try (intros; cbn [paramTypesStep snd elementHasTags];
                       rewrite orb_false_r; assumption).
  - intros v options IH st b Hst. rewrite step_select_unfold.
    cbn [elementHasTags]. apply imports_mergeOptions; [|exact Hst].
    intros o Hin. rewrite Forall_forall in IH.
    unfold extractParamTypes.
    rewrite (Hlist (snd o) (IH o Hin) (JSObject.empty, JSSet.empty) false eq_refl).
    reflexivity.
  - intros v children IH st b Hst. rewrite step_tag_unfold.
    unfold mergeSub. cbn [snd elementHasTags]. rewrite Hst, add_importsIf.
    unfold extractParamTypes.
    rewrite (Hlist children IH (JSObject.empty, JSSet.empty) false eq_refl).
    rewrite of_list_importsIf, orb_true_r. reflexivity.
Qed.

Lemma importsOf_exact (ast : AST) :
  importsOf ast = importsIf (extractHasTags ast).
Proof.
  unfold importsOf, extractParamTypes.
  rewrite (imports_fold_step ast (JSObject.empty, JSSet.empty) false eq_refl).
  reflexivity.
Qed.

(** X2.  The returned import set is the FormatXMLElementFn import alone when
    [extractHasTags] finds markup in the same AST, and empty otherwise:
    the two traversals agree, and the import is never listed twice. *)
Theorem imports_follow_markup (ast : AST) :
  importsOf ast
  = if extractHasTags ast then [formatXMLElementFnImport] else [].
Proof. exact (importsOf_exact ast). Qed.

(** X3.  [extractHasTags] answers true exactly when a tag stands at the top
    level of the AST or below select options, at any nesting depth of
    selects. *)
Theorem extractHasTags_iff_reachable (ast : AST) :
  extractHasTags ast = true <-> TagReachable ast.
Proof.
  split; [apply extractHasTags_inv|apply extractHasTags_reachable].
Qed.

(** *** Enumeration order *)

Lemma mergeOptions_ordered options st :
  JSObject.ordered (JSObject.keys (fst st)) = true ->
  JSObject.ordered (JSObject.keys (fst (mergeOptions options st))) = true.
Proof.
  unfold mergeOptions. revert st.
  induction options as [|o os IH]; cbn [fold_left]; intros st Hst; [exact Hst|].
  apply IH. unfold mergeSub. cbn [fst]. apply ordered_spread.
Qed.

Lemma paramTypesStep_ordered element st :
  JSObject.ordered (JSObject.keys (fst st)) = true ->
  JSObject.ordered (JSObject.keys (fst (paramTypesStep st element))) = true.
Proof.
  intros Hst. destruct element;
    try (cbn [paramTypesStep fst]; solve [assumption | apply ordered_assign, Hst]).
  - rewrite step_select_unfold. apply mergeOptions_ordered. cbn [fst].
    apply ordered_assign, Hst.
  - rewrite step_tag_unfold. unfold mergeSub. cbn [fst]. apply ordered_spread.
Qed.

Lemma paramsOf_ordered (ast : AST) :
  JSObject.ordered (JSObject.keys (paramsOf ast)) = true.
Proof.
  unfold paramsOf, extractParamTypes.
  assert (Hgen : forall st,
             JSObject.ordered (JSObject.keys (fst st)) = true ->
             JSObject.ordered
               (JSObject.keys (fst (fold_left paramTypesStep ast st))) = true).
  { induction ast as [|e ast IH]; cbn [fold_left]; intros st Hst; [exact Hst|].
    apply IH, paramTypesStep_ordered, Hst. }
  apply Hgen. reflexivity.
Qed.

Lemma translationsType_ordered (value : JSObject.t TranslationTypeInfo) :
  JSObject.ordered (JSObject.keys (translationsType value)) = true.
Proof.
  unfold translationsType, JSObject.entries.
  assert (Hgen : forall acc : JSObject.t JSValue,
             JSObject.ordered (JSObject.keys acc) = true ->
             JSObject.ordered
               (JSObject.keys
                  (fold_left
                     (fun acc kv =>
                        JSObject.assign acc (encodeBackslash (fst kv))
                          (VString (translationFunctionString (snd kv))))
                     value acc)) = true).
  { induction value as [|kv value' IH]; cbn [fold_left]; intros acc Hacc;
      [exact Hacc|].
    apply IH, ordered_assign, Hacc. }
  apply Hgen. reflexivity.
Qed.

(** X18.  Names that are array indices are listed first, in ascending
    order, in the parameter object of an AST and in the accessor-type
    object of a unit: whatever is listed before an array index is an
    array index that is not larger. *)
Theorem array_indices_come_first :
  (forall (ast : AST) pre k mid k' post n',
      JSObject.keys (paramsOf ast) = (pre ++ k :: mid ++ k' :: post)%list ->
      JSObject.arrayIndex k' = Some n' ->
      exists n, JSObject.arrayIndex k = Some n /\ (n <= n')%N)
  /\ (forall (value : JSObject.t TranslationTypeInfo) pre k mid k' post n',
      JSObject.keys (translationsType value)
      = (pre ++ k :: mid ++ k' :: post)%list ->
      JSObject.arrayIndex k' = Some n' ->
      exists n, JSObject.arrayIndex k = Some n /\ (n <= n')%N).
Proof.
  split.
  - intros ast pre k mid k' post n' Hkeys.
    apply (ordered_before _ pre k mid k' post n' (paramsOf_ordered ast) Hkeys).
  - intros value pre k mid k' post n' Hkeys.
    apply (ordered_before _ pre k mid k' post n'
             (translationsType_ordered value) Hkeys).
Qed.

Lemma array_indices_come_first_witness :
  JSObject.keys
    (paramsOf [ArgumentElement "b"; NumberElement "10"; ArgumentElement "9";
               ArgumentElement "01"])
  = ["9"; "10"; "b"; "01"]
  /\ exists n, JSObject.arrayIndex "9" = Some n /\ (n <= 10)%N.
Proof.
  split; [reflexivity|].
  apply (proj1 array_indices_come_first
           [ArgumentElement "b"; NumberElement "10"; ArgumentElement "9";
            ArgumentElement "01"]
           [] "9" [] "10" ["b"; "01"] 10%N); reflexivity.
Defined.

End InferencerInvariants.

(** ** The type information of a unit *)

Section UnitInvariants.
Import JSObjectFacts JSSetFacts.

Variable parse : string -> result AST.

Lemma keyStep_Throw loadedLanguages ks e :
  fold_left (keyStep parse loadedLanguages) ks (Throw e) = Throw e.
Proof. induction ks as [|k ks IH]; cbn [fold_left keyStep]; auto. Qed.

(** A language on which the body of the loop throws. *)
Lemma languageLoop_throws key ls tr :
  In tr ls ->
  (forall s, exists e, languageStep parse key (Ok s) tr = Throw e) ->
  forall st, exists e, fold_left (languageStep parse key) ls st = Throw e.
Proof.
  intros Hin Hfail.
  induction ls as [|t ls IH]; [contradiction|].
  intros [s|e]; cbn [fold_left].
  - destruct Hin as [->|Hin].
    + destruct (Hfail s) as [e He]. rewrite He. exists e. apply languageStep_Throw.
    + apply (IH Hin).
  - exists e. cbn [languageStep]. apply languageStep_Throw.
Qed.

Lemma keysLoop_throws loadedLanguages ks key tr :
  In key ks -> In tr (JSObject.values loadedLanguages) ->
  (forall s, exists e, languageStep parse key (Ok s) tr = Throw e) ->
  forall st, exists e, fold_left (keyStep parse loadedLanguages) ks st = Throw e.
Proof.
  intros Hkey Htr Hfail.
  induction ks as [|k ks IH]; [contradiction|].
  intros [[tys imps]|e]; cbn [fold_left].
  - destruct Hkey as [->|Hkey].
    + destruct (languageLoop_throws key _ tr Htr Hfail
                  (Ok (initialKeyState imps))) as [e He].
      assert (Hstep : keyStep parse loadedLanguages (Ok (tys, imps)) key = Throw e).
      { cbn [keyStep]. unfold keyLoop.
        match goal with
        | |- match ?r with _ => _ end = _ =>
            assert (Hr : r = Throw e) by exact He; rewrite Hr
        end.
        reflexivity. }
      rewrite Hstep. exists e. apply keyStep_Throw.
    + apply (IH Hkey).
  - exists e. cbn [keyStep]. apply keyStep_Throw.
Qed.

Lemma step_throws_on_bad_message key tr d e0 :
  JSObject.get tr key = Some d -> parse (data_message d) = Throw e0 ->
  forall s, exists e, languageStep parse key (Ok s) tr = Throw e.
Proof.
  intros Hget Hfail s. exists e0.
  rewrite languageStep_Ok, (read_own _ _ _ Hget), Hfail. reflexivity.
Qed.

Lemma step_throws_on_inherited key tr :
  JSObject.read tr key = JSObject.Inherited ->
  forall s, exists e, languageStep parse key (Ok s) tr = Throw e.
Proof.
  intros Hread s. exists typeError. rewrite languageStep_Ok, Hread. reflexivity.
Qed.

Lemma keysLoop_fails loadedLanguages ks key tr d e0 :
  In key ks -> In tr (JSObject.values loadedLanguages) ->
  JSObject.get tr key = Some d -> parse (data_message d) = Throw e0 ->
  forall st, exists e, fold_left (keyStep parse loadedLanguages) ks st = Throw e.
Proof.
  intros Hkey Htr Hget Hfail.
  apply (keysLoop_throws loadedLanguages ks key tr Hkey Htr).
  apply (step_throws_on_bad_message key tr d e0 Hget Hfail).
Qed.

Lemma generateTypes_Ok_parsesAll loadedTranslation r :
  generateTypes parse loadedTranslation = Ok r -> parsesAll parse loadedTranslation.
Proof.
  intros Hok key Hkey tr Htr.
  assert (Hno : ~ (forall s, exists e, languageStep parse key (Ok s) tr = Throw e)).
  { intros Hfail.
    destruct (keysLoop_throws (languages loadedTranslation) (keys loadedTranslation)
                key tr Hkey Htr Hfail (Ok (JSObject.empty, JSSet.empty)))
      as [e He].
    unfold generateTypes in Hok. rewrite He in Hok. discriminate. }
  destruct (JSObject.read tr key) as [d| |] eqn:Hread.
  - destruct (parse (data_message d)) as [ast|e0] eqn:Hparse;
      [exists ast; reflexivity|].
    exfalso. apply Hno.
    apply (step_throws_on_bad_message key tr d e0 (read_Own_inv _ _ _ Hread) Hparse).
  - apply Hno, step_throws_on_inherited, Hread.
  - exact I.
Qed.

Lemma imports_fold_observe obs s0 b :
  ks_imports s0 = importsIf b ->
  ks_imports (fold_left observe obs s0)
  = importsIf (b || existsb extractHasTags (map snd obs)).
Proof.
  revert s0 b. induction obs as [|m obs IH]; intros s0 b Hs0;
    cbn [fold_left map existsb].
  - rewrite orb_false_r. exact Hs0.
  - rewrite (IH _ (b || extractHasTags (snd m))).
    + rewrite orb_assoc. reflexivity.
    + cbn [observe ks_imports]. rewrite Hs0, importsOf_exact.
      apply of_list_importsIf.
Qed.

Lemma hasTags_keyInfo loadedLanguages key :
  hasTags (keyInfo parse loadedLanguages key)
  = existsb extractHasTags
      (map snd (observed parse key (JSObject.values loadedLanguages))).
Proof.
  unfold keyInfo, typeInfoOf. cbn [hasTags]. rewrite hasTags_fold_observe.
  reflexivity.
Qed.

Lemma params_keyInfo loadedLanguages key name :
  JSObject.get (params (keyInfo parse loadedLanguages key)) name
  = JSObject.get
      (paramsOf (List.concat
                   (map snd (observed parse key (JSObject.values loadedLanguages)))))
      name.
Proof.
  unfold keyInfo, typeInfoOf. cbn [params].
  rewrite params_fold_observe by apply wf_empty.
  apply laterWins_None_r.
Qed.

Lemma fold_keyStep_imports loadedLanguages ks :
  (forall key, In key ks -> parsesKey parse loadedLanguages key) ->
  forall translationTypes imports b, imports = importsIf b ->
  exists translationTypes',
    fold_left (keyStep parse loadedLanguages) ks (Ok (translationTypes, imports))
    = Ok (translationTypes',
          importsIf (b || existsb (fun key =>
                                     hasTags (keyInfo parse loadedLanguages key)) ks)).
Proof.
  induction ks as [|k ks IH]; intros Hparse tys imps b ->.
  - exists tys. cbn [fold_left existsb]. rewrite orb_false_r. reflexivity.
  - cbn [fold_left keyStep existsb].
    rewrite (keyLoop_observed parse k loadedLanguages (importsIf b)
               (Hparse k (or_introl eq_refl))).
    destruct (IH (fun key Hin => Hparse key (or_intror Hin))
                (JSObject.set tys k
                   (typeInfoOf
                      (fold_left observe
                         (observed parse k (JSObject.values loadedLanguages))
                         (initialKeyState (importsIf b)))))
                (ks_imports
                   (fold_left observe
                      (observed parse k (JSObject.values loadedLanguages))
                      (initialKeyState (importsIf b))))
                (b || hasTags (keyInfo parse loadedLanguages k)))
      as [tys' Hfold].
    + rewrite hasTags_keyInfo. apply imports_fold_observe. reflexivity.
    + exists tys'. rewrite Hfold, orb_assoc. reflexivity.
Qed.

(** What the loops of [generateRuntime] leave behind when they return. *)
Lemma generateTypes_inv loadedTranslation translationTypes imports :
  generateTypes parse loadedTranslation = Ok (translationTypes, imports) ->
  JSObject.wf translationTypes
  /\ (forall key, In key (keys loadedTranslation) ->
        JSObject.get translationTypes key
        = Some (keyInfo parse (languages loadedTranslation) key))
  /\ (forall key, ~ In key (keys loadedTranslation) ->
        JSObject.get translationTypes key = None)
  /\ imports
     = importsIf (existsb (fun key =>
                             hasTags (keyInfo parse (languages loadedTranslation) key))
                    (keys loadedTranslation)).
Proof.
  intros Hok. pose proof (generateTypes_Ok_parsesAll _ _ Hok) as Hp.
  unfold generateTypes in Hok.
  destruct (fold_keyStep parse (languages loadedTranslation)
              (keys loadedTranslation) Hp JSObject.empty JSSet.empty wf_empty)
    as (tys & imps & Hfold & Hwf & Hget).
  rewrite Hfold in Hok. inversion Hok; subst tys imps. clear Hok.
  split; [exact Hwf|]. split; [intros key Hin; apply Hget, Hin|].
  split; [intros key Hnin; apply (proj2 (Hget key) Hnin)|].
  destruct (fold_keyStep_imports (languages loadedTranslation)
              (keys loadedTranslation) Hp JSObject.empty JSSet.empty false eq_refl)
    as [tys' Hfold'].
  rewrite Hfold in Hfold'. inversion Hfold'. reflexivity.
Qed.

Lemma generateTypes_entry_inv loadedTranslation translationTypes imports key info :
  generateTypes parse loadedTranslation = Ok (translationTypes, imports) ->
  JSObject.get translationTypes key = Some info ->
  In key (keys loadedTranslation)
  /\ info = keyInfo parse (languages loadedTranslation) key.
Proof.
  intros Hok Hget.
  destruct (generateTypes_inv _ _ _ Hok) as (_ & Hin & Hout & _).
  destruct (in_dec string_dec key (keys loadedTranslation)) as [Hkey|Hkey].
  - split; [exact Hkey|]. rewrite (Hin key Hkey) in Hget. inversion Hget. reflexivity.
  - rewrite (Hout key Hkey) in Hget. discriminate.
Qed.

End UnitInvariants.

Section UnitProperties.
Import JSObjectFacts JSSetFacts.

Lemma get_Some_In {A : Type} (o : JSObject.t A) k v :
  JSObject.get o k = Some v -> In (k, v) o.
Proof.
  induction o as [|[k0 v0] o IH]; cbn [JSObject.get]; [discriminate|].
  destruct (String.eqb_spec k0 k) as [->|_].
  - intros E. inversion E. left. reflexivity.
  - intros Hget. right. apply IH, Hget.
Qed.

Lemma In_get_wf {A : Type} (o : JSObject.t A) k v :
  JSObject.wf o -> In (k, v) o -> JSObject.get o k = Some v.
Proof.
  unfold JSObject.wf. induction o as [|[k0 v0] o IH]; [contradiction|].
  cbn [JSObject.keys map fst JSObject.get]. intros Hnd [E|Hin].
  - inversion E; subst. rewrite String.eqb_refl. reflexivity.
  - inversion Hnd as [|? ? Hnin Hnd']; subst.
    destruct (String.eqb_spec k0 k) as [->|_].
    + exfalso. apply Hnin. apply in_map_iff. exists (k, v). auto.
    + apply IH; assumption.
Qed.

Lemma get_Some_nonempty {A : Type} (o : JSObject.t A) k :
  JSObject.get o k <> None ->
  Nat.ltb 0 (List.length (JSObject.keys o)) = true.
Proof. destruct o; [intros Hne; contradiction|reflexivity]. Qed.

(** X4.  A message that does not parse, under any key of the unit, makes
    [generateRuntime] throw before anything is written: the world is left
    exactly as it was. *)
Theorem parse_failure_aborts_generation {F : Type} `{FileSystem F}
    parse stringifyMessages PrettierConfig resolveConfig format
    getTSFileFromDevLanguageFile loadedTranslation key tr d e0 (w : World F) :
  In key (keys loadedTranslation) ->
  In tr (JSObject.values (languages loadedTranslation)) ->
  JSObject.get tr key = Some d ->
  parse (data_message d) = Throw e0 ->
  exists e,
    generateRuntime parse stringifyMessages PrettierConfig resolveConfig format
      getTSFileFromDevLanguageFile loadedTranslation w
    = (Throw e, w).
Proof.
  intros Hkey Htr Hget Hfail.
  destruct (keysLoop_fails parse (languages loadedTranslation)
              (keys loadedTranslation) key tr d e0 Hkey Htr Hget Hfail
              (Ok (JSObject.empty, JSSet.empty))) as [e He].
  exists e. unfold generateRuntime, Eff.bind, Eff.lift, declarationOf, generateTypes.
  rewrite He. reflexivity.
Qed.

Lemma parse_failure_aborts_generation_witness :
  exists e, Sample.generate Sample.broken Sample.emptyWorld
            = (Throw e, Sample.emptyWorld).
Proof.
  apply (parse_failure_aborts_generation Sample.parse Sample.stringifyMessages unit
           Sample.resolveConfig Sample.format Sample.getTSFileFromDevLanguageFile
           Sample.broken "bye" [("hello", Sample.msg "Hello"); ("bye", Sample.msg "Bye {")]
           (Sample.msg "Bye {") (MkError "SyntaxError") Sample.emptyWorld).
  - simpl. auto.
  - simpl. auto.
  - reflexivity.
  - reflexivity.
Defined.

(** X19.  A key of the unit that some language does not have, and whose
    name is the name of a property of [Object.prototype] - [constructor],
    [toString], [__proto__] and the like - makes [generateRuntime] throw
    before anything is written: the read finds the inherited value. *)
Theorem inherited_key_aborts_generation {F : Type} `{FileSystem F}
    parse stringifyMessages PrettierConfig resolveConfig format
    getTSFileFromDevLanguageFile loadedTranslation key tr (w : World F) :
  In key (keys loadedTranslation) ->
  In tr (JSObject.values (languages loadedTranslation)) ->
  JSObject.get tr key = None ->
  In key JSObject.inheritedNames ->
  exists e,
    generateRuntime parse stringifyMessages PrettierConfig resolveConfig format
      getTSFileFromDevLanguageFile loadedTranslation w
    = (Throw e, w).
Proof.
  intros Hkey Htr Hget Hname.
  assert (Hread : JSObject.read tr key = JSObject.Inherited).
  { unfold JSObject.read, JSObject.inherits. rewrite Hget.
    assert (Hin : existsb (String.eqb key) JSObject.inheritedNames = true).
    { apply existsb_exists. exists key. split; [exact Hname|apply String.eqb_refl]. }
    rewrite Hin. reflexivity. }
  destruct (keysLoop_throws parse (languages loadedTranslation)
              (keys loadedTranslation) key tr Hkey Htr
              (step_throws_on_inherited parse key tr Hread)
              (Ok (JSObject.empty, JSSet.empty))) as [e He].
  exists e. unfold generateRuntime, Eff.bind, Eff.lift, declarationOf, generateTypes.
  rewrite He. reflexivity.
Qed.

Lemma inherited_key_aborts_generation_witness :
  exists e, Sample.generate Sample.constructorKey Sample.emptyWorld
            = (Throw e, Sample.emptyWorld).
Proof.
  apply (inherited_key_aborts_generation Sample.parse Sample.stringifyMessages unit
           Sample.resolveConfig Sample.format Sample.getTSFileFromDevLanguageFile
           Sample.constructorKey "constructor" [] Sample.emptyWorld).
  - simpl. auto.
  - simpl. auto.
  - reflexivity.
  - simpl. auto.
Defined.

(** X20.  A key of the unit that no language has, and that is not the
    name of an inherited property, is not skipped by the loops of
    [generateRuntime]: when they return, the key has its entry - no
    parameters, no markup, an empty message union - and the accessor-type
    object holds [() => ], with nothing after the arrow, under the key.
    This is part of the text that is handed to prettier:
    [generateRuntime] goes on to write what prettier returns for it, or
    throws what prettier throws. *)
Theorem untranslated_key_entry parse loadedTranslation key :
  In key (keys loadedTranslation) ->
  JSObject.inherits key = false ->
  (forall tr, In tr (JSObject.values (languages loadedTranslation)) ->
              JSObject.get tr key = None) ->
  forall translationTypes imports,
    generateTypes parse loadedTranslation = Ok (translationTypes, imports) ->
    JSObject.get translationTypes key
    = Some {| params := JSObject.empty; message := "";
              returnType := "string"; hasTags := false |}
    /\ JSObject.get (translationsType translationTypes) (encodeBackslash key)
       = Some (VString "() => ")
    /\ (forall (F : Type) (FS : FileSystem F) stringifyMessages PrettierConfig
               (resolveConfig : string -> result PrettierConfig) format
               getTSFileFromDevLanguageFile (w : World F),
           generateRuntime parse stringifyMessages PrettierConfig resolveConfig
             format getTSFileFromDevLanguageFile loadedTranslation w
           = match resolveConfig (filePath loadedTranslation) with
             | Throw e => (Throw e, w)
             | Ok prettierConfig =>
                 match format
                         (serialiseTranslationRuntime stringifyMessages
                            translationTypes imports loadedTranslation)
                         prettierConfig with
                 | Throw e => (Throw e, w)
                 | Ok declaration =>
                     writeIfChanged
                       (getTSFileFromDevLanguageFile (filePath loadedTranslation))
                       declaration w
                 end
             end).
Proof.
  intros Hkey Hown Hnone tys imps Hgen.
  destruct (untranslated_key_info parse (languages loadedTranslation) key
              Hown Hnone) as (_ & _ & Hinfo).
  destruct (generateTypes_inv parse _ _ _ Hgen) as (Hwf & Hentries & _).
  assert (Hne : key <> "__proto__").
  { intros ->. rewrite inherits_proto in Hown. discriminate. }
  split; [rewrite (Hentries key Hkey), Hinfo; reflexivity|].
  split.
  - rewrite get_translationsType by assumption.
    rewrite (Hentries key Hkey), Hinfo. reflexivity.
  - intros F FS stringifyMessages PrettierConfig resolveConfig format
      getTSFileFromDevLanguageFile w.
    apply generateRuntime_after_loops, Hgen.
Qed.

Lemma untranslated_key_entry_witness :
  exists translationTypes imports,
    generateTypes Sample.parse Sample.untranslated = Ok (translationTypes, imports)
    /\ JSObject.get translationTypes "orphan"
       = Some {| params := JSObject.empty; message := "";
                 returnType := "string"; hasTags := false |}
    /\ JSObject.get (translationsType translationTypes) (encodeBackslash "orphan")
       = Some (VString "() => ").
Proof.
  do 2 eexists. split; [reflexivity|].
  destruct (untranslated_key_entry Sample.parse Sample.untranslated "orphan")
    with (translationTypes :=
            [("hello", keyInfo Sample.parse (languages Sample.untranslated) "hello");
             ("orphan", keyInfo Sample.parse (languages Sample.untranslated) "orphan")])
         (imports := JSSet.empty)
    as (Hentry & Htype & _).
  - simpl. auto.
  - reflexivity.
  - intros tr [<-|[<-|[]]]; reflexivity.
  - reflexivity.
  - split; [exact Hentry|exact Htype].
Defined.

(** X5.  When the loops of [generateRuntime] return, the map of type
    information has exactly the keys of the unit, each once - a key
    listed twice gets one entry - and nothing else. *)
Theorem one_entry_per_key parse loadedTranslation translationTypes imports :
  generateTypes parse loadedTranslation = Ok (translationTypes, imports) ->
  NoDup (JSObject.keys translationTypes)
  /\ forall key,
      In key (JSObject.keys translationTypes) <-> In key (keys loadedTranslation).
Proof.
  intros Hok. destruct (generateTypes_inv parse _ _ _ Hok) as (Hwf & Hin & Hout & _).
  split; [exact Hwf|]. intros key. split.
  - intros Hk.
    destruct (in_dec string_dec key (keys loadedTranslation)) as [Hkey|Hkey];
      [exact Hkey|].
    apply Hout, get_None in Hkey. contradiction.
  - intros Hkey.
    destruct (in_dec string_dec key (JSObject.keys translationTypes)) as [Hk|Hk];
      [exact Hk|].
    apply get_None in Hk. rewrite (Hin key Hkey) in Hk. discriminate.
Qed.

Lemma one_entry_per_key_witness :
  exists translationTypes imports,
    generateTypes Sample.parse Sample.untranslated = Ok (translationTypes, imports)
    /\ NoDup (JSObject.keys translationTypes)
    /\ forall key,
        In key (JSObject.keys translationTypes) <-> In key ["hello"; "orphan"].
Proof.
  eexists. eexists. split; [reflexivity|].
  apply (one_entry_per_key Sample.parse Sample.untranslated _ _ eq_refl).
Defined.

(** X6.  The merged parameter object of a key holds exactly the placeholder
    names met, below tags and select options, in the message of some
    language that has the key - except the name [__proto__], which it
    never holds. *)
Theorem key_parameters_are_the_names_met parse loadedTranslation translationTypes
    imports key info name :
  generateTypes parse loadedTranslation = Ok (translationTypes, imports) ->
  JSObject.get translationTypes key = Some info ->
  (In name (JSObject.keys (params info)) <->
   name <> "__proto__"
   /\ exists tr d ast ty,
       In tr (JSObject.values (languages loadedTranslation))
       /\ JSObject.get tr key = Some d
       /\ parse (data_message d) = Ok ast
       /\ Occurs ast name ty).
Proof.
  intros Hok Hentry.
  destruct (generateTypes_entry_inv parse _ _ _ _ _ Hok Hentry) as [Hkey ->].
  rewrite In_keys, params_keyInfo. split.
  - intros Hin. split.
    + intros ->. apply Hin, paramsOf_noProto.
    + destruct (JSObject.get
                  (paramsOf
                     (List.concat
                        (map snd
                           (observed parse key
                              (JSObject.values (languages loadedTranslation))))))
                  name) as [ty|] eqn:Hget; [|contradiction].
      apply get_paramsOf_concat_Some in Hget. destruct Hget as (ast & Hast & Hget).
      apply in_map_iff in Hast. destruct Hast as ([m a] & <- & Hobs).
      apply In_observed in Hobs. destruct Hobs as (tr & d & Htr & Hd & <- & Hparse).
      exists tr, d, a, ty. repeat split; try assumption.
      apply entry_has_placeholder, Hget.
  - intros (Hne & tr & d & ast & ty & Htr & Hd & Hparse & Hocc).
    apply (present_in_concat _ ast).
    + apply in_map_iff. exists (data_message d, ast). split; [reflexivity|].
      apply In_observed. exists tr, d. auto.
    + apply (placeholder_has_entry ast name ty Hne Hocc).
Qed.

Lemma key_parameters_are_the_names_met_witness :
  exists translationTypes imports info,
    generateTypes Sample.parse Sample.greeting = Ok (translationTypes, imports)
    /\ JSObject.get translationTypes "hello" = Some info
    /\ (In "name" (JSObject.keys (params info)) <->
        "name" <> "__proto__"
        /\ exists tr d ast ty,
            In tr (JSObject.values (languages Sample.greeting))
            /\ JSObject.get tr "hello" = Some d
            /\ Sample.parse (data_message d) = Ok ast
            /\ Occurs ast "name" ty).
Proof.
  do 3 eexists. split; [reflexivity|]. split; [reflexivity|].
  apply (key_parameters_are_the_names_met Sample.parse Sample.greeting _ _ "hello"
           _ "name" eq_refl eq_refl).
Defined.

End UnitProperties.

(** ** Accessor types *)

Section AccessorProperties.
Import JSObjectFacts JSSetFacts.

Lemma union_is_not_the_tag_type (labels : list string) :
  join " | " (map quoted labels) <> "FormatXMLElementFn<T>".
Proof.
  destruct labels as [|l [|l' ls]]; cbn; discriminate.
Qed.

Lemma tag_type_means_markup (ast : AST) name :
  Occurs ast name "FormatXMLElementFn<T>" -> extractHasTags ast = true.
Proof.
  intros Hocc. remember "FormatXMLElementFn<T>" as ty eqn:Hty.
  induction Hocc as [pre n post|pre n post|pre n options post
                    |pre n post|pre n post|pre n children post
                    |pre n options post
                    |pre v children post n ty _ _
                    |pre v options post selector branch n ty Hin _ IH];
    try discriminate Hty.
  - apply extractHasTags_reachable. constructor.
  - exfalso. exact (union_is_not_the_tag_type _ Hty).
  - apply extractHasTags_reachable. constructor.
  - apply extractHasTags_reachable.
    apply (TR_select pre v options post selector branch Hin).
    apply extractHasTags_inv, IH, Hty.
Qed.

Lemma isTagName_not_proto value : isTagName value = true -> value <> "__proto__".
Proof. intros Hname ->. discriminate Hname. Qed.

(** A tag that [extractHasTags] reaches is met by [extractParamTypes]
    too, and its name, which starts with a letter, is not [__proto__]. *)
Lemma reachable_tag_occurs (ast : AST) :
  tagsNamed ast = true ->
  TagReachable ast ->
  exists name ty, name <> "__proto__" /\ Occurs ast name ty.
Proof.
  intros Hnamed Hreach. revert Hnamed.
  induction Hreach as [pre v children post
                      |pre v options post selector branch Hin _ IH];
    intros Hnamed; unfold tagsNamed in Hnamed;
    rewrite forallb_forall in Hnamed.
  - specialize (Hnamed (TagElement v children) (in_elt _ _ _)).
    cbn [elementTagsNamed] in Hnamed. apply andb_prop in Hnamed.
    exists v, "FormatXMLElementFn<T>".
    split; [apply isTagName_not_proto, Hnamed|constructor].
  - specialize (Hnamed (SelectElement v options) (in_elt _ _ _)).
    cbn [elementTagsNamed] in Hnamed. rewrite forallb_forall in Hnamed.
    specialize (Hnamed (selector, branch) Hin). cbn [snd] in Hnamed.
    destruct (IH Hnamed) as (name & ty & Hne & Hocc).
    exists name, ty. split; [exact Hne|].
    apply (Occ_in_select pre v options post selector branch); assumption.
Qed.

Lemma Sample_parse_names_tags : parserNamesTags Sample.parse.
Proof.
  intros message ast. unfold Sample.parse.
  destruct (JSObject.get Sample.messages message) as [a|] eqn:Hget;
    [|discriminate].
  intros E. inversion E; subst a. apply get_Some_In in Hget.
  unfold Sample.messages in Hget.
  repeat (destruct Hget as [Hget|Hget]; [inversion Hget; reflexivity|]).
  contradiction.
Qed.

Lemma generic_accessor info :
  JSObject.keys (params info) <> [] -> hasTags info = true ->
  translationFunctionString info
  = "<T = string>(values: " ++ serialiseObjectToType (stringProps (params info))
    ++ ") => string | T | Array<string | T>".
Proof.
  unfold translationFunctionString. intros Hne ->.
  destruct (JSObject.keys (params info)); [contradiction|reflexivity].
Qed.

(** X7.  A parameter of the tag-callback type [FormatXMLElementFn<T>] never
    appears without its type variable: the key then has its markup flag
    set, and its accessor type declares [<T = string>]. *)
Theorem type_variable_in_scope parse loadedTranslation translationTypes imports
    key info name :
  generateTypes parse loadedTranslation = Ok (translationTypes, imports) ->
  JSObject.get translationTypes key = Some info ->
  JSObject.get (params info) name = Some "FormatXMLElementFn<T>" ->
  hasTags info = true
  /\ translationFunctionString info
     = "<T = string>(values: " ++ serialiseObjectToType (stringProps (params info))
       ++ ") => string | T | Array<string | T>".
Proof.
  intros Hok Hentry Hparam.
  assert (Hne : JSObject.keys (params info) <> []).
  { intros Hnil. destruct (params info); [discriminate Hparam|discriminate Hnil]. }
  destruct (generateTypes_entry_inv parse _ _ _ _ _ Hok Hentry) as [Hkey ->].
  assert (Hflag : hasTags (keyInfo parse (languages loadedTranslation) key) = true).
  { rewrite params_keyInfo in Hparam.
    apply get_paramsOf_concat_Some in Hparam. destruct Hparam as (ast & Hast & Hget).
    rewrite hasTags_keyInfo. apply existsb_exists. exists ast. split; [exact Hast|].
    apply (tag_type_means_markup ast name), entry_has_placeholder, Hget. }
  split; [exact Hflag|]. apply generic_accessor; assumption.
Qed.

Lemma type_variable_in_scope_witness :
  exists translationTypes imports info,
    generateTypes Sample.parse Sample.markup = Ok (translationTypes, imports)
    /\ JSObject.get translationTypes "hello" = Some info
    /\ hasTags info = true
    /\ translationFunctionString info
       = "<T = string>(values: " ++ serialiseObjectToType (stringProps (params info))
         ++ ") => string | T | Array<string | T>".
Proof.
  do 3 eexists. split; [reflexivity|]. split; [reflexivity|].
  apply (type_variable_in_scope Sample.parse Sample.markup _ _ "hello" _ "b"
           eq_refl eq_refl eq_refl).
Defined.

(** X8.  A key whose markup flag is set always has parameters: its accessor
    type is the generic one that takes [values], never the
    zero-argument form.  (The parser gives every tag a name that starts
    with a letter.) *)
Theorem markup_key_takes_values parse loadedTranslation translationTypes imports
    key info :
  parserNamesTags parse ->
  generateTypes parse loadedTranslation = Ok (translationTypes, imports) ->
  JSObject.get translationTypes key = Some info ->
  hasTags info = true ->
  JSObject.keys (params info) <> []
  /\ translationFunctionString info
     = "<T = string>(values: " ++ serialiseObjectToType (stringProps (params info))
       ++ ") => string | T | Array<string | T>".
Proof.
  intros Hparser Hok Hentry Hflag.
  destruct (generateTypes_entry_inv parse _ _ _ _ _ Hok Hentry) as [Hkey ->].
  assert (Hne : JSObject.keys
                  (params (keyInfo parse (languages loadedTranslation) key)) <> []).
  { rewrite hasTags_keyInfo in Hflag. apply existsb_exists in Hflag.
    destruct Hflag as (ast & Hast & Htags).
    assert (Hnamed : tagsNamed ast = true).
    { apply in_map_iff in Hast. destruct Hast as ([m a] & <- & Hobs).
      apply In_observed in Hobs. destruct Hobs as (tr & d & _ & _ & _ & Hparse).
      apply (Hparser m a Hparse). }
    destruct (reachable_tag_occurs ast Hnamed (extractHasTags_inv ast Htags))
      as (name & ty & Hname & Hocc).
    assert (Hget : JSObject.get
                     (params (keyInfo parse (languages loadedTranslation) key)) name
                   <> None).
    { rewrite params_keyInfo. apply (present_in_concat _ ast name Hast).
      apply (placeholder_has_entry ast name ty Hname Hocc). }
    intros Hnil. apply Hget.
    destruct (params (keyInfo parse (languages loadedTranslation) key));
      [reflexivity|discriminate Hnil]. }
  split; [exact Hne|]. apply generic_accessor; assumption.
Qed.

Lemma markup_key_takes_values_witness :
  exists translationTypes imports info,
    generateTypes Sample.parse Sample.markup = Ok (translationTypes, imports)
    /\ JSObject.get translationTypes "hello" = Some info
    /\ JSObject.keys (params info) <> []
    /\ translationFunctionString info
       = "<T = string>(values: " ++ serialiseObjectToType (stringProps (params info))
         ++ ") => string | T | Array<string | T>".
Proof.
  do 3 eexists. split; [reflexivity|]. split; [reflexivity|].
  apply (markup_key_takes_values Sample.parse Sample.markup _ _ "hello" _
           Sample_parse_names_tags eq_refl eq_refl eq_refl).
Defined.

(** X9.  The imports handed to the serialiser are the FormatXMLElementFn
    import alone when some key of the unit has its markup flag set, and
    none otherwise. *)
Theorem unit_imports_follow_markup parse loadedTranslation translationTypes imports :
  generateTypes parse loadedTranslation = Ok (translationTypes, imports) ->
  imports
  = if existsb (fun entry => hasTags (snd entry)) translationTypes
    then [formatXMLElementFnImport] else [].
Proof.
  intros Hok.
  destruct (generateTypes_inv parse _ _ _ Hok) as (Hwf & Hin & _ & ->).
  assert (Hsame :
            existsb (fun key =>
                       hasTags (keyInfo parse (languages loadedTranslation) key))
              (keys loadedTranslation)
            = existsb (fun entry => hasTags (snd entry)) translationTypes).
  { apply Bool.eq_true_iff_eq. rewrite !existsb_exists. split.
    - intros (key & Hkey & Hflag).
      exists (key, keyInfo parse (languages loadedTranslation) key).
      split; [apply get_Some_In, Hin, Hkey|exact Hflag].
    - intros ([key info] & Hentry & Hflag). cbn [snd] in Hflag.
      apply (In_get_wf _ _ _ Hwf) in Hentry.
      destruct (generateTypes_entry_inv parse _ _ _ _ _ Hok Hentry) as [Hkey ->].
      exists key. auto. }
  unfold importsIf. rewrite Hsame. reflexivity.
Qed.

Lemma unit_imports_follow_markup_witness :
  exists translationTypes imports,
    generateTypes Sample.parse Sample.markup = Ok (translationTypes, imports)
    /\ imports
       = if existsb (fun entry => hasTags (snd entry)) translationTypes
         then [formatXMLElementFnImport] else [].
Proof.
  do 2 eexists. split; [reflexivity|].
  apply (unit_imports_follow_markup Sample.parse Sample.markup _ _ eq_refl).
Defined.

Lemma decimal_encodeBackslash k acc :
  JSObject.decimal (encodeBackslash k) acc = JSObject.decimal k acc.
Proof.
  revert acc. induction k as [|c k IH]; intros acc; cbn [encodeBackslash];
    [reflexivity|].
  destruct (Ascii.eqb_spec c "\"%char) as [->|_]; [reflexivity|].
  cbn [JSObject.decimal]. destruct (JSObject.digitOf c); [apply IH|reflexivity].
Qed.

Lemma encodeBackslash_empty k : String.eqb (encodeBackslash k) "" = String.eqb k "".
Proof.
  destruct k as [|c k]; cbn [encodeBackslash]; [reflexivity|].
  destruct (Ascii.eqb c "\"%char); reflexivity.
Qed.

(** Doubling the backslashes of a key does not change whether it is an
    array index. *)
Lemma arrayIndex_encodeBackslash k :
  JSObject.arrayIndex (encodeBackslash k) = JSObject.arrayIndex k.
Proof.
  destruct k as [|c k]; [reflexivity|].
  pose proof (decimal_encodeBackslash (String c k) 0%N) as Hdec.
  cbn [encodeBackslash] in Hdec |- *.
  destruct (Ascii.eqb_spec c "\"%char) as [->|_].
  - reflexivity.
  - unfold JSObject.arrayIndex. rewrite encodeBackslash_empty, Hdec. reflexivity.
Qed.

Lemma place_last {A : Type} (o : JSObject.t A) k v :
  JSObject.arrayIndex k = None -> JSObject.place o k v = (o ++ [(k, v)])%list.
Proof.
  intros Hk. induction o as [|[k0 v0] o IH]; cbn [JSObject.place app];
    [reflexivity|].
  unfold JSObject.precedes at 1. rewrite Hk. f_equal. exact IH.
Qed.

(** A new name that is neither [__proto__] nor an array index goes
    last. *)
Lemma assign_fresh {A : Type} (o : JSObject.t A) k v :
  ~ In k (JSObject.keys o) -> k <> "__proto__" -> JSObject.arrayIndex k = None ->
  JSObject.assign o k v = (o ++ [(k, v)])%list.
Proof.
  intros Hnin Hne Hk. unfold JSObject.assign.
  apply get_None in Hnin. rewrite Hnin.
  destruct (String.eqb_spec k "__proto__"); [contradiction|].
  apply place_last, Hk.
Qed.

Lemma translationsType_in_key_order (value : JSObject.t TranslationTypeInfo) :
  JSObject.wf value ->
  Forall (fun key => key <> "__proto__" /\ JSObject.arrayIndex key = None)
    (JSObject.keys value) ->
  translationsType value
  = map (fun entry => (encodeBackslash (fst entry),
                       VString (translationFunctionString (snd entry)))) value.
Proof.
  unfold translationsType, JSObject.entries, JSObject.wf.
  set (f := fun entry : string * TranslationTypeInfo =>
              (encodeBackslash (fst entry),
               VString (translationFunctionString (snd entry)))).
  assert (Hgen : forall acc : JSObject.t JSValue,
             NoDup (JSObject.keys value) ->
             Forall (fun key => key <> "__proto__" /\ JSObject.arrayIndex key = None)
               (JSObject.keys value) ->
             (forall k, In k (JSObject.keys value) ->
                        ~ In (encodeBackslash k) (JSObject.keys acc)) ->
             fold_left
               (fun acc kv => JSObject.assign acc (encodeBackslash (fst kv))
                                (VString (translationFunctionString (snd kv))))
               value acc
             = (acc ++ map f value)%list).
  { induction value as [|[k0 v0] value' IH]; intros acc Hnd Hplain Hfresh.
    - cbn. rewrite app_nil_r. reflexivity.
    - cbn [fold_left fst snd map]. cbn [JSObject.keys map fst] in Hnd, Hplain, Hfresh.
      inversion Hnd as [|? ? Hnin Hnd']; subst.
      inversion Hplain as [|? ? [Hk0 Hidx] Hplain']; subst.
      rewrite assign_fresh.
      + rewrite IH.
        * rewrite <- app_assoc. reflexivity.
        * exact Hnd'.
        * exact Hplain'.
        * intros k Hk Hin. unfold JSObject.keys in Hin.
          rewrite map_app, in_app_iff in Hin. destruct Hin as [Hin|[E|[]]].
          -- apply (Hfresh k (or_intror Hk)). exact Hin.
          -- cbn [fst] in E. apply encodeBackslash_inj in E. subst. contradiction.
      + apply Hfresh. left. reflexivity.
      + intros E. apply Hk0, encodeBackslash_proto, E.
      + rewrite arrayIndex_encodeBackslash. exact Hidx. }
  intros Hwf Hplain. rewrite (Hgen JSObject.empty Hwf Hplain); [reflexivity|].
  intros k _ [].
Qed.

Lemma serialiseObjectToType_unfold (v : JSObject.t JSValue) :
  serialiseObjectToType v
  = "{ "
    ++ fold_left
         (fun (result : string) (kv : string * JSValue) =>
            result ++ "'" ++ encodeWithinSingleQuotes (fst kv) ++ "': "
            ++ serialiseValue (snd kv) ++ ",")
         v ""
    ++ " }".
Proof. reflexivity. Qed.

(** X10.  For a map whose keys are neither array indices nor [__proto__],
    the accessor-type object lists the keys in the map's order, each with
    its backslashes doubled and with its own accessor type - no two keys
    fall together - and its serialisation is, between the braces, one
    ['key': accessor,] per key, the key embedded with both encoders. *)
Theorem serialised_accessors_in_key_order (value : JSObject.t TranslationTypeInfo) :
  JSObject.wf value ->
  Forall (fun key => key <> "__proto__" /\ JSObject.arrayIndex key = None)
    (JSObject.keys value) ->
  translationsType value
  = map (fun entry => (encodeBackslash (fst entry),
                       VString (translationFunctionString (snd entry)))) value
  /\ serialiseObjectToType (translationsType value)
     = "{ " ++ String.concat "" (map accessorEntry value) ++ " }".
Proof.
  intros Hwf Hplain. rewrite (translationsType_in_key_order value Hwf Hplain).
  split; [reflexivity|].
  rewrite serialiseObjectToType_unfold.
  assert (Hgen : forall acc,
    fold_left
      (fun (result : string) (kv : string * JSValue) =>
         result ++ "'" ++ encodeWithinSingleQuotes (fst kv) ++ "': "
         ++ serialiseValue (snd kv) ++ ",")
      (map (fun entry : string * TranslationTypeInfo =>
              (encodeBackslash (fst entry),
               VString (translationFunctionString (snd entry)))) value) acc
    = acc ++ String.concat "" (map accessorEntry value)).
  { clear Hwf Hplain. induction value as [|[k info] value' IH]; intros acc.
    - cbn. rewrite string_app_nil_r. reflexivity.
    - cbn [map fold_left fst snd serialiseValue]. rewrite IH, concat_empty_cons.
      unfold accessorEntry, embedKey. rewrite quoted_cons. cbn [fst snd].
      rewrite !string_app_assoc. cbn [append]. rewrite !string_app_assoc.
      reflexivity. }
  rewrite Hgen. reflexivity.
Qed.

Lemma serialised_accessors_in_key_order_witness :
  serialiseObjectToType
    (translationsType
       [("a\b", keyInfo Sample.parse (languages Sample.hello) "hello");
        ("it's", keyInfo Sample.parse (languages Sample.greeting) "hello")])
  = "{ 'a\\b': () => 'Hello' | 'Bonjour','it\'s': (values: { 'name': number, }) => string, }".
Proof.
  assert (Hwf : JSObject.wf
                  [("a\b", keyInfo Sample.parse (languages Sample.hello) "hello");
                   ("it's", keyInfo Sample.parse (languages Sample.greeting) "hello")])
    by (repeat constructor; simpl; intuition discriminate).
  assert (Hplain :
            Forall (fun key => key <> "__proto__" /\ JSObject.arrayIndex key = None)
              (JSObject.keys
                 [("a\b", keyInfo Sample.parse (languages Sample.hello) "hello");
                  ("it's", keyInfo Sample.parse (languages Sample.greeting) "hello")]))
    by (repeat constructor; discriminate).
  rewrite (proj2 (serialised_accessors_in_key_order _ Hwf Hplain)). reflexivity.
Defined.

(** Keys that are array indices are listed first, in ascending order,
    whatever their place in the map. *)
Lemma numbered_keys_come_first :
  exists translationTypes imports,
    generateTypes Sample.parse Sample.numbered = Ok (translationTypes, imports)
    /\ JSObject.keys translationTypes = ["b"; "10"; "9"; "01"]
    /\ JSObject.keys (translationsType translationTypes) = ["9"; "10"; "b"; "01"].
Proof. do 2 eexists. split; [vm_compute; reflexivity|]. split; reflexivity. Qed.

End AccessorProperties.

(** ** Embedding strings in the generated text *)

Section Embedding.

Lemma encodeWithinSingleQuotes_head s c rest :
  encodeWithinSingleQuotes s = String c rest -> c <> "'"%char.
Proof.
  destruct s as [|d s]; cbn [encodeWithinSingleQuotes]; [discriminate|].
  destruct (Ascii.eqb_spec d "'"%char) as [->|Hd]; intros E; inversion E; subst.
  - discriminate.
  - exact Hd.
Qed.

Lemma encodeWithinSingleQuotes_inj a b :
  encodeWithinSingleQuotes a = encodeWithinSingleQuotes b -> a = b.
Proof.
  revert b. induction a as [|c a IH]; intros [|d b]; cbn [encodeWithinSingleQuotes].
  - reflexivity.
  - destruct (Ascii.eqb d "'"%char); discriminate.
  - destruct (Ascii.eqb c "'"%char); discriminate.
  - destruct (Ascii.eqb_spec c "'"%char) as [->|Hc],
             (Ascii.eqb_spec d "'"%char) as [->|Hd]; intros E.
    + injection E as E. f_equal. apply IH, E.
    + injection E as E1 E2. symmetry in E2.
      exfalso. exact (encodeWithinSingleQuotes_head _ _ _ E2 eq_refl).
    + injection E as E1 E2.
      exfalso. exact (encodeWithinSingleQuotes_head _ _ _ E2 eq_refl).
    + injection E as E1 E2. subst. f_equal. apply IH, E2.
Qed.

Lemma append_last_inj (x y : string) c :
  x ++ String c "" = y ++ String c "" -> x = y.
Proof.
  revert y. induction x as [|a x IH]; intros [|b y]; cbn [append]; intros E.
  - reflexivity.
  - injection E as _ E. destruct y; discriminate E.
  - injection E as _ E. destruct x; discriminate E.
  - injection E as -> E. f_equal. apply IH, E.
Qed.

Lemma quoted_inj a b : quoted a = quoted b -> a = b.
Proof.
  rewrite !quoted_cons. intros E. injection E as E. apply (append_last_inj _ _ _ E).
Qed.

(** X13.  Different messages are embedded as different literals, and different
    keys as different property names: the message union of a key has one
    member for every distinct message, and no two keys share a
    property. *)
Theorem embedding_keeps_strings_apart (a b : string) :
  a <> b -> embedMessage a <> embedMessage b /\ embedKey a <> embedKey b.
Proof.
  intros Hne. split; intros E; apply Hne.
  - apply encodeWithinSingleQuotes_inj, quoted_inj, E.
  - apply encodeBackslash_inj, encodeWithinSingleQuotes_inj, quoted_inj, E.
Qed.

Lemma embedding_keeps_strings_apart_witness :
  embedMessage "it's" <> embedMessage "it\'s"
  /\ embedKey "it's" <> embedKey "it\'s".
Proof.
  apply (embedding_keeps_strings_apart "it's" "it\'s"). discriminate.
Defined.

Lemma message_round_trip_witness :
  readSingleQuoted (embedMessage "it's 5 o'clock") = Some "it's 5 o'clock".
Proof. apply message_round_trip. reflexivity. Defined.

Lemma key_round_trip_witness :
  readSingleQuoted (embedKey "path\to\'x'") = Some "path\to\'x'".
Proof. apply key_round_trip. reflexivity. Defined.

End Embedding.

(** ** Generation and the file system *)

#[export] Instance MemFS_Framed : FramedFileSystem MemFS.
Proof.
  split. intros f p c f' p' Hw Hne. cbn in Hw. injection Hw as <-. cbn.
  rewrite JSObjectFacts.get_set_other by congruence. reflexivity.
Qed.

Section GenerationAndFiles.

Context {F : Type} {FS : FileSystem F}
        {Lawful : LawfulFileSystem F} {Framed : FramedFileSystem F}.

Variable parse : string -> result AST.
Variable stringifyMessages : TranslationsByKey -> string.
Variable PrettierConfig : Type.
Variable resolveConfig : string -> result PrettierConfig.
Variable format : string -> PrettierConfig -> result string.
Variable getTSFileFromDevLanguageFile : string -> string.

Let declaration_of :=
  declarationOf parse stringifyMessages PrettierConfig resolveConfig format.
Let generate : LoadedTranslation -> Eff.t F unit :=
  generateRuntime parse stringifyMessages PrettierConfig resolveConfig format
    getTSFileFromDevLanguageFile.
Let output (loadedTranslation : LoadedTranslation) : string :=
  getTSFileFromDevLanguageFile (filePath loadedTranslation).

Lemma writeFileM_frame filepath contents (w w1 : World F) r p :
  writeFileM filepath contents w = (r, w1) -> p <> filepath ->
  readFile (files w1) p = readFile (files w) p.
Proof.
  unfold writeFileM.
  destruct (writeFile (files w) filepath contents) as [f'|e] eqn:Hw;
    intros E Hne; inversion E; subst; cbn [files].
  - apply (read_other_after_write _ _ _ _ _ Hw Hne).
  - reflexivity.
Qed.

Lemma generate_cases unit (w w1 : World F) r :
  generate unit w = (r, w1) ->
  (w1 = w /\ (r = Ok tt -> exists declaration,
                declaration_of unit = Ok declaration
                /\ readFile (files w) (output unit) = Ok declaration))
  \/ (exists declaration,
         declaration_of unit = Ok declaration
         /\ writeFileM (output unit) declaration w = (r, w1)).
Proof.
  unfold generate. intros Hgen.
  rewrite (generate_unfold parse stringifyMessages PrettierConfig resolveConfig
             format getTSFileFromDevLanguageFile) in Hgen.
  fold declaration_of in Hgen. fold (output unit) in Hgen.
  destruct (declaration_of unit) as [declaration|e] eqn:Hdecl.
  - rewrite writeIfChanged_unfold in Hgen.
    destruct (readFile (files w) (output unit)) as [existing|e] eqn:Hread.
    + destruct (String.eqb_spec existing declaration) as [->|Hne].
      * left. inversion Hgen; subst. split; [reflexivity|].
        intros _. exists declaration. auto.
      * right. exists declaration. auto.
    + right. exists declaration. auto.
  - left. inversion Hgen; subst. split; [reflexivity|discriminate].
Qed.

Lemma generate_effect unit (w w1 : World F) r :
  generate unit w = (r, w1) ->
  (forall p, p <> output unit -> readFile (files w1) p = readFile (files w) p)
  /\ (r = Ok tt ->
      exists declaration,
        declaration_of unit = Ok declaration
        /\ readFile (files w1) (output unit) = Ok declaration).
Proof.
  intros Hgen. destruct (generate_cases unit w w1 r Hgen)
    as [[-> Hsame]|(declaration & Hdecl & Hwrite)].
  - split; [reflexivity|exact Hsame].
  - split.
    + intros p Hne. apply (writeFileM_frame _ _ _ _ _ _ Hwrite Hne).
    + intros ->. exists declaration. split; [exact Hdecl|].
      apply writeFileM_Ok in Hwrite. apply (read_after_write _ _ _ _ Hwrite).
Qed.

(** X14.  [generateRuntime] changes no file but its output file, whether it
    returns or throws; when it returns, the output file reads back as the
    formatted declaration. *)
Theorem generation_touches_only_its_output unit (w w1 : World F) r :
  generate unit w = (r, w1) ->
  (forall p, p <> output unit -> readFile (files w1) p = readFile (files w) p)
  /\ (r = Ok tt ->
      exists declaration,
        declaration_of unit = Ok declaration
        /\ readFile (files w1) (output unit) = Ok declaration).
Proof. exact (generate_effect unit w w1 r). Qed.

(** *** Generating every unit *)

Variable loadAllTranslations : F -> result (list LoadedTranslation).
Variable Disposer : Type.
Variable watch : Eff.t F Disposer.

Let generate_all : list LoadedTranslation -> Eff.t F unit := generateAll generate.
Let compile_once : bool -> Eff.t F (option Disposer) :=
  compile loadAllTranslations generate Disposer watch.

Lemma generateAll_frame units (w w1 : World F) r p :
  generate_all units w = (r, w1) ->
  ~ In p (map output units) ->
  readFile (files w1) p = readFile (files w) p.
Proof.
  unfold generate_all. revert w.
  induction units as [|u units IH]; cbn [generateAll map]; intros w Hall Hnin.
  - inversion Hall. reflexivity.
  - unfold Eff.bind in Hall.
    destruct (generate u w) as [[[]|e] wm] eqn:Hu.
    + rewrite (IH wm Hall) by (intros Hin; apply Hnin; right; exact Hin).
      apply (proj1 (generate_effect u w wm _ Hu)).
      intros ->. apply Hnin. left. reflexivity.
    + inversion Hall; subst.
      apply (proj1 (generate_effect u w w1 _ Hu)).
      intros ->. apply Hnin. left. reflexivity.
Qed.

Lemma generateAll_outputs units (w w1 : World F) :
  generate_all units w = (Ok tt, w1) ->
  NoDup (map output units) ->
  forall u, In u units ->
    exists declaration,
      declaration_of u = Ok declaration
      /\ readFile (files w1) (output u) = Ok declaration.
Proof.
  unfold generate_all. revert w.
  induction units as [|u0 units IH]; cbn [generateAll map]; intros w Hall Hnd u Hin.
  - contradiction.
  - unfold Eff.bind in Hall. inversion Hnd as [|? ? Hfresh Hnd']; subst.
    destruct (generate u0 w) as [[[]|e] wm] eqn:Hu; [|discriminate].
    destruct Hin as [->|Hin].
    + destruct (proj2 (generate_effect u w wm _ Hu) eq_refl)
        as (declaration & Hdecl & Hread).
      exists declaration. split; [exact Hdecl|].
      rewrite (generateAll_frame units wm w1 (Ok tt) (output u) Hall Hfresh).
      exact Hread.
    + apply (IH wm Hall Hnd' u Hin).
Qed.

Lemma generateAll_up_to_date units (w : World F) :
  (forall u, In u units ->
     exists declaration,
       declaration_of u = Ok declaration
       /\ readFile (files w) (output u) = Ok declaration) ->
  generate_all units w = (Ok tt, w).
Proof.
  unfold generate_all.
  induction units as [|u units IH]; cbn [generateAll]; intros Hall.
  - reflexivity.
  - destruct (Hall u (or_introl eq_refl)) as (declaration & Hdecl & Hread).
    unfold Eff.bind.
    assert (Hu : generate u w = (Ok tt, w)).
    { unfold generate.
      rewrite (generate_unfold parse stringifyMessages PrettierConfig resolveConfig
                 format getTSFileFromDevLanguageFile).
      fold declaration_of. rewrite Hdecl. apply writeIfChanged_same, Hread. }
    rewrite Hu. apply IH. intros u' Hin. apply Hall. right. exact Hin.
Qed.

(** X16.  A second [compile] of an unchanged project, without watching, writes
    nothing and leaves the world as the first one left it - provided the
    units have distinct output files and the loader returns the same
    units after the first run. *)
Theorem second_compile_writes_nothing units (w w1 : World F) :
  loadAllTranslations (files w) = Ok units ->
  loadAllTranslations (files w1) = Ok units ->
  NoDup (map output units) ->
  compile_once false w = (Ok None, w1) ->
  compile_once false w1 = (Ok None, w1).
Proof.
  unfold compile_once, compile, Eff.bind, loadAllTranslationsM, Eff.ret.
  intros Hload Hload1 Hnd Hfirst. rewrite Hload in Hfirst. rewrite Hload1.
  fold generate_all in Hfirst |- *.
  destruct (generate_all units w) as [[[]|e] w'] eqn:Hall; [|discriminate].
  inversion Hfirst; subst w'.
  rewrite (generateAll_up_to_date units w1); [reflexivity|].
  apply (generateAll_outputs units w w1 Hall Hnd).
Qed.

End GenerationAndFiles.

Lemma generation_touches_only_its_output_witness :
  (forall p, p <> "/app/.vocab/translations.json.ts" ->
     readFile (files (snd (Sample.generate Sample.hello
                             (snd (Sample.generate Sample.other Sample.emptyWorld)))))
       p
     = readFile (files (snd (Sample.generate Sample.other Sample.emptyWorld))) p)
  /\ exists declaration,
      declarationOf Sample.parse Sample.stringifyMessages unit Sample.resolveConfig
        Sample.format Sample.hello = Ok declaration
      /\ readFile
           (files (snd (Sample.generate Sample.hello
                          (snd (Sample.generate Sample.other Sample.emptyWorld)))))
           "/app/.vocab/translations.json.ts"
         = Ok declaration.
Proof.
  destruct (generation_touches_only_its_output Sample.parse Sample.stringifyMessages
              unit Sample.resolveConfig Sample.format
              Sample.getTSFileFromDevLanguageFile Sample.hello
              (snd (Sample.generate Sample.other Sample.emptyWorld))
              (snd (Sample.generate Sample.hello
                      (snd (Sample.generate Sample.other Sample.emptyWorld))))
              (Ok tt)) as [Hframe Hfile].
  - vm_compute. reflexivity.
  - split; [exact Hframe|exact (Hfile eq_refl)].
Defined.

Lemma second_compile_writes_nothing_witness :
  let first :=
    compile Sample.loadAllTranslations Sample.generate unit Sample.watch false
      Sample.emptyWorld in
  compile Sample.loadAllTranslations Sample.generate unit Sample.watch false
    (snd first)
  = (Ok None, snd first).
Proof.
  intros first.
  apply (second_compile_writes_nothing Sample.parse Sample.stringifyMessages unit
           Sample.resolveConfig Sample.format Sample.getTSFileFromDevLanguageFile
           Sample.loadAllTranslations unit Sample.watch
           [Sample.hello; Sample.other] Sample.emptyWorld (snd first)).
  - reflexivity.
  - reflexivity.
  - repeat constructor; simpl; intuition discriminate.
  - vm_compute. reflexivity.
Defined.

(** ** The compile entry point *)

Section CompileProperties.

Context {F : Type} `{FileSystem F}.

Variable loadAllTranslations : F -> result (list LoadedTranslation).
Variable generate : LoadedTranslation -> Eff.t F unit.
Variable Disposer : Type.
Variable watch : Eff.t F Disposer.

Let generate_all : list LoadedTranslation -> Eff.t F unit := generateAll generate.
Let compile_once : bool -> Eff.t F (option Disposer) :=
  compile loadAllTranslations generate Disposer watch.

Lemma generateAll_app (before after : list LoadedTranslation) (w : World F) :
  generate_all (before ++ after)%list w
  = match generate_all before w with
    | (Ok _, w') => generate_all after w'
    | (Throw e, w') => (Throw e, w')
    end.
Proof.
  unfold generate_all. revert w.
  induction before as [|u before IH]; intros w; cbn [app generateAll].
  - reflexivity.
  - unfold Eff.bind. destruct (generate u w) as [[[]|e] w']; [apply IH|].
    reflexivity.
Qed.

(** X15.  [compile] generates the units in the loader's order and stops at the
    first one whose generation throws: the exception is the result, what
    the earlier units wrote stays written, the units after it are not
    generated, and no watcher is started even when watching was asked
    for. *)
Theorem compile_stops_at_first_failure shouldWatch
    (before : list LoadedTranslation) failing after (w wk w' : World F) e :
  loadAllTranslations (files w) = Ok (before ++ failing :: after)%list ->
  generate_all before w = (Ok tt, wk) ->
  generate failing wk = (Throw e, w') ->
  compile_once shouldWatch w = (Throw e, w').
Proof.
  intros Hload Hbefore Hunit.
  unfold compile_once, compile, Eff.bind at 1, loadAllTranslationsM.
  rewrite Hload. unfold Eff.bind at 1. fold generate_all.
  rewrite generateAll_app, Hbefore.
  unfold generate_all. cbn [generateAll]. unfold Eff.bind at 1.
  rewrite Hunit. reflexivity.
Qed.

End CompileProperties.

Lemma compile_stops_at_first_failure_witness :
  compile Sample.brokenProject Sample.generate unit Sample.watch true
    Sample.emptyWorld
  = (Throw (MkError "SyntaxError"),
     snd (Sample.generate Sample.hello Sample.emptyWorld)).
Proof.
  apply (compile_stops_at_first_failure Sample.brokenProject Sample.generate unit
           Sample.watch true [Sample.hello] Sample.broken [Sample.other]
           Sample.emptyWorld (snd (Sample.generate Sample.hello Sample.emptyWorld))).
  - reflexivity.
  - vm_compute. reflexivity.
  - vm_compute. reflexivity.
Defined.

(** ** A refused seed file *)

Section SeedFailure.

Context {F : Type} `{FileSystem F}.

Variable cwd : string.
Variable isDevLanguageFile : string -> bool.
Variable isAltLanguageFile : string -> bool.
Variable getDevLanguageFileFromAltLanguageFile : string -> string.
Variable isTranslationDirectory : string -> bool.
Variable devTranslationFileName : string.
Variable pathResolve : string -> string -> string.
Variable pathJoin : string -> string -> string.
Variable loadTranslation : F -> string -> result LoadedTranslation.
Variable generate : LoadedTranslation -> Eff.t F unit.

Let handle : WatchEvent -> Eff.t F unit :=
  dispatch cwd isDevLanguageFile isAltLanguageFile
    getDevLanguageFileFromAltLanguageFile isTranslationDirectory
    devTranslationFileName pathResolve pathJoin loadTranslation generate.
(** X17.  [onNewDirectory] has no [try]: when the seed file cannot be written,
    the exception of [writeFile] leaves the handler after the one
    attempt to write, and nothing is logged.  The handler of file events,
    in contrast, never lets an exception out. *)
Theorem refused_seed_escapes_the_handler relativePath (w : World F) e :
  isTranslationDirectory relativePath = true ->
  existsSync (files w) (pathJoin relativePath devTranslationFileName) = false ->
  writeFile (files w) (pathJoin relativePath devTranslationFileName) "{}" = Throw e ->
  handle (AddDir relativePath) w
  = (Throw e,
     {| files := files w;
        journal :=
          (journal w
           ++ [EvWriteFile (pathJoin relativePath devTranslationFileName) "{}"])%list |}).
Proof.
  intros Htd Habsent Hrefused.
  unfold handle. cbn [dispatch].
  rewrite (on_new_directory_unfold isTranslationDirectory devTranslationFileName
             pathJoin).
  rewrite Htd, Habsent. unfold writeFileM, emptyObjectJSON. rewrite Hrefused.
  reflexivity.
Qed.

End SeedFailure.

Lemma refused_seed_escapes_the_handler_witness :
  dispatch Sample.cwd Sample.isDevLanguageFile Sample.isAltLanguageFile
    Sample.getDevLanguageFileFromAltLanguageFile Sample.isTranslationDirectory
    Sample.devTranslationFileName Sample.pathResolve Sample.pathJoin
    Sample.loadTranslation Sample.generate
    (AddDir ".vocab") Sample.readOnlyWorld
  = (Throw (MkError "EROFS"),
     {| files := files Sample.readOnlyWorld;
        journal := [EvWriteFile ".vocab/translations.json" "{}"] |}).
Proof.
  apply (refused_seed_escapes_the_handler Sample.cwd Sample.isDevLanguageFile
           Sample.isAltLanguageFile Sample.getDevLanguageFileFromAltLanguageFile
           Sample.isTranslationDirectory Sample.devTranslationFileName
           Sample.pathResolve Sample.pathJoin Sample.loadTranslation Sample.generate
           ".vocab" Sample.readOnlyWorld (MkError "EROFS")); reflexivity.
Defined.
